(** * mc-hf sync: path mapping, configuration, migration engine and daemon

    A shallow embedding of the Python sources
      - [sync/core/config.py]  (environment defaults, path mappers),
      - [sync/core/linker.py]  (migration, symbolic links, empty-directory tracking),
      - [sync/daemon.py]       (start-up alignment gate and periodic loop),
    together with the properties of the natural-language specification
    that concern them.

    Python [str] values are Rocq [string]s, exceptions are explicit
    results, the file system is an explicit tree that is threaded through
    every operation, and the daemon's view of the outside world (git,
    the stop flag) is an oracle that is read in program order. *)

From Stdlib Require Import List String Ascii Bool Arith ZArith Lia.
Import ListNotations.
Local Open Scope list_scope.
Local Open Scope string_scope.

(* ===================================================================== *)
(** * Python string operations used by the sources *)
(* ===================================================================== *)

Module PyStr.

(** [s.startswith(p)] *)
Fixpoint startswith (s p : string) {struct p} : bool :=
  match p with
  | EmptyString => true
  | String b p' =>
      match s with
      | EmptyString => false
      | String a s' => Ascii.eqb a b && startswith s' p'
      end
  end.

Fixpoint rev_string (s : string) : string :=
  match s with
  | EmptyString => EmptyString
  | String a s' => rev_string s' ++ String a EmptyString
  end.

(** [s.endswith(p)] *)
Definition endswith (s p : string) : bool :=
  startswith (rev_string s) (rev_string p).

(** membership of a character in a character set given as a string *)
Fixpoint mem_char (c : ascii) (chars : string) : bool :=
  match chars with
  | EmptyString => false
  | String a r => Ascii.eqb c a || mem_char c r
  end.

(** [s.lstrip(chars)]: drops every leading character that belongs to
    the SET [chars] (not a prefix). *)
Fixpoint lstrip (chars s : string) : string :=
  match s with
  | EmptyString => EmptyString
  | String a s' => if mem_char a chars then lstrip chars s' else s
  end.

(** [s.rstrip(chars)] *)
Definition rstrip (chars s : string) : string :=
  rev_string (lstrip chars (rev_string s)).

(** white space as [str.isspace] sees it; a character stands for the
    code point of its number, so the text is text below U+0100 *)
Definition is_space (c : ascii) : bool :=
  let n := nat_of_ascii c in
  (((9 <=? n) && (n <=? 13)) || ((28 <=? n) && (n <=? 32))
   || (n =? 133) || (n =? 160))%nat.

Fixpoint lstrip_ws (s : string) : string :=
  match s with
  | EmptyString => EmptyString
  | String a s' => if is_space a then lstrip_ws s' else s
  end.

(** [s.strip()] *)
Definition strip (s : string) : string :=
  rev_string (lstrip_ws (rev_string (lstrip_ws s))).

(** [s.split()]: the maximal runs of non-blank characters.
    [cur] is the word being read, [None] between words. *)
Fixpoint split_ws_aux (s : string) (cur : option string) : list string :=
  match s with
  | EmptyString => match cur with Some w => [w] | None => [] end
  | String a s' =>
      if is_space a
      then match cur with
           | Some w => w :: split_ws_aux s' None
           | None => split_ws_aux s' None
           end
      else match cur with
           | Some w => split_ws_aux s' (Some (w ++ String a EmptyString))
           | None => split_ws_aux s' (Some (String a EmptyString))
           end
  end.

Definition split_ws (s : string) : list string := split_ws_aux s None.

(** [s.split(c)] for a one-character separator: never empty. *)
Fixpoint split_on (c : ascii) (s : string) : list string :=
  match s with
  | EmptyString => [EmptyString]
  | String a s' =>
      if Ascii.eqb a c then EmptyString :: split_on c s'
      else match split_on c s' with
           | h :: t => String a h :: t
           | [] => [String a EmptyString]
           end
  end.

(** [sep.join(l)] *)
Fixpoint join (sep : string) (l : list string) : string :=
  match l with
  | [] => EmptyString
  | [x] => x
  | x :: r => x ++ sep ++ join sep r
  end.

(** [p in s] for strings *)
Fixpoint contains (s p : string) : bool :=
  startswith s p ||
  match s with
  | EmptyString => false
  | String _ s' => contains s' p
  end.

(** [sep * n] *)
Fixpoint repeat_string (sep : string) (n : nat) : string :=
  match n with
  | 0 => EmptyString
  | S k => sep ++ repeat_string sep k
  end.

(** [bool(s)] *)
Definition truthy (s : string) : bool :=
  match s with EmptyString => false | _ => true end.

(** every character of [s] passes the test [f] *)
Fixpoint all_chars (f : ascii -> bool) (s : string) : bool :=
  match s with
  | EmptyString => true
  | String a r => f a && all_chars f r
  end.

(** a word as [split()] gives them: not empty, no blank in it *)
Definition is_word (s : string) : bool :=
  truthy s && all_chars (fun c => negb (is_space c)) s.

End PyStr.

(* ===================================================================== *)
(** * [posixpath]: the lexical path functions of Python's [os.path] *)
(* ===================================================================== *)

Module PosixPath.
Import PyStr.

Definition sep : string := "/".
Definition sep_char : ascii := "/"%char.

(** [os.path.join(a, b)] *)
Definition join2 (a b : string) : string :=
  if startswith b sep then b
  else if (negb (truthy a)) || endswith a sep then a ++ b
  else a ++ sep ++ b.

(** One round of the component loop of [normpath]. [new_comps] is a
    Python list: [append] adds at the end, [pop] removes the end. *)
Definition norm_step (initial_slashes : nat) (new_comps : list string)
           (comp : string) : list string :=
  if String.eqb comp "" || String.eqb comp "." then new_comps
  else if negb (String.eqb comp "..")
          || ((initial_slashes =? 0)%nat && (match new_comps with [] => true | _ => false end))
          || (match new_comps with
              | [] => false
              | _ => String.eqb (last new_comps "") ".."
              end)
       then (new_comps ++ [comp])%list
       else match new_comps with
            | [] => new_comps
            | _ => removelast new_comps
            end.

Definition initial_slashes_of (path : string) : nat :=
  if startswith path sep then
    if startswith path "//" && negb (startswith path "///") then 2 else 1
  else 0.

(** [os.path.normpath(path)] *)
Definition normpath (path : string) : string :=
  if String.eqb path "" then "."
  else
    let initial_slashes := initial_slashes_of path in
    let comps := split_on sep_char path in
    let new_comps := fold_left (norm_step initial_slashes) comps [] in
    let path' := repeat_string sep initial_slashes ++ join sep new_comps in
    if truthy path' then path' else ".".

(** [os.path.abspath(path)] with the current directory [cwd] made
    explicit. *)
Definition abspath (cwd path : string) : string :=
  if startswith path sep then normpath path
  else normpath (join2 cwd path).

(** ** Normal forms

    What [normpath] leaves of the components of a path: no empty
    component, no [.], no separator inside a component, and [..] only at
    the front of a relative path. *)

(** no separator in a component *)
Fixpoint sep_free (s : string) : bool :=
  match s with
  | EmptyString => true
  | String a r => negb (Ascii.eqb a sep_char) && sep_free r
  end.

Definition plain_comp (c : string) : bool :=
  negb (String.eqb c "") && negb (String.eqb c ".") && sep_free c.

Definition all_up (l : list string) : Prop := Forall (fun c => c = "..") l.

(** The component lists that [normpath] produces for a path with [k]
    leading separators, described from the end, where [norm_step]
    works. *)
Inductive canon (k : nat) : list string -> Prop :=
| canon_nil : canon k []
| canon_plain l c :
    canon k l -> plain_comp c = true -> c <> ".." -> canon k (l ++ [c])
| canon_up l :
    canon k l -> k = 0 -> all_up l -> canon k (l ++ [".."]).

End PosixPath.

(* ===================================================================== *)
(** * [sync/core/config.py] *)
(* ===================================================================== *)

Module Config.
Import PyStr PosixPath.

(** ** Path mappers *)

(** [to_abs_under_base(base, rel)] *)
Definition to_abs_under_base (base rel : string) : string :=
  if startswith rel "/" then rel
  else if String.eqb base "/" then "/" ++ rel
  else normpath (join2 base rel).

(** [to_under_hist(hist, rel)] *)
Definition to_under_hist (hist rel : string) : string :=
  let rel := lstrip "/" rel in
  normpath (join2 hist rel).

(** ** Module-level defaults

    [os.environ] is a finite map from names to strings; [get] returns
    Python's [None] when the key is absent and no fallback is given. *)

Inductive pyval :=
| PyNone
| PyStr (s : string).

Inductive pyexc :=
| AttributeError (msg : string).

Inductive result (A : Type) :=
| Ok (a : A)
| Raise (e : pyexc).
Arguments Ok {A} a.
Arguments Raise {A} e.

Definition bind {A B} (r : result A) (k : A -> result B) : result B :=
  match r with
  | Ok a => k a
  | Raise e => Raise e
  end.

Definition environ := string -> option string.

(** [os.environ.get(key, default)]; [default] is [PyNone] when the
    call passes no second argument. *)
Definition environ_get (env : environ) (key : string) (default : pyval) : pyval :=
  match env key with
  | Some v => PyStr v
  | None => default
  end.

(** method calls on a value that may be [None] *)
Definition py_strip (v : pyval) : result string :=
  match v with
  | PyStr s => Ok (strip s)
  | PyNone => Raise (AttributeError "'NoneType' object has no attribute 'strip'")
  end.

Definition py_rstrip (chars : string) (v : pyval) : result string :=
  match v with
  | PyStr s => Ok (rstrip chars s)
  | PyNone => Raise (AttributeError "'NoneType' object has no attribute 'rstrip'")
  end.

Definition py_str (v : pyval) : result string :=
  match v with
  | PyStr s => Ok s
  | PyNone => Raise (AttributeError "NoneType where str is expected")
  end.

(** the names bound when the module body has been run *)
Record config_module := {
  DEFAULT_BASE : pyval;
  DEFAULT_HIST_DIR : pyval;
  DEFAULT_BRANCH : pyval;
  DEFAULT_TARGETS : list string;
  DEFAULT_EXCLUDES : list string
}.

(** The module body, top to bottom. *)
Definition import_config (env : environ) : result config_module :=
  let default_base := environ_get env "BASE" (PyStr "/") in
  let default_hist_dir := environ_get env "HIST_DIR" (PyStr "/home/user/.astrbot-backup") in
  let default_branch := environ_get env "GIT_BRANCH" (PyStr "main") in
  bind (py_strip (environ_get env "SYNC_TARGETS" (PyStr (join " " ["data/"]))))
    (fun t =>
  let default_targets := split_ws t in
  bind (py_strip (environ_get env "EXCLUDE_PATHS" PyNone))
    (fun e =>
  let default_excludes := split_ws e in
  Ok {| DEFAULT_BASE := default_base;
        DEFAULT_HIST_DIR := default_hist_dir;
        DEFAULT_BRANCH := default_branch;
        DEFAULT_TARGETS := default_targets;
        DEFAULT_EXCLUDES := default_excludes |})).

Record Settings := {
  base : string;
  hist_dir : string;
  branch : string;
  github_pat : string;
  github_repo : string;
  targets : list string;
  excludes : list string;
  ready_file : string
}.

(** What [_load_file_overrides] hands back: the two keys that
    [load_settings] reads, each present only when the stored value is
    a list; the elements are already passed through [str]. *)
Record overrides := {
  ov_targets : option (list string);
  ov_excludes : option (list string)
}.

Definition no_overrides : overrides :=
  {| ov_targets := None; ov_excludes := None |}.

(** ** The override block of [load_settings]

    The two [if] statements that follow the call of
    [_load_file_overrides], as functions of the lists they assign to.
    An entry of the override file is a string here. *)

(** [if isinstance(overrides.get("targets"), list) and overrides["targets"]:
       targets = [str(x).lstrip("/") for x in overrides["targets"] if str(x).strip()]] *)
Definition targets_after_overrides (ov : overrides) (targets : list string)
  : list string :=
  match ov_targets ov with
  | Some [] => targets
  | Some l => map (lstrip "/") (filter (fun x => truthy (strip x)) l)
  | None => targets
  end.

(** [if isinstance(overrides.get("excludes"), list):
       ex = [str(x).strip("/") for x in overrides["excludes"] if str(x).strip()]
       if ex: excludes = ex] *)
Definition excludes_after_overrides (ov : overrides) (excludes : list string)
  : list string :=
  match ov_excludes ov with
  | Some l =>
      let ex := map (fun x => rstrip "/" (lstrip "/" x))
                    (filter (fun x => truthy (strip x)) l) in
      match ex with [] => excludes | _ => ex end
  | None => excludes
  end.

(** [load_settings()], with the process' current directory and the
    content of the override file as inputs. *)
Definition load_settings (m : config_module) (env : environ) (cwd : string)
           (ov : overrides) : result Settings :=
  bind (py_rstrip "/" (DEFAULT_BASE m)) (fun b =>
  let base := if truthy b then b else "/" in
  bind (py_str (DEFAULT_HIST_DIR m)) (fun h =>
  let hist_dir := abspath cwd h in
  bind (py_str (DEFAULT_BRANCH m)) (fun branch =>
  bind (py_str (environ_get env "GITHUB_PAT" (PyStr ""))) (fun github_pat =>
  bind (py_str (environ_get env "GITHUB_REPO" (PyStr ""))) (fun github_repo =>
  let targets := DEFAULT_TARGETS m in
  let excludes := DEFAULT_EXCLUDES m in
  let targets := targets_after_overrides ov targets in
  let excludes := excludes_after_overrides ov excludes in
  bind (py_str (environ_get env "SYNC_READY_FILE"
                            (PyStr (join2 hist_dir ".sync.ready")))) (fun ready_file =>
  Ok {| base := base; hist_dir := hist_dir; branch := branch;
        github_pat := github_pat; github_repo := github_repo;
        targets := targets; excludes := excludes;
        ready_file := ready_file |})))))).

(** A caller can reach [load_settings] only through the imported
    module. *)
Definition import_and_load (env : environ) (cwd : string) (ov : overrides)
  : result Settings :=
  bind (import_config env) (fun m => load_settings m env cwd ov).

End Config.

(* ===================================================================== *)
(** * [sync/daemon.py]: the start-up gate and the periodic loop

    The daemon talks to git and reads a stop flag that another thread
    may set.  Both are an oracle here: [world] fixes what every call
    answers, in program order, and the daemon's run is the list of
    [event]s it produces.  Loops take fuel; [Running] says that the fuel
    ran out while the loop was still going. *)
(* ===================================================================== *)

Module Daemon.
Import PyStr.

(** an instance of a subclass of Python's [Exception] *)
Inductive exc :=
| Exception (msg : string)
| RuntimeError (msg : string).

Inductive res (A : Type) :=
| Ok (a : A)
| Raise (e : exc).
Arguments Ok {A} a.
Arguments Raise {A} e.

Inductive event :=
| GitEnsureRepo
| InstallExcludes
| GitSetRemote
| GitRemoteIsEmpty
| GitInitialCommit
| GitPush
| GitFetchAndCheckout
| GitRevParse (ref : string)
| LogAligned           (* log: initial pull done, HEAD equals the remote *)
| LogNotAligned        (* log: HEAD differs from the remote, retrying *)
| LogError (e : exc)   (* err: initialisation or pull failed *)
| Sleep (seconds : nat)
| LinkAndTrack
| PullCommitPush.

(** The answers of git during one round of the alignment loop. *)
Record attempt := {
  remote_is_empty : res bool;
  initial_commit_if_needed : res unit;
  push : res unit;
  fetch_and_checkout : res unit;
  rev_parse_head : res string;     (* stdout of [git rev-parse HEAD] *)
  rev_parse_origin : res string    (* stdout of [git rev-parse origin/<branch>] *)
}.

Record world := {
  ensure_repo : res unit;
  ensure_git_info_exclude : res unit;
  set_remote : res unit;
  stop_is_set : nat -> bool;          (* n-th call of [self._stop.is_set()] *)
  attempts : nat -> attempt;          (* n-th round of the alignment loop *)
  link_and_track : res unit;
  pull_commit_push : nat -> res unit  (* n-th periodic cycle *)
}.

(** a computation that logs events and may raise *)
Definition T (A : Type) : Type := list event * res A.

Definition ret {A} (a : A) : T A := ([], Ok a).

Definition bind {A B} (m : T A) (k : A -> T B) : T B :=
  match m with
  | (ev, Ok a) => let '(ev', r) := k a in (ev ++ ev', r)%list
  | (ev, Raise e) => (ev, Raise e)
  end.

(** a call into the outside world: one event, then its answer *)
Definition call {A} (e : event) (answer : res A) : T A := ([e], answer).

Definition emit (e : event) : T unit := ([e], Ok tt).

(** [try: body  except Exception as e: handler(e)] *)
Definition try_except {A} (body : T A) (handler : exc -> T A) : T A :=
  match body with
  | (ev, Ok a) => (ev, Ok a)
  | (ev, Raise e) => let '(ev', r) := handler e in (ev ++ ev', r)%list
  end.

Notation "x <- m ;; k" := (bind m (fun x => k))
  (at level 61, m at next level, right associativity).
Notation "m ;;; k" := (bind m (fun _ => k))
  (at level 61, right associativity).

(** [SyncDaemon._head_matches_origin] *)
Definition _head_matches_origin (branch : string) (a : attempt) : T bool :=
  try_except
    (out1 <- call (GitRevParse "HEAD") (rev_parse_head a) ;;
     let h1 := strip out1 in
     out2 <- call (GitRevParse ("origin/" ++ branch)) (rev_parse_origin a) ;;
     let h2 := strip out2 in
     ret (String.eqb h1 h2 && truthy h1))
    (fun _ => ret false).

(** The body of one round of the [while] loop of [ensure_remote_ready],
    up to but excluding [time.sleep(3)].  The answer [true] stands for
    the [return] inside the loop. *)
Definition align_round (branch : string) (a : attempt) : T bool :=
  try_except
    (empty <- call GitRemoteIsEmpty (remote_is_empty a) ;;
     (if empty : bool
      then (call GitInitialCommit (initial_commit_if_needed a) ;;;
            call GitPush (push a))
      else call GitFetchAndCheckout (fetch_and_checkout a)) ;;;
     ok <- _head_matches_origin branch a ;;
     if ok : bool
     then (emit LogAligned ;;; ret true)
     else (emit LogNotAligned ;;; ret false))
    (fun e => emit (LogError e) ;;; ret false).

Inductive status :=
| Returned              (* the function returned *)
| Raised (e : exc)      (* an exception left the function *)
| Running.              (* out of fuel, the loop goes on *)

(** The [while not self._stop.is_set()] loop of [ensure_remote_ready].
    [k] counts the rounds, [reads] the calls of [is_set] so far. *)
Fixpoint align_loop (w : world) (branch : string) (fuel k reads : nat)
  : list event * nat * status :=
  match fuel with
  | 0 => ([], reads, Running)
  | S fuel' =>
      if stop_is_set w reads then ([], S reads, Returned)
      else
        match align_round branch (attempts w k) with
        | (ev, Ok true) => (ev, S reads, Returned)
        | (ev, Ok false) =>
            let '(ev', reads', s) := align_loop w branch fuel' (S k) (S reads) in
            ((ev ++ [Sleep 3]) ++ ev', reads', s)%list
        | (ev, Raise e) => (ev, S reads, Raised e)
        end
  end.

(** [SyncDaemon.ensure_remote_ready] *)
Definition ensure_remote_ready (st : Config.Settings) (w : world) (fuel reads : nat)
  : list event * nat * status :=
  if negb (truthy (Config.github_repo st)) || negb (truthy (Config.github_pat st))
  then ([], reads, Raised (RuntimeError "GITHUB_REPO/GITHUB_PAT"))
  else
    match (call GitEnsureRepo (ensure_repo w) ;;;
           call InstallExcludes (ensure_git_info_exclude w) ;;;
           call GitSetRemote (set_remote w)) with
    | (ev, Raise e) => (ev, reads, Raised e)
    | (ev, Ok _) =>
        let '(ev', reads', s) := align_loop w (Config.branch st) fuel 0 reads in
        ((ev ++ ev')%list, reads', s)
    end.

(** [for _ in range(interval): if self._stop.is_set(): break; time.sleep(1)] *)
Fixpoint wait_interval (w : world) (interval reads : nat) : list event * nat :=
  match interval with
  | 0 => ([], reads)
  | S n =>
      if stop_is_set w reads then ([], S reads)
      else let '(ev, reads') := wait_interval w n (S reads) in
           (Sleep 1 :: ev, reads')
  end.

(** The periodic loop of [run]. [c] counts the cycles. *)
Fixpoint sync_loop (w : world) (interval fuel c reads : nat)
  : list event * status :=
  match fuel with
  | 0 => ([], Running)
  | S fuel' =>
      if stop_is_set w reads then ([], Returned)
      else
        match pull_commit_push w c with
        | Raise e => ([PullCommitPush], Raised e)
        | Ok _ =>
            let '(ev, reads') := wait_interval w interval (S reads) in
            let '(ev', s) := sync_loop w interval fuel' (S c) reads' in
            ((PullCommitPush :: ev) ++ ev', s)%list
        end
  end.

(** [SyncDaemon.run]: alignment, then linking, then the loop. The
    result of [ensure_remote_ready] is not inspected. *)
Definition run (st : Config.Settings) (w : world) (interval fuel_align fuel_loop : nat)
  : list event * status :=
  match ensure_remote_ready st w fuel_align 0 with
  | (ev, _, Raised e) => (ev, Raised e)
  | (ev, _, Running) => (ev, Running)
  | (ev, reads, Returned) =>
      match link_and_track w with
      | Raise e => ((ev ++ [LinkAndTrack])%list, Raised e)
      | Ok _ =>
          let '(ev', s) := sync_loop w interval fuel_loop 0 reads in
          ((ev ++ LinkAndTrack :: ev')%list, s)
      end
  end.

(** ** What the outside world decides in a round

    Read off the oracle, independently of the code above. *)

Definition is_ok {A} (r : res A) : bool :=
  match r with Ok _ => true | Raise _ => false end.

(** git answered every call made before the comparison of the heads *)
Definition prepared (a : attempt) : bool :=
  match remote_is_empty a with
  | Ok true => is_ok (initial_commit_if_needed a) && is_ok (push a)
  | Ok false => is_ok (fetch_and_checkout a)
  | Raise _ => false
  end.

(** the local and the remote-tracking commit hash are equal and not empty *)
Definition hashes_agree (a : attempt) : bool :=
  match rev_parse_head a, rev_parse_origin a with
  | Ok out1, Ok out2 => String.eqb (strip out1) (strip out2) && truthy (strip out1)
  | _, _ => false
  end.

Definition round_events (branch : string) (a : attempt) : list event :=
  fst (align_round branch a).

(** [n] rounds that did not align, each followed by its back-off *)
Definition retry_trace (w : world) (branch : string) (k n : nat) : list event :=
  flat_map (fun i => (round_events branch (attempts w (k + i)) ++ [Sleep 3])%list)
           (seq 0 n).

(** the oracle-side reading of a round *)
Definition round_ok (a : attempt) : bool := prepared a && hashes_agree a.

(** a periodic cycle that nothing interrupts: the cycle, then
    [interval] sleeps of one second *)
Definition cycle_trace (interval : nat) : list event :=
  PullCommitPush :: repeat (Sleep 1) interval.

(** [n] such cycles, one after the other *)
Definition cycles_trace (interval n : nat) : list event :=
  List.concat (repeat (cycle_trace interval) n).

End Daemon.
(* ===================================================================== *)
(** * The file system seen by [linker.py]

    One tree holds the whole file system.  A path is the list of its
    components from the root; [os.path.join(d, name)] is [d ++ [name]]
    and [os.path.dirname] drops the last component.  A link stores its
    text, an absolute path, as the list of the strings between the
    separators after the first one: ["/h/data"] is [["h"; "data"]] and
    ["/h/data/"] is [["h"; "data"; ""]], so that two links have the
    same list exactly when they have the same text.  Path resolution
    follows symbolic links in every position, as the kernel does, with
    the kernel's bound on the number of links followed; the empty
    strings and the dots of a link's text are passed over.  A directory
    carries two attributes: [writable] (entries may be added to and
    removed from it) and [busy] (it is a mount point: it cannot be
    removed or renamed).  A failing system call leaves the tree as it
    was and raises [OSError] with the kernel's error number.

    Not in this model: links with a relative text, the component [..],
    owners, and the permissions to read and to search a directory
    (every directory can be listed and passed through). *)
(* ===================================================================== *)

Module FS.
Local Open Scope list_scope.

Abbreviation name := string (only parsing).
Definition path := list name.

Inductive errno :=
| EPERM | ENOENT | EACCES | EEXIST | ENOTDIR | EISDIR
| EINVAL | ENOTEMPTY | EBUSY | ELOOP.

Definition errno_eqb (a b : errno) : bool :=
  match a, b with
  | EPERM, EPERM | ENOENT, ENOENT | EACCES, EACCES | EEXIST, EEXIST
  | ENOTDIR, ENOTDIR | EISDIR, EISDIR | EINVAL, EINVAL
  | ENOTEMPTY, ENOTEMPTY | EBUSY, EBUSY | ELOOP, ELOOP => true
  | _, _ => false
  end.

(** Python's [OSError]; [shutil] raises some without an error number. *)
Inductive oserror :=
| OSError (code : option errno).

Definition errno_in (e : oserror) (l : list errno) : bool :=
  match e with
  | OSError (Some c) => existsb (errno_eqb c) l
  | OSError None => false
  end.

Record dattr := { writable : bool; busy : bool }.

Definition plain : dattr := {| writable := true; busy := false |}.

#[warnings="-register-all"]
Inductive node :=
| File (mtime : Z) (data : string)
| Dir (a : dattr) (entries : list (name * node))
| Link (target : path).


(** ** Directory entries *)

Fixpoint lookup (x : name) (es : list (name * node)) : option node :=
  match es with
  | [] => None
  | (y, v) :: r => if String.eqb x y then Some v else lookup x r
  end.

(** replaces the entry [x], or adds it at the end *)
Fixpoint set_entry (x : name) (v : node) (es : list (name * node))
  : list (name * node) :=
  match es with
  | [] => [(x, v)]
  | (y, u) :: r =>
      if String.eqb x y then (y, v) :: r else (y, u) :: set_entry x v r
  end.

Fixpoint del_entry (x : name) (es : list (name * node)) : list (name * node) :=
  match es with
  | [] => []
  | (y, u) :: r =>
      if String.eqb x y then del_entry x r else (y, u) :: del_entry x r
  end.

(** ** Physical access: no link is followed *)

Fixpoint find (n : node) (p : path) : option node :=
  match p with
  | [] => Some n
  | x :: p' =>
      match n with
      | Dir _ es =>
          match lookup x es with
          | Some c => find c p'
          | None => None
          end
      | _ => None
      end
  end.

(** applies [f] to the entries of the directory at [p] *)
Fixpoint alter_dir (f : list (name * node) -> list (name * node))
         (n : node) (p : path) : node :=
  match n with
  | Dir a es =>
      match p with
      | [] => Dir a (f es)
      | x :: p' =>
          match lookup x es with
          | Some c => Dir a (set_entry x (alter_dir f c p') es)
          | None => n
          end
      end
  | _ => n
  end.

Definition dirname (p : path) : path := removelast p.
Definition basename (p : path) : name := last p "".

(** ** Path resolution *)

Inductive walk_result :=
| Done (q : path)      (* the physical path; its last component may be missing *)
| Follow (p : path)    (* a link was met: start again from the root with [p] *)
| Fail (e : errno).

(** the components of a link's text that name something *)
Definition clean (t : path) : path :=
  filter (fun c => negb (String.eqb c "" || String.eqb c ".")) t.

(** [cur] is the node at the physical path [cwd]; [todo] is what is
    left of the path.  A link in the last position is followed only
    when [follow_last] is set ([stat] against [lstat]). *)
Fixpoint walk (follow_last : bool) (cwd : path) (cur : node) (todo : path)
  : walk_result :=
  match todo with
  | [] => Done cwd
  | x :: rest =>
      match cur with
      | Dir _ es =>
          match lookup x es with
          | None =>
              match rest with
              | [] => Done (cwd ++ [x])
              | _ => Fail ENOENT
              end
          | Some (Link t) =>
              match rest with
              | [] => if follow_last then Follow (clean t) else Done (cwd ++ [x])
              | _ => Follow (clean t ++ rest)
              end
          | Some c => walk follow_last (cwd ++ [x]) c rest
          end
      | _ => Fail ENOTDIR
      end
  end.

Inductive res (A : Type) :=
| Ok (a : A)
| Raise (e : oserror).
Arguments Ok {A} a.
Arguments Raise {A} e.

Definition err {A} (c : errno) : res A := Raise (OSError (Some c)).

Fixpoint namei_fuel (fuel : nat) (root : node) (follow_last : bool) (p : path)
  : res path :=
  match walk follow_last [] root p with
  | Done q => Ok q
  | Fail e => err e
  | Follow p' =>
      match fuel with
      | 0 => err ELOOP
      | S fuel' => namei_fuel fuel' root follow_last p'
      end
  end.

Definition MAXSYMLINKS : nat := 40.

Definition namei (root : node) (follow_last : bool) (p : path) : res path :=
  namei_fuel MAXSYMLINKS root follow_last p.

Definition lstat (fs : node) (p : path) : option node :=
  match namei fs false p with
  | Ok q => find fs q
  | Raise _ => None
  end.

Definition stat (fs : node) (p : path) : option node :=
  match namei fs true p with
  | Ok q => find fs q
  | Raise _ => None
  end.

(** ** The state-and-exception monad of file-system code

    An exception keeps the effects made before it. *)

Definition M (A : Type) : Type := node -> node * res A.

Definition ret {A} (a : A) : M A := fun fs => (fs, Ok a).
Definition raise {A} (e : oserror) : M A := fun fs => (fs, Raise e).
Definition fail {A} (c : errno) : M A := fun fs => (fs, err c).

Definition bind {A B} (m : M A) (k : A -> M B) : M B :=
  fun fs =>
    match m fs with
    | (fs', Ok a) => k a fs'
    | (fs', Raise e) => (fs', Raise e)
    end.

(** [try: m  except OSError as e: h(e)] *)
Definition try_except {A} (m : M A) (h : oserror -> M A) : M A :=
  fun fs =>
    match m fs with
    | (fs', Ok a) => (fs', Ok a)
    | (fs', Raise e) => h e fs'
    end.

(** reading the state *)
Definition gets {A} (f : node -> A) : M A := fun fs => (fs, Ok (f fs)).

Notation "x <- m ;; k" := (bind m (fun x => k))
  (at level 61, m at next level, right associativity).
Notation "m ;;; k" := (bind m (fun _ => k))
  (at level 61, right associativity).

(** [for x in l: body(x)] *)
Fixpoint for_each {A} (l : list A) (body : A -> M unit) : M unit :=
  match l with
  | [] => ret tt
  | x :: r => body x ;;; for_each r body
  end.

(** ** [os.path] predicates; none of them raises *)

Definition is_link (n : option node) : bool :=
  match n with Some (Link _) => true | _ => false end.
Definition is_dir (n : option node) : bool :=
  match n with Some (Dir _ _) => true | _ => false end.
Definition is_file (n : option node) : bool :=
  match n with Some (File _ _) => true | _ => false end.
Definition is_some (n : option node) : bool :=
  match n with Some _ => true | None => false end.

Definition islink (p : path) : M bool := gets (fun fs => is_link (lstat fs p)).
Definition lexists (p : path) : M bool := gets (fun fs => is_some (lstat fs p)).
Definition exists_ (p : path) : M bool := gets (fun fs => is_some (stat fs p)).
Definition isdir (p : path) : M bool := gets (fun fs => is_dir (stat fs p)).
Definition isfile (p : path) : M bool := gets (fun fs => is_file (stat fs p)).

(** [os.access(p, os.W_OK)] *)
Definition access_w (p : path) : M bool :=
  gets (fun fs => match stat fs p with
                  | Some (Dir a _) => writable a
                  | Some _ => true
                  | None => false
                  end).

(** ** System calls *)

Definition parent_writable (fs : node) (q : path) : bool :=
  match find fs (dirname q) with
  | Some (Dir a _) => writable a
  | _ => false
  end.

(** adds or replaces the entry at the physical path [q] *)
Definition put (q : path) (v : node) (fs : node) : node :=
  alter_dir (set_entry (basename q) v) fs (dirname q).

(** removes the entry at the physical path [q] *)
Definition drop (q : path) (fs : node) : node :=
  alter_dir (del_entry (basename q)) fs (dirname q).

(** [os.readlink(p)] *)
Definition readlink (p : path) : M path :=
  fun fs =>
    match namei fs false p with
    | Raise e => (fs, Raise e)
    | Ok q =>
        match find fs q with
        | Some (Link t) => (fs, Ok t)
        | Some _ => (fs, err EINVAL)
        | None => (fs, err ENOENT)
        end
    end.

(** [os.listdir(p)]; every directory can be read *)
Definition listdir (p : path) : M (list name) :=
  fun fs =>
    match namei fs true p with
    | Raise e => (fs, Raise e)
    | Ok q =>
        match find fs q with
        | Some (Dir _ es) => (fs, Ok (map fst es))
        | Some _ => (fs, err ENOTDIR)
        | None => (fs, err ENOENT)
        end
    end.

(** [os.unlink(p)], also [os.remove(p)] *)
Definition unlink (p : path) : M unit :=
  fun fs =>
    match namei fs false p with
    | Raise e => (fs, Raise e)
    | Ok q =>
        match find fs q with
        | None => (fs, err ENOENT)
        | Some n =>
            if negb (parent_writable fs q) then (fs, err EACCES)
            else match n with
                 | Dir _ _ => (fs, err EISDIR)
                 | _ => (drop q fs, Ok tt)
                 end
        end
    end.

(** [os.rmdir(p)] *)
Definition rmdir (p : path) : M unit :=
  fun fs =>
    match namei fs false p with
    | Raise e => (fs, Raise e)
    | Ok q =>
        match find fs q with
        | None => (fs, err ENOENT)
        | Some n =>
            match q with
            | [] => (fs, err EBUSY)
            | _ =>
                if negb (parent_writable fs q) then (fs, err EACCES)
                else match n with
                     | Dir a es =>
                         if busy a then (fs, err EBUSY)
                         else match es with
                              | [] => (drop q fs, Ok tt)
                              | _ => (fs, err ENOTEMPTY)
                              end
                     | _ => (fs, err ENOTDIR)
                     end
            end
        end
    end.

(** creation of a new entry: [os.symlink], [os.mkdir] *)
Definition create (p : path) (v : node) : M unit :=
  fun fs =>
    match namei fs false p with
    | Raise e => (fs, Raise e)
    | Ok q =>
        match find fs q with
        | Some _ => (fs, err EEXIST)
        | None =>
            if parent_writable fs q then (put q v fs, Ok tt)
            else (fs, err EACCES)
        end
    end.

(** [os.symlink(target, p)]: the link is made at [p] *)
Definition symlink (target p : path) : M unit := create p (Link target).

(** [os.mkdir(p)] *)
Definition mkdir (p : path) : M unit := create p (Dir plain []).

(** [open(p, "a").close()]: creates an empty file stamped [now] when
    [p] names nothing; an existing file is left as it is. *)
Definition open_append (now : Z) (p : path) : M unit :=
  fun fs =>
    match namei fs true p with
    | Raise e => (fs, Raise e)
    | Ok q =>
        match find fs q with
        | Some (File _ _) => (fs, Ok tt)
        | Some (Dir _ _) => (fs, err EISDIR)
        | Some (Link _) => (fs, err ELOOP)
        | None =>
            if parent_writable fs q then (put q (File now "") fs, Ok tt)
            else (fs, err EACCES)
        end
    end.

Fixpoint is_prefix (p q : path) : bool :=
  match p, q with
  | [], _ => true
  | x :: p', y :: q' => String.eqb x y && is_prefix p' q'
  | _ :: _, [] => false
  end.

Definition path_eqb (p q : path) : bool := is_prefix p q && is_prefix q p.

(** [os.rename(s, d)] *)
Definition rename (s d : path) : M unit :=
  fun fs =>
    match namei fs false s with
    | Raise e => (fs, Raise e)
    | Ok qs =>
        match namei fs false d with
        | Raise e => (fs, Raise e)
        | Ok qd =>
            match find fs qs, qs with
            | None, _ => (fs, err ENOENT)
            | Some _, [] => (fs, err EBUSY)
            | Some n, _ :: _ =>
                if path_eqb qs qd then (fs, Ok tt)
                else if is_prefix qs qd then (fs, err EINVAL)
                else if negb (parent_writable fs qs && parent_writable fs qd)
                then (fs, err EACCES)
                else
                  let go := (put qd n (drop qs fs), Ok tt) in
                  match n, find fs qd with
                  | Dir a _, _ =>
                      if busy a then (fs, err EBUSY)
                      else match find fs qd with
                           | None => go
                           | Some (Dir b []) => if busy b then (fs, err EBUSY) else go
                           | Some (Dir _ _) => (fs, err ENOTEMPTY)
                           | Some _ => (fs, err ENOTDIR)
                           end
                  | _, Some (Dir _ _) => (fs, err EISDIR)
                  | _, _ => go
                  end
            end
        end
    end.

(** [shutil.copy2(s, t)]: the content and the modification time of the
    file that [s] resolves to are written to [t], through a link at [t]
    if there is one; a directory [t] receives a file named as [s]. *)
Definition copy2 (s t : path) : M unit :=
  fun fs =>
    let t := if is_dir (stat fs t) then t ++ [basename s] else t in
    match namei fs true s with
    | Raise e => (fs, Raise e)
    | Ok qs =>
        match find fs qs with
        | None => (fs, err ENOENT)
        | Some (Dir _ _) => (fs, err EISDIR)
        | Some (Link _) => (fs, err ELOOP)
        | Some (File m c) =>
            match namei fs true t with
            | Raise e => (fs, Raise e)
            | Ok qt =>
                if path_eqb qs qt then (fs, Raise (OSError None))
                else
                  match find fs qt with
                  | Some (File _ _) => (put qt (File m c) fs, Ok tt)
                  | Some (Dir _ _) => (fs, err EISDIR)
                  | Some (Link _) => (fs, err ELOOP)
                  | None =>
                      if parent_writable fs qt then (put qt (File m c) fs, Ok tt)
                      else (fs, err EACCES)
                  end
            end
        end
    end.

(** [shutil.move(s, d)] for a source that is a regular file and not a
    link: a rename, and when the rename fails a copy followed by the
    removal of the source. *)
Definition move_file (s d : path) : M unit :=
  b <- isdir d ;;
  let real_dst := if b : bool then d ++ [basename s] else d in
  (if b : bool
   then (e <- exists_ real_dst ;;
         if e : bool then raise (OSError None) else ret tt)
   else ret tt) ;;;
  try_except (rename s real_dst)
             (fun _ => copy2 s real_dst ;;; unlink s).

(** ** [shutil.rmtree]

    [rm_node ig pw n] tries to delete the node [n], an entry of a
    directory whose write permission is [pw].  It answers what is left
    of [n] ([None] when it is gone) and the first error met.  With
    [ig] ([ignore_errors=True]) the deletion goes on after an error;
    without it the first error stops everything. *)
Fixpoint rm_node (ig pw : bool) (n : node) : option node * option errno :=
  match n with
  | Dir a es =>
      let rm_entries :=
        fix rm_entries (es : list (name * node))
          : list (name * node) * option errno :=
          match es with
          | [] => ([], None)
          | (x, c) :: r =>
              let '(c', e1) := rm_node ig (writable a) c in
              let kept := match c' with Some v => [(x, v)] | None => [] end in
              match e1 with
              | Some e =>
                  if ig then let '(r', _) := rm_entries r in (kept ++ r', Some e)
                  else (kept ++ r, Some e)
              | None =>
                  let '(r', e2) := rm_entries r in (kept ++ r', e2)
              end
          end in
      let '(es', e) := rm_entries es in
      match e with
      | Some c => (Some (Dir a es'), Some c)
      | None =>
(* [os.rmdir] of the directory itself *)
if negb pw then (Some (Dir a es'), Some EACCES)
else if busy a then (Some (Dir a es'), Some EBUSY)
else match es' with
     | [] => (None, None)
     | _ => (Some (Dir a es'), Some ENOTEMPTY)
     end
end
| _ => if pw then (None, None) else (Some n, Some EACCES)
end.

(** [shutil.rmtree(p, ignore_errors=ig)] *)
Definition rmtree (ig : bool) (p : path) : M unit :=
  fun fs =>
    let give (fs' : node) (e : option oserror) : node * res unit :=
      match e with
      | Some x => if ig then (fs', Ok tt) else (fs', Raise x)
      | None => (fs', Ok tt)
      end in
    if is_link (lstat fs p) then give fs (Some (OSError None))
    else
      match namei fs false p with
      | Raise e => give fs (Some e)
      | Ok q =>
          match find fs q with
          | None => give fs (Some (OSError (Some ENOENT)))
          | Some (Dir a es) =>
              let pw := match q with [] => false | _ => parent_writable fs q end in
              match rm_node ig pw (Dir a es) with
              | (None, _) => give (drop q fs) None
              | (Some v, e) =>
                  let fs' := match q with [] => v | _ => put q v fs end in
                  give fs' (option_map (fun c => OSError (Some c)) e)
              end
          | Some _ => give fs (Some (OSError (Some ENOTDIR)))
          end
      end.

(** ** [os.makedirs(p, exist_ok=True)]

    The recursion of the library function goes from the path to its
    parent; [rp] is the path reversed. *)
Fixpoint makedirs_rev (rp : list name) : M unit :=
  match rp with
  | [] => ret tt
  | _ :: rhead =>
      let p := rev rp in
      let head := rev rhead in
      (b <- exists_ head ;;
       if b : bool then ret tt
       else try_except (makedirs_rev rhead)
              (fun e => if errno_in e [EEXIST] then ret tt else raise e)) ;;;
      try_except (mkdir p)
        (fun e => d <- isdir p ;; if d : bool then ret tt else raise e)
  end.

Definition makedirs (p : path) : M unit := makedirs_rev (rev p).

(** ** [os.walk(top)]

    Top-down; links to directories are listed among the directories
    but not entered.  The triples are computed from the tree at the
    time of the call, where [os.walk] lists a directory when it reaches
    it.  The two agree as long as the loop that reads the triples adds
    no directory below a directory that is still to be visited:
    [track_empty_dirs] adds files only, and the copy loop of
    [migrate_and_link] adds directories below the history path, which
    the walk of the live path visits only when the history path lies
    inside the live path. *)
Fixpoint walk_node (fs : node) (d : path) (n : node)
  : list (path * list name * list name) :=
  match n with
  | Dir _ es =>
      let as_dir (e : name * node) : bool :=
        match snd e with
        | Dir _ _ => true
        | Link _ => is_dir (stat fs (d ++ [fst e]))
        | File _ _ => false
        end in
      let below :=
        (fix below (es : list (name * node)) :=
           match es with
           | [] => []
           | (x, c) :: r =>
               match c with
               | Dir _ _ => walk_node fs (d ++ [x]) c ++ below r
               | _ => below r
               end
           end) es in
      (d, map fst (filter as_dir es),
          map fst (filter (fun e => negb (as_dir e)) es)) :: below
  | _ => []
  end.

Definition os_walk (fs : node) (top : path)
  : list (path * list name * list name) :=
  match stat fs top with
  | Some n => walk_node fs top n
  | None => []
  end.

(** ** [rsync -a src/ dst/]

    The external program, run by the owner of the trees: the tree below
    [src] is copied onto [dst]; a regular file is transferred, replacing
    what the destination has under that name, unless the destination
    has a regular file of the same size and modification time; links
    are copied as links; nothing is deleted from the destination, and a
    directory of the destination that is not empty is not replaced by a
    file or a link.  A directory of the destination takes the
    permissions of the directory it is copied from, and receives its
    entries whatever its own permissions were; it stays the mount point
    that it is. *)
Fixpoint rsync_node (s : node) (d : option node) : node :=
  match s with
  | File m c =>
      match d with
      | Some (File m' c') =>
          if (m =? m')%Z && (String.length c =? String.length c')%nat
          then File m' c' else File m c
      | Some (Dir a (e :: es)) => Dir a (e :: es)
      | _ => File m c
      end
  | Link t =>
      match d with
      | Some (Dir a (e :: es)) => Dir a (e :: es)
      | _ => Link t
      end
  | Dir a es =>
      let old := match d with Some (Dir _ des) => des | _ => [] end in
      let a' := {| writable := writable a;
                   busy := match d with Some (Dir b _) => busy b | _ => false end |} in
      let merged :=
        (fix merge (es : list (name * node)) (acc : list (name * node)) :=
           match es with
           | [] => acc
           | (x, c) :: r => merge r (set_entry x (rsync_node c (lookup x acc)) acc)
           end) es old in
      Dir a' merged
  end.

(** [subprocess.run(["rsync", "-a", src/, dst/], check=False)]: the
    exit status is not looked at, nothing is raised. *)
Definition rsync_a (src dst : path) : M unit :=
  fun fs =>
    match stat fs src, namei fs true dst with
    | Some (Dir a es), Ok q =>
        match find fs q with
        | Some (Dir b des) =>
            let v := rsync_node (Dir a es) (Some (Dir b des)) in
            (match q with [] => v | _ => put q v fs end, Ok tt)
        | _ => (fs, Ok tt)
        end
    | _, _ => (fs, Ok tt)
    end.

(** ** Comparing two states *)

(** Whatever is not at or below the entry keeps its kind; a directory
    keeps its attributes, a file and a link stay as they are. *)
Definition same_kind (o o' : option node) : Prop :=
  match o with
  | Some (Dir a _) => exists es', o' = Some (Dir a es')
  | _ => o' = o
  end.

(** induction on a tree, with the property for every entry of a directory *)
Fixpoint node_induction (P : node -> Prop)
         (Hfile : forall m c, P (File m c))
         (Hdir : forall a es, Forall (fun e => P (snd e)) es -> P (Dir a es))
         (Hlink : forall t, P (Link t))
         (n : node) : P n :=
  match n with
  | File m c => Hfile m c
  | Link t => Hlink t
  | Dir a es =>
      Hdir a es
        ((fix go (es : list (name * node)) : Forall (fun e => P (snd e)) es :=
            match es with
            | [] => Forall_nil _
            | e :: r => Forall_cons e (node_induction P Hfile Hdir Hlink (snd e)) (go r)
            end) es)
  end.

(** ** What can be deleted *)



(** the entry loop of [rm_node], by itself *)
Fixpoint rm_entries (ig w : bool) (es : list (name * node))
  : list (name * node) * option errno :=
  match es with
  | [] => ([], None)
  | (x, c) :: r =>
      let '(c', e1) := rm_node ig w c in
      let kept := match c' with Some v => [(x, v)] | None => [] end in
      match e1 with
      | Some e =>
          if ig then let '(r', _) := rm_entries ig w r in (kept ++ r', Some e)
          else (kept ++ r, Some e)
      | None =>
          let '(r', e2) := rm_entries ig w r in (kept ++ r', e2)
      end
  end.

(** ** Trees that only grow *)

(** the entries of the first directory are, in order and under the same
    names, the first entries of the second *)
Definition entries_ext (R : node -> node -> Prop)
  : list (name * node) -> list (name * node) -> Prop :=
  fix go (es es' : list (name * node)) : Prop :=
    match es, es' with
    | [], _ => True
    | (x, c) :: r, (x', c') :: r' => x = x' /\ R c c' /\ go r r'
    | _ :: _, [] => False
    end.

(** [extends n n']: [n'] is [n] with entries added to directories;
    no file, no link and no attribute of [n] has changed, and nothing
    of [n] is missing. *)
Fixpoint extends (n n' : node) : Prop :=
  match n, n' with
  | File m c, File m' c' => m = m' /\ c = c'
  | Link t, Link t' => t = t'
  | Dir a es, Dir a' es' => a = a' /\ entries_ext extends es es'
  | _, _ => False
  end.

(** ** The entry loop of [walk_node], by itself *)
Fixpoint walk_entries (fs : node) (d : path) (es : list (name * node))
  : list (path * list name * list name) :=
  match es with
  | [] => []
  | (x, c) :: r =>
      match c with
      | Dir _ _ => walk_node fs (d ++ [x]) c ++ walk_entries fs d r
      | _ => walk_entries fs d r
      end
  end.

(** the directories of a walk, in the order of the visit *)
Definition walked (triples : list (path * list name * list name)) : list path :=
  map (fun t => fst (fst t)) triples.

(** ** The size of a tree *)

(** the number of directory entries in the tree [n] *)
Fixpoint entry_count (n : node) : nat :=
  match n with
  | Dir _ es =>
      (fix go (es : list (name * node)) : nat :=
         match es with
         | [] => 0
         | (_, c) :: r => S (entry_count c + go r)
         end) es
  | _ => 0
  end.

(** the same number for a list of entries *)
Fixpoint entries_count (es : list (name * node)) : nat :=
  match es with
  | [] => 0
  | (_, c) :: r => S (entry_count c + entries_count r)
  end.

End FS.

(* ===================================================================== *)
(** * [sync/core/linker.py] *)
(* ===================================================================== *)

Module Linker.
Import FS.
Local Open Scope list_scope.

(** The components of a path string, as the kernel reads it: empty
    components and [.] are skipped.  The strings that reach the file
    system here are produced by the path mappers from the configured
    targets.  The component [..] is not interpreted: a target that has
    one is outside the model. *)
Definition parse (s : string) : path :=
  filter (fun c => negb (String.eqb c "" || String.eqb c "."))
         (PyStr.split_on PosixPath.sep_char s).

Fixpoint common_prefix_len (a b : path) : nat :=
  match a, b with
  | x :: a', y :: b' => if String.eqb x y then S (common_prefix_len a' b') else 0
  | _, _ => 0
  end.

(** [os.path.relpath(p, start)] on the components of the two absolute,
    normalised paths *)
Definition relpath (p start : path) : string :=
  let i := common_prefix_len start p in
  let rel_list := repeat ".." (List.length start - i) ++ skipn i p in
  match rel_list with
  | [] => "."
  | _ => PyStr.join "/" rel_list
  end.

(** [for x in l: acc = body(acc, x)] *)
Fixpoint fold_m {A B} (body : B -> A -> M B) (l : list A) (acc : B) : M B :=
  match l with
  | [] => ret acc
  | x :: r => acc' <- body acc x ;; fold_m body r acc'
  end.

Section WithEnvironment.

(** the clock, read when a file is created *)
Variable now : Z.
(** [_rsync_available()]: is there an [rsync] on the [PATH] *)
Variable rsync_available : bool.
(** [sync.core.blacklist.is_excluded], which is not among the
    sources at hand *)
Variable is_excluded : string -> list string -> bool.

(** [ensure_symlink(src, dst)].  [dst] is both the path that the link
    is to lead to and the text that is written into the link and
    compared with the text of the link that is there ([cur == dst]).
    It is given by its components: [migrate_and_link] passes a
    normalised absolute path, which is the text of its components, and
    the text of a link is the list of its components, so that the
    comparison of the two lists is the comparison of the two strings. *)
Definition ensure_symlink (src dst : path) : M unit :=
  let parent := dirname src in
  makedirs parent ;;;
  l <- islink src ;;
  finished <-
    (if l : bool then
       cur <- readlink src ;;
       if path_eqb cur dst then ret true
       else unlink src ;;; ret false
     else
       e <- exists_ src ;;
       if e : bool then
         (d <- isdir src ;;
          if d : bool then rmtree false src else unlink src) ;;;
         ret false
       else ret false) ;;
  if finished : bool then ret tt
  else try_except (symlink dst src) (fun e => raise e).

(** step 1 of [_link_dir_contents_in_place], for one entry of the live
    directory: the entry is removed, failures are swallowed *)
Definition clear_child (src_dir : path) (name : name) : M unit :=
  let s := src_dir ++ [name] in
  l <- islink s ;;
  f <- isfile s ;;
  if l || f then
    try_except (unlink s)
      (fun _ => try_except (unlink s) (fun _ => ret tt))
  else
    d' <- isdir s ;;
    if d' : bool then rmtree true s else ret tt.

(** step 2 of [_link_dir_contents_in_place], for one entry of the
    history directory: what is left under that name is removed and the
    link is made, failures are swallowed *)
Definition link_child (src_dir dst_dir : path) (name : name) : M unit :=
  let s := src_dir ++ [name] in
  let d := dst_dir ++ [name] in
  le <- lexists s ;;
  (if le : bool then
     l <- islink s ;;
     if l : bool then try_except (unlink s) (fun _ => ret tt)
     else
       d' <- isdir s ;;
       if d' : bool then rmtree true s
       else try_except (unlink s) (fun _ => ret tt)
   else ret tt) ;;;
  try_except (symlink d s) (fun _ => ret tt).

(** [_link_dir_contents_in_place(src_dir, dst_dir)] *)
Definition _link_dir_contents_in_place (src_dir dst_dir : path) : M unit :=
  makedirs dst_dir ;;;
  d <- isdir src_dir ;;
  (if d : bool then
     names <- listdir src_dir ;;
     for_each names (clear_child src_dir)
   else makedirs src_dir) ;;;
  dst_entries <-
    try_except (listdir dst_dir)
      (fun e => if errno_in e [ENOENT] then ret [] else raise e) ;;
  for_each dst_entries (link_child src_dir dst_dir).

(** The copy loop of [migrate_and_link] that is used when there is
    no [rsync]: a file is copied only when nothing exists under its
    name on the history side.  The triples are those of [os_walk],
    taken before the first copy. *)
Definition merge_copy (src dst : path) : M unit :=
  triples <- gets (fun fs => os_walk fs src) ;;
  for_each triples (fun '(root, dirs, files) =>
    let relp := skipn (List.length src) root in
    let dstd := dst ++ relp in
    makedirs dstd ;;;
    for_each files (fun fn =>
      let s := root ++ [fn] in
      let t := dstd ++ [fn] in
      e <- exists_ t ;;
      if e : bool then ret tt else copy2 s t)).

(** the end of the directory branch: the original is removed and
    replaced by a link, or by a directory of links *)
Definition replace_dir_by_link (src dst : path) : M unit :=
  rmtree true src ;;;
  try_except (ensure_symlink src dst)
    (fun e =>
       let parent := dirname src in
       parent_writable <- access_w parent ;;
       if errno_in e [EPERM; EACCES] || negb parent_writable
       then _link_dir_contents_in_place src dst
       else raise e).

(** the directory branch of [migrate_and_link] *)
Definition migrate_dir (src dst : path) : M unit :=
  makedirs dst ;;;
  (if rsync_available then rsync_a src dst else merge_copy src dst) ;;;
  replace_dir_by_link src dst.

(** the file branch of [migrate_and_link] *)
Definition migrate_file (src dst : path) : M unit :=
  e <- exists_ dst ;;
  (if e : bool then unlink src
   else makedirs (dirname dst) ;;; move_file src dst) ;;;
  ensure_symlink src dst.

(** the branch of [migrate_and_link] for a target that is missing *)
Definition create_missing (dirlike : bool) (src dst : path) : M unit :=
  (if dirlike then makedirs dst
   else
     makedirs (dirname dst) ;;;
     e <- exists_ dst ;;
     if e : bool then ret tt else open_append now dst) ;;;
  ensure_symlink src dst.

(** One round of the loop of [migrate_and_link], from the point
    where [src] and [dst] are known; [dirlike] is
    [rel.endswith("/")]. *)
Definition migrate_path (dirlike : bool) (src dst : path) : M unit :=
  makedirs (dirname dst) ;;;
  l <- islink src ;;
  if l : bool then ensure_symlink src dst
  else
    d <- isdir src ;;
    if d : bool then migrate_dir src dst
    else
      f <- isfile src ;;
      if f : bool then migrate_file src dst
      else create_missing dirlike src dst.

(** [migrate_and_link(base, hist_dir, rel_targets)] *)
Definition migrate_and_link (base hist_dir : string) (rel_targets : list string)
  : M unit :=
  for_each rel_targets (fun rel =>
    let rel_clean := PyStr.rstrip "/" rel in
    let src := parse (Config.to_abs_under_base base rel_clean) in
    let dst := parse (Config.to_under_hist hist_dir rel_clean) in
    migrate_path (PyStr.endswith rel "/") src dst).

(** [precreate_dirlike(hist_dir, rel_targets)] *)
Definition precreate_dirlike (hist_dir : string) (rel_targets : list string)
  : M unit :=
  for_each rel_targets (fun rel =>
    let rel_clean := PyStr.rstrip "/" rel in
    let dst := parse (Config.to_under_hist hist_dir rel_clean) in
    if PyStr.endswith rel "/" then makedirs dst
    else makedirs (dirname dst)).

(** What [track_empty_dirs] does with one directory [d] of the walk;
    [written] is the counter. *)
Definition track_dir (hist_dir : string) (excludes : list string)
           (written : nat) (d : path) : M nat :=
  let rel_under_hist :=
    PyStr.lstrip "./" (relpath d (parse (PosixPath.normpath hist_dir))) in
  if is_excluded rel_under_hist excludes then ret written
  else if PyStr.contains ("/" ++ rel_under_hist ++ "/")%string "/.git/"
  then ret written
  else
    names <- listdir d ;;
    match names with
    | [] =>
        let keep := d ++ [".gitkeep"] in
        e <- exists_ keep ;;
        if e : bool then ret written
        else open_append now keep ;;; ret (S written)
    | _ :: _ => ret written
    end.

(** [track_empty_dirs(hist_dir, rel_targets, excludes)] *)
Definition track_empty_dirs (hist_dir : string) (rel_targets excludes : list string)
  : M nat :=
  fold_m (fun written rel =>
            let rel_clean := PyStr.rstrip "/" rel in
            let root := parse (Config.to_under_hist hist_dir rel_clean) in
            b <- isdir root ;;
            if b : bool then
              triples <- gets (fun fs => os_walk fs root) ;;
              fold_m (fun written '(d, _, _) =>
                        track_dir hist_dir excludes written d)
                     triples written
            else ret written)
         rel_targets 0.

End WithEnvironment.

(** ** What empty-directory tracking may change *)

(** the entries of two directories correspond, name by name *)
Definition entries_rel (R : node -> node -> Prop)
  : list (name * node) -> list (name * node) -> Prop :=
  fix go (es es' : list (name * node)) : Prop :=
    match es, es' with
    | [], [] => True
    | (x, c) :: r, (x', c') :: r' => x = x' /\ R c c' /\ go r r'
    | _, _ => False
    end.

(** [grown now n n']: [n'] is [n] with an empty file [.gitkeep],
    stamped [now], added to some directories that were empty; nothing
    else differs. *)
Fixpoint grown (now : Z) (n n' : node) : Prop :=
  match n, n' with
  | File m c, File m' c' => m = m' /\ c = c'
  | Link t, Link t' => t = t'
  | Dir a es, Dir a' es' =>
      a = a'
      /\ ((es = [] /\ es' = [(".gitkeep", File now "")])
          \/ entries_rel (grown now) es es')
  | _, _ => False
  end.

(** ** What the fallback leaves in the live directory *)


(** ** The components that [parse] keeps *)

Definition kept (c : string) : bool :=
  negb (String.eqb c "" || String.eqb c ".").

(** ** What [precreate_dirlike] is to leave *)

(** the directory of the history that the target [rel] needs: the
    mirror of the target when its name ends with a separator, the
    parent of the mirror otherwise *)
Definition needed_dir (hist_dir rel : string) : path :=
  let dst := parse (Config.to_under_hist hist_dir (PyStr.rstrip "/" rel)) in
  if PyStr.endswith rel "/" then dst else dirname dst.

(** ** What a run of [track_empty_dirs] leaves *)

(** the two tests that make [track_empty_dirs] pass over the directory
    [d]: an exclude rule, or [.git] on the way *)
Definition passed_over (is_excluded : string -> list string -> bool)
           (hist_dir : string) (excludes : list string) (d : path) : bool :=
  let rel_under_hist :=
    PyStr.lstrip "./" (relpath d (parse (PosixPath.normpath hist_dir))) in
  is_excluded rel_under_hist excludes
  || PyStr.contains ("/" ++ rel_under_hist ++ "/")%string "/.git/".

(** the directories that [track_empty_dirs] visits for the target [rel] *)
Definition visited (fs : node) (hist_dir rel : string) : list path :=
  let root := parse (Config.to_under_hist hist_dir (PyStr.rstrip "/" rel)) in
  if is_dir (stat fs root) then walked (os_walk fs root) else [].

(** [d] names a directory that has an entry *)
Definition occupied (fs : node) (d : path) : Prop :=
  exists q a es,
    namei fs true d = Ok q /\ find fs q = Some (Dir a es) /\ es <> [].

(** ** What the directory branch leaves alone *)

(** the state in which the directory branch works: the parent of the
    live path is a directory, the live path names nothing or a
    directory, and the history path names a directory; none of the
    three is reached through a link *)
Definition live_shape (src dst : path) (fs : node) : Prop :=
  is_dir (find fs (dirname src)) = true
  /\ (find fs src = None \/ is_dir (find fs src) = true)
  /\ is_dir (find fs dst) = true.

(** every regular file of [fs] that is not at or below [src] is in
    [fs'] as it was *)
Definition spares (src : path) (fs fs' : node) : Prop :=
  forall p m c,
    find fs p = Some (File m c) -> is_prefix src p = false ->
    find fs' p = Some (File m c).

(** a computation that keeps the shape and spares the files outside
    the live path, whatever it answers *)
Definition sparing {A} (src dst : path) (m : M A) : Prop :=
  forall fs,
    live_shape src dst fs ->
    live_shape src dst (fst (m fs)) /\ spares src fs (fst (m fs)).

(** the live path itself, or an entry of the live directory *)
Definition at_live (src s : path) : Prop :=
  s = src \/ exists x, s = src ++ [x].

(** a computation that spares the files outside the live path, and
    keeps the shape when it raises *)
Definition ending {A} (src dst : path) (m : M A) : Prop :=
  forall fs,
    live_shape src dst fs ->
    spares src fs (fst (m fs))
    /\ forall e, snd (m fs) = Raise e -> live_shape src dst (fst (m fs)).

End Linker.

(* ===================================================================== *)
(** * [sync/daemon.py]: the two phases that work on the tree

    [link_and_track] and [pull_commit_push] call the migration engine
    and git one after the other.  The functions of [sync.core.git_ops]
    are not among the sources at hand: each is a parameter here, a
    function that may change the tree in any way and answers or
    raises.  Both an [OSError] of the engine and an exception of git
    are instances of Python's [Exception]. *)
(* ===================================================================== *)

Module Phases.
Local Open Scope list_scope.

Inductive failure :=
| OsFailure (e : FS.oserror)        (* raised by the migration engine *)
| GitFailure (e : Daemon.exc).   (* raised by [git_ops] *)

Inductive outcome (A : Type) :=
| Fine (a : A)
| Failed (f : failure).
Arguments Fine {A} a.
Arguments Failed {A} f.

(** what a phase did, in program order *)
Inductive step :=
| Precreated
| Migrated
| Tracked (written : nat)
| Pulled
| Committed (message : string) (changed : bool)
| Pushed
| LoggedPushError (e : failure).

(** a computation on the tree that logs its steps and may raise *)
Definition P (A : Type) : Type := FS.node -> FS.node * list step * outcome A.

Definition ret {A} (a : A) : P A := fun fs => (fs, [], Fine a).

Definition bind {A B} (m : P A) (k : A -> P B) : P B :=
  fun fs =>
    match m fs with
    | (fs1, tr, Fine a) =>
        let '(fs2, tr', r) := k a fs1 in (fs2, tr ++ tr', r)
    | (fs1, tr, Failed f) => (fs1, tr, Failed f)
    end.

(** [try: m  except Exception as e: h(e)] *)
Definition try_except {A} (m : P A) (h : failure -> P A) : P A :=
  fun fs =>
    match m fs with
    | (fs1, tr, Fine a) => (fs1, tr, Fine a)
    | (fs1, tr, Failed f) =>
        let '(fs2, tr', r) := h f fs1 in (fs2, tr ++ tr', r)
    end.

Notation "x <- m ;; k" := (bind m (fun x => k))
  (at level 61, m at next level, right associativity).
Notation "m ;;; k" := (bind m (fun _ => k))
  (at level 61, right associativity).

(** a call of the migration engine; [log] is the step it leaves when
    it returns *)
Definition engine {A} (m : FS.M A) (log : A -> list step) : P A :=
  fun fs =>
    match m fs with
    | (fs1, FS.Ok a) => (fs1, log a, Fine a)
    | (fs1, FS.Raise e) => (fs1, [], Failed (OsFailure e))
    end.

(** a call of [git_ops] *)
Definition git_call {A} (g : FS.node -> FS.node * Daemon.res A) (log : A -> list step)
  : P A :=
  fun fs =>
    match g fs with
    | (fs1, Daemon.Ok a) => (fs1, log a, Fine a)
    | (fs1, Daemon.Raise e) => (fs1, [], Failed (GitFailure e))
    end.

Definition emit (s : step) : P unit := fun fs => (fs, [s], Fine tt).

Section WithGit.

Variable now : Z.
Variable rsync_available : bool.
Variable is_excluded : string -> list string -> bool.

(** [git_ops.run(["git", "pull", "--rebase", "origin", branch], cwd, check=False)] *)
Variable git_pull_rebase : string -> string -> FS.node -> FS.node * Daemon.res unit.
(** [git_ops.add_all_and_commit_if_needed(hist_dir, message)] *)
Variable add_all_and_commit_if_needed :
  string -> string -> FS.node -> FS.node * Daemon.res bool.
(** [git_ops.push(hist_dir, branch)] *)
Variable git_push : string -> string -> FS.node -> FS.node * Daemon.res unit.
(** [git_ops.run(["git", "push", "origin", branch], cwd, check=False)] *)
Variable git_run_push : string -> string -> FS.node -> FS.node * Daemon.res unit.

(** [SyncDaemon.link_and_track] *)
Definition link_and_track (st : Config.Settings) : P unit :=
  engine (Linker.precreate_dirlike (Config.hist_dir st) (Config.targets st))
         (fun _ => [Precreated]) ;;;
  engine (Linker.migrate_and_link now rsync_available (Config.base st)
                           (Config.hist_dir st) (Config.targets st))
         (fun _ => [Migrated]) ;;;
  engine (Linker.track_empty_dirs now is_excluded (Config.hist_dir st)
                           (Config.targets st) (Config.excludes st))
         (fun n => [Tracked n]) ;;;
  changed <- git_call (add_all_and_commit_if_needed
                         (Config.hist_dir st)
                         "chore(sync): initial link & empty dirs")
                      (fun c => [Committed "chore(sync): initial link & empty dirs" c]) ;;
  if changed : bool then
    try_except
      (git_call (git_push (Config.hist_dir st) (Config.branch st))
                (fun _ => [Pushed]))
      (fun e => emit (LoggedPushError e))
  else ret tt.

(** [SyncDaemon.pull_commit_push] *)
Definition pull_commit_push (st : Config.Settings) : P unit :=
  git_call (git_pull_rebase (Config.hist_dir st) (Config.branch st))
           (fun _ => [Pulled]) ;;;
  engine (Linker.track_empty_dirs now is_excluded (Config.hist_dir st)
                           (Config.targets st) (Config.excludes st))
         (fun n => [Tracked n]) ;;;
  git_call (add_all_and_commit_if_needed (Config.hist_dir st)
                                         "chore(sync): periodic commit")
           (fun c => [Committed "chore(sync): periodic commit" c]) ;;;
  try_except
    (git_call (git_run_push (Config.hist_dir st) (Config.branch st))
              (fun _ => [Pushed]))
    (fun e => emit (LoggedPushError e)).

End WithGit.

(** ** Reading a run *)

Definition is_fine {A} (r : outcome A) : bool :=
  match r with Fine _ => true | Failed _ => false end.

Definition is_commit (s : step) : bool :=
  match s with Committed _ _ => true | _ => false end.

Definition is_push (s : step) : bool :=
  match s with Pushed => true | _ => false end.

End Phases.

(* ===================================================================== *)
(** * Concrete settings, worlds and trees used in the examples *)
(* ===================================================================== *)

Module Scenarios.
Import Daemon.

Definition settings : Config.Settings :=
  {| Config.base := "/";
     Config.hist_dir := "/h";
     Config.branch := "main";
     Config.github_pat := "token";
     Config.github_repo := "owner/repo";
     Config.targets := ["data/"];
     Config.excludes := [];
     Config.ready_file := "/h/.sync.ready" |}.

(** a round in which the fetch fails *)
Definition round_fetch_fails : attempt :=
  {| remote_is_empty := Ok false;
     initial_commit_if_needed := Ok tt;
     push := Ok tt;
     fetch_and_checkout := Raise (Exception "network unreachable");
     rev_parse_head := Ok "";
     rev_parse_origin := Ok "" |}.

(** a round after which the local head is behind the remote *)
Definition round_behind : attempt :=
  {| remote_is_empty := Ok false;
     initial_commit_if_needed := Ok tt;
     push := Ok tt;
     fetch_and_checkout := Ok tt;
     rev_parse_head := Ok "1111111
";
     rev_parse_origin := Ok "2222222
" |}.

(** a round after which both heads are the same commit *)
Definition round_aligned : attempt :=
  {| remote_is_empty := Ok false;
     initial_commit_if_needed := Ok tt;
     push := Ok tt;
     fetch_and_checkout := Ok tt;
     rev_parse_head := Ok "2222222
";
     rev_parse_origin := Ok "2222222
" |}.

(** the fetch fails, then the head is behind, then it is aligned; the
    stop flag is never set *)
Definition world_aligns_third : world :=
  {| ensure_repo := Ok tt;
     ensure_git_info_exclude := Ok tt;
     set_remote := Ok tt;
     stop_is_set := fun _ => false;
     attempts := fun k => match k with
                          | 0 => round_fetch_fails
                          | 1 => round_behind
                          | _ => round_aligned
                          end;
     link_and_track := Ok tt;
     pull_commit_push := fun _ => Ok tt |}.

(** the head stays behind the remote and the stop flag is set while the
    first round is under way *)
Definition world_cancelled : world :=
  {| ensure_repo := Ok tt;
     ensure_git_info_exclude := Ok tt;
     set_remote := Ok tt;
     stop_is_set := fun n => match n with 0 => false | _ => true end;
     attempts := fun _ => round_behind;
     link_and_track := Ok tt;
     pull_commit_push := fun _ => Ok tt |}.

(** ** Trees *)

Definition dir (es : list (FS.name * FS.node)) : FS.node := FS.Dir FS.plain es.

(** a directory to which nothing can be added and from which nothing
    can be removed *)
Definition locked (es : list (FS.name * FS.node)) : FS.node :=
  FS.Dir {| FS.writable := false; FS.busy := false |} es.


(** [/data] is already a link to [/h/data] *)
Definition fs_linked : FS.node :=
  dir [("data", FS.Link ["h"; "data"]);
       ("h", dir [("data", dir [("world", FS.File 5 "seed")])])].

(** [/data] is a link to a former history root *)
Definition fs_stale_link : FS.node :=
  dir [("data", FS.Link ["old"; "data"]);
       ("h", dir [("data", dir [])])].



(** a live file [/c.json] and no history file *)
Definition fs_file_live_only : FS.node :=
  dir [("c.json", FS.File 7 "live"); ("h", dir [])].

(** a live file [/c.json] and a history file of the same name *)
Definition fs_file_both : FS.node :=
  dir [("c.json", FS.File 7 "live"); ("h", dir [("c.json", FS.File 3 "history")])].

(** a live directory [/data] with the files [x] and [a], a history
    directory [/h/data] with an older [x] and with [b] *)
Definition fs_dir_conflict : FS.node :=
  dir [("data", dir [("x", FS.File 2 "new"); ("a", FS.File 2 "A")]);
       ("h", dir [("data", dir [("x", FS.File 1 "old contents");
                                ("b", FS.File 1 "B")])])].

(** a history root with its [.git] directory, in which [refs] is empty,
    and a target directory [data] that has an empty directory [w] and a
    nested repository *)
Definition fs_repo : FS.node :=
  dir [("h", dir [(".git", dir [("HEAD", FS.File 1 "ref: refs/heads/main");
                                ("refs", dir [])]);
                  ("data", dir [("w", dir []);
                                (".git", dir [("refs", dir [])])])])].


(** the parent [/] is locked, the live directory [/data] is not *)
Definition fs_locked_parent : FS.node :=
  locked [("data", dir [("a", FS.File 1 "A");
                        ("sub", dir [("f", FS.File 1 "F")])]);
          ("h", dir [("data", dir [("b", FS.File 1 "B")])])].



(** a live file and a history file, in a locked root *)
Definition fs_file_locked : FS.node :=
  locked [("c.json", FS.File 7 "live"); ("h", dir [("c.json", FS.File 3 "history")])].

(** [/data] is a link to [/h/data], left by an earlier run for the
    target [data/]; the file [c.json] exists once, in the history *)
Definition fs_file_in_linked_dir : FS.node :=
  dir [("data", FS.Link ["h"; "data"]);
       ("h", dir [("data", dir [("c.json", FS.File 1 "precious")])])].

(** an environment in which only [EXCLUDE_PATHS] is set *)
Definition only_excludes_set : Config.environ :=
  fun k => if String.eqb k "EXCLUDE_PATHS" then Some "plugins/cache tmp" else None.

(** settings without a token *)
Definition settings_without_pat : Config.Settings :=
  {| Config.base := "/";
     Config.hist_dir := "/h";
     Config.branch := "main";
     Config.github_pat := "";
     Config.github_repo := "owner/repo";
     Config.targets := ["data/"];
     Config.excludes := [];
     Config.ready_file := "/h/.sync.ready" |}.

(** the remote cannot be configured *)
Definition world_no_remote : world :=
  {| ensure_repo := Ok tt;
     ensure_git_info_exclude := Ok tt;
     set_remote := Raise (Exception "git remote add failed");
     stop_is_set := fun _ => false;
     attempts := fun _ => round_aligned;
     link_and_track := Ok tt;
     pull_commit_push := fun _ => Ok tt |}.

(** aligned at once, never stopped, the third periodic cycle fails *)
Definition world_third_cycle_fails : world :=
  {| ensure_repo := Ok tt;
     ensure_git_info_exclude := Ok tt;
     set_remote := Ok tt;
     stop_is_set := fun _ => false;
     attempts := fun _ => round_aligned;
     link_and_track := Ok tt;
     pull_commit_push := fun c => match c with
                                  | 2 => Raise (Exception "disk full")
                                  | _ => Ok tt
                                  end |}.

(** aligned at once; the stop flag goes up and stays up from the sixth
    reading on *)
Definition world_stopped_later : world :=
  {| ensure_repo := Ok tt;
     ensure_git_info_exclude := Ok tt;
     set_remote := Ok tt;
     stop_is_set := fun n => (5 <=? n)%nat;
     attempts := fun _ => round_aligned;
     link_and_track := Ok tt;
     pull_commit_push := fun _ => Ok tt |}.

(** the module as the default environment leaves it *)
Definition default_module : Config.config_module :=
  {| Config.DEFAULT_BASE := Config.PyStr "/";
     Config.DEFAULT_HIST_DIR := Config.PyStr "/home/user/.astrbot-backup";
     Config.DEFAULT_BRANCH := Config.PyStr "main";
     Config.DEFAULT_TARGETS := ["data/"];
     Config.DEFAULT_EXCLUDES := ["tmp"] |}.

(** the module when [BASE] is [/srv/app//] and [HIST_DIR] is [backup/../hist] *)
Definition custom_module : Config.config_module :=
  {| Config.DEFAULT_BASE := Config.PyStr "/srv/app//";
     Config.DEFAULT_HIST_DIR := Config.PyStr "backup/../hist";
     Config.DEFAULT_BRANCH := Config.PyStr "main";
     Config.DEFAULT_TARGETS := ["data/"];
     Config.DEFAULT_EXCLUDES := ["tmp"] |}.

(** an override file whose lists hold blanks only *)
Definition blank_overrides : Config.overrides :=
  {| Config.ov_targets := Some ["  "; ""];
     Config.ov_excludes := Some [" "] |}.

(** an override file with absolute names *)
Definition slashed_overrides : Config.overrides :=
  {| Config.ov_targets := Some ["/data/"; " "; "//etc/app.conf"];
     Config.ov_excludes := Some ["/data/cache/"; "logs"] |}.

(** an environment that sets the two lists *)
Definition lists_set : Config.environ :=
  fun k => if String.eqb k "SYNC_TARGETS" then Some "  data/   etc/app.conf
 "
           else if String.eqb k "EXCLUDE_PATHS" then Some "" else None.

(** an empty root *)
Definition fs_empty : FS.node := dir [].

(** the directories of the history for the targets [data/] and
    [etc/app.conf] *)
Definition fs_precreated : FS.node :=
  dir [("h", dir [("data", dir []); ("etc", dir [])])].

(** a live file, a live directory and a stale link, nothing in the
    history yet *)
Definition fs_live_mixed : FS.node :=
  dir [("etc", dir [("app.conf", FS.File 4 "port=1")]);
       ("cache", FS.Link ["var"; "cache"])].

(** the history has a directory for a target that the live side lacks *)
Definition fs_history_only : FS.node :=
  dir [("h", dir [("data", dir [("b", FS.File 1 "B")])])].

(** a live directory and a history directory that are both empty *)
Definition fs_two_empty : FS.node :=
  dir [("etc", dir []); ("h", dir [("etc", dir [])])].

(** ** git *)

(** a git whose calls leave the tree alone and all give the same
    answer *)
Definition git_quiet {A} (answer : Daemon.res A)
  : string -> string -> FS.node -> FS.node * Daemon.res A :=
  fun _ _ fs => (fs, answer).

Definition offline : Daemon.exc := Daemon.Exception "could not resolve host".

(** an empty directory of the history that cannot be written to *)
Definition fs_locked_empty : FS.node :=
  dir [("h", dir [("data", locked [])])].

(** a live directory [/a] with the file [sub/f], and an empty history
    root *)
Definition fs_fresh_live_subdir (m : Z) (c : string) : FS.node :=
  dir [("a", dir [("sub", dir [("f", FS.File m c)])]); ("h", dir [])].

(** a live directory [/data] with one file, and an empty history root *)
Definition fs_fresh_live_file (m : Z) (c : string) : FS.node :=
  dir [("data", dir [("c.json", FS.File m c)]); ("h", dir [])].

(** the same tree after the target [data/] has been migrated *)
Definition fs_fresh_live_file_linked (m : Z) (c : string) : FS.node :=
  dir [("h", dir [("data", dir [("c.json", FS.File m c)])]);
       ("data", FS.Link ["h"; "data"])].

(** and after the target [data/c.json] has been migrated too *)
Definition fs_fresh_live_file_lost : FS.node :=
  dir [("h", dir [("data", dir [("c.json", FS.Link ["h"; "data"; "c.json"])])]);
       ("data", FS.Link ["h"; "data"])].

End Scenarios.
(* ===================================================================== *)
(** * Properties of the configuration module and of the path mappers *)
(* ===================================================================== *)

Module ConfigProps.
Import PyStr PosixPath Config.

Lemma startswith_app (p s : string) : startswith (p ++ s) p = true.
Proof.
  induction p as [|a p IH]; simpl.
  - reflexivity.
  - rewrite Ascii.eqb_refl. exact IH.
Qed.

Lemma startswith_app_l (s t p : string) :
  startswith s p = true -> startswith (s ++ t) p = true.
Proof.
  revert s; induction p as [|b p IH]; intros s H; simpl in *.
  - reflexivity.
  - destruct s as [|a s]; [discriminate|]. simpl.
    apply andb_true_iff in H as [H1 H2].
    rewrite H1. simpl. apply IH. exact H2.
Qed.

Lemma truthy_startswith_sep (s : string) :
  startswith s sep = true -> truthy s = true.
Proof. destruct s; simpl; [discriminate | reflexivity]. Qed.

(** joining onto an absolute path gives an absolute path *)
Lemma join2_absolute (a b : string) :
  startswith a sep = true -> startswith (join2 a b) sep = true.
Proof.
  intros Ha. unfold join2.
  destruct (startswith b sep) eqn:Hb; [exact Hb|].
  destruct (negb (truthy a) || endswith a sep);
    apply startswith_app_l; exact Ha.
Qed.

Lemma initial_slashes_absolute (s : string) :
  startswith s sep = true ->
  exists k, initial_slashes_of s = S k.
Proof.
  intros H. unfold initial_slashes_of. rewrite H.
  destruct (startswith s "//" && negb (startswith s "///")); eauto.
Qed.

(** normalisation keeps a path absolute *)
Lemma normpath_absolute (s : string) :
  startswith s sep = true -> startswith (normpath s) sep = true.
Proof.
  intros H. unfold normpath.
  destruct (String.eqb s "") eqn:E.
  - apply String.eqb_eq in E. subst s. discriminate.
  - destruct (initial_slashes_absolute s H) as [k Hk]. rewrite Hk.
    reflexivity.
Qed.

Lemma mem_char_lstrip_head (chars s : string) :
  match lstrip chars s with
  | EmptyString => True
  | String a _ => mem_char a chars = false
  end.
Proof.
  induction s as [|a s IH]; simpl.
  - exact I.
  - destruct (mem_char a chars) eqn:E; [exact IH | exact E].
Qed.

Lemma lstrip_idempotent (chars s : string) :
  lstrip chars (lstrip chars s) = lstrip chars s.
Proof.
  pose proof (mem_char_lstrip_head chars s) as H.
  destruct (lstrip chars s) as [|a r]; simpl.
  - reflexivity.
  - rewrite H. reflexivity.
Qed.

Lemma split_on_not_nil (c : ascii) (s : string) : split_on c s <> [].
Proof.
  induction s as [|a s IH]; simpl.
  - discriminate.
  - destruct (Ascii.eqb a c); [discriminate|].
    destruct (split_on c s); discriminate.
Qed.

Lemma split_on_sep_free (s : string) :
  Forall (fun c => sep_free c = true) (split_on sep_char s).
Proof.
  induction s as [|a s IH]; simpl.
  - constructor; [reflexivity | constructor].
  - destruct (Ascii.eqb a sep_char) eqn:E.
    + constructor; [reflexivity | exact IH].
    + destruct (split_on sep_char s) as [|h t].
      * constructor; [simpl; rewrite E; reflexivity | constructor].
      * inversion IH; subst. constructor; [|assumption].
        simpl. rewrite E. simpl. assumption.
Qed.

Lemma split_on_component (x s : string) :
  sep_free x = true ->
  split_on sep_char (x ++ String sep_char s) = x :: split_on sep_char s.
Proof.
  induction x as [|a x IH]; intros H; simpl in *.
  - reflexivity.
  - apply andb_true_iff in H as [H1 H2].
    apply negb_true_iff in H1. rewrite H1.
    rewrite (IH H2). reflexivity.
Qed.

Lemma split_on_single (x : string) :
  sep_free x = true -> split_on sep_char x = [x].
Proof.
  induction x as [|a x IH]; intros H; simpl in *.
  - reflexivity.
  - apply andb_true_iff in H as [H1 H2].
    apply negb_true_iff in H1. rewrite H1.
    rewrite (IH H2). reflexivity.
Qed.

Lemma split_join (l : list string) :
  l <> [] ->
  Forall (fun c => sep_free c = true) l ->
  split_on sep_char (join sep l) = l.
Proof.
  induction l as [|x l IH]; intros Hne Hall.
  - contradiction.
  - inversion Hall as [|? ? Hx Hl]; subst.
    destruct l as [|y l].
    + simpl. apply split_on_single. exact Hx.
    + change (join sep (x :: y :: l)) with (x ++ String sep_char (join sep (y :: l))).
      rewrite (split_on_component _ _ Hx).
      rewrite IH; [reflexivity | discriminate | exact Hl].
Qed.

Lemma canon_removelast k l : canon k l -> canon k (removelast l).
Proof.
  intros H. destruct H; simpl.
  - constructor.
  - rewrite removelast_last. assumption.
  - rewrite removelast_last. assumption.
Qed.

Lemma all_up_last l : all_up l -> l <> [] -> last l "" = "..".
Proof.
  intros H Hne. destruct (exists_last Hne) as [l' [c ->]].
  rewrite last_last. apply Forall_app in H as [_ H].
  inversion H; subst. reflexivity.
Qed.

Lemma canon_last_up k l :
  canon k l -> l <> [] -> last l "" = ".." -> k = 0 /\ all_up l.
Proof.
  intros H Hne Hl. destruct H.
  - contradiction.
  - rewrite last_last in Hl. contradiction.
  - split; [assumption|]. apply Forall_app. split; [assumption|].
    constructor; [reflexivity | constructor].
Qed.

Lemma norm_step_canon k acc c :
  canon k acc -> sep_free c = true -> canon k (norm_step k acc c).
Proof.
  intros Hacc Hc. unfold norm_step.
  destruct (String.eqb c "") eqn:E1; [exact Hacc|].
  destruct (String.eqb c ".") eqn:E2; [exact Hacc|]. cbn [orb].
  assert (Hp : plain_comp c = true).
  { unfold plain_comp. rewrite E1, E2, Hc. reflexivity. }
  destruct (String.eqb c "..") eqn:E3; cbn [negb orb].
  - apply String.eqb_eq in E3. subst c.
    destruct acc as [|a acc'].
    + destruct (Nat.eqb k 0) eqn:Ek; cbn [andb orb].
      * apply Nat.eqb_eq in Ek. apply (canon_up k [] (canon_nil k) Ek).
        constructor.
      * constructor.
    + rewrite andb_false_r. cbn [orb].
      destruct (String.eqb (last (a :: acc') "") "..") eqn:El.
      * apply String.eqb_eq in El.
        destruct (canon_last_up k (a :: acc') Hacc) as [Hk Hup];
          [discriminate | exact El |].
        apply canon_up; assumption.
      * apply canon_removelast. exact Hacc.
  - apply canon_plain; [exact Hacc | exact Hp |].
    intros ->. discriminate.
Qed.

Lemma fold_norm_step_canon k comps acc :
  canon k acc ->
  Forall (fun c => sep_free c = true) comps ->
  canon k (fold_left (norm_step k) comps acc).
Proof.
  revert acc. induction comps as [|c comps IH]; intros acc Hacc Hall; simpl.
  - exact Hacc.
  - inversion Hall; subst. apply IH; [|assumption].
    apply norm_step_canon; assumption.
Qed.

Lemma plain_comp_inv c :
  plain_comp c = true ->
  String.eqb c "" = false /\ String.eqb c "." = false /\ sep_free c = true.
Proof.
  unfold plain_comp. intros H.
  apply andb_true_iff in H as [H H3].
  apply andb_true_iff in H as [H1 H2].
  apply negb_true_iff in H1, H2. auto.
Qed.

(** a canonical list is a fixed point of the component loop *)
Lemma fold_norm_step_fixed k l :
  canon k l -> fold_left (norm_step k) l [] = l.
Proof.
  induction 1 as [|l c Hl IH Hp Hne|l Hl IH Hk Hup].
  - reflexivity.
  - rewrite fold_left_app, IH. simpl. unfold norm_step.
    destruct (plain_comp_inv c Hp) as [E1 [E2 _]]. rewrite E1, E2. cbn [orb].
    destruct (String.eqb c "..") eqn:E3.
    + apply String.eqb_eq in E3. contradiction.
    + reflexivity.
  - rewrite fold_left_app, IH. simpl. unfold norm_step. subst k.
    cbn [String.eqb Ascii.eqb negb orb andb Nat.eqb].
    destruct l as [|a l'].
    + reflexivity.
    + rewrite (proj2 (String.eqb_eq _ _) (all_up_last _ Hup ltac:(discriminate))).
      reflexivity.
Qed.

Lemma canon_plain_all k l :
  canon k l -> Forall (fun c => plain_comp c = true) l.
Proof.
  induction 1.
  - constructor.
  - apply Forall_app. split; [assumption|]. constructor; [assumption|constructor].
  - apply Forall_app. split; [assumption|]. constructor; [reflexivity|constructor].
Qed.


Lemma plain_comp_head c :
  plain_comp c = true ->
  exists a r, c = String a r /\ Ascii.eqb a sep_char = false.
Proof.
  intros H. destruct (plain_comp_inv c H) as [E1 [_ E3]].
  destruct c as [|a r]; [discriminate|].
  exists a, r. split; [reflexivity|].
  simpl in E3. apply andb_true_iff in E3 as [E3 _].
  apply negb_true_iff in E3. exact E3.
Qed.

Lemma join_cons_head c l :
  exists t, join sep (c :: l) = c ++ t.
Proof.
  destruct l as [|y l].
  - exists "". simpl. induction c; simpl; congruence.
  - exists (sep ++ join sep (y :: l)). reflexivity.
Qed.

Lemma fold_norm_step_skip_empty k n l acc :
  fold_left (norm_step k) (repeat "" n ++ l)%list acc = fold_left (norm_step k) l acc.
Proof.
  induction n as [|n IH]; simpl.
  - reflexivity.
  - exact IH.
Qed.

(** the string that [normpath] builds from a canonical list is left
    unchanged by [normpath] *)
Lemma normpath_of_canon k nc :
  k <= 2 -> canon k nc ->
  truthy (repeat_string sep k ++ join sep nc) = true ->
  normpath (repeat_string sep k ++ join sep nc) = repeat_string sep k ++ join sep nc.
Proof.
  intros Hk Hc Ht.
  pose proof (canon_plain_all k nc Hc) as Hall.
  assert (Hsf : Forall (fun c => sep_free c = true) nc).
  { eapply Forall_impl; [|exact Hall]. intros c Hp.
    apply (plain_comp_inv c Hp). }
  assert (Hsplit : split_on sep_char (repeat_string sep k ++ join sep nc)
                   = (repeat "" k ++ match nc with [] => [""] | _ => nc end)%list).
  { destruct nc as [|c nc'].
    - destruct k as [|[|[|k]]]; try reflexivity. lia.
    - rewrite <- (split_join (c :: nc')) at 2; [|discriminate|exact Hsf].
      destruct k as [|[|[|k]]]; try reflexivity. lia. }
  assert (Hinit : initial_slashes_of (repeat_string sep k ++ join sep nc) = k).
  { destruct nc as [|c nc'].
    - destruct k as [|[|[|k]]]; try reflexivity. lia.
    - inversion Hall as [|? ? Hp _]; subst.
      destruct (plain_comp_head c Hp) as [a [r [-> Ha]]].
      destruct (join_cons_head (String a r) nc') as [t ->].
      destruct k as [|[|[|k]]]; try lia;
        unfold initial_slashes_of; unfold sep_char in Ha; simpl; rewrite ?Ha; reflexivity. }
  unfold normpath.
  destruct (String.eqb (repeat_string sep k ++ join sep nc) "") eqn:E.
  - apply String.eqb_eq in E. rewrite E in Ht. discriminate.
  - cbv zeta. rewrite Hinit, Hsplit, fold_norm_step_skip_empty.
    assert (Hfold : fold_left (norm_step k) match nc with [] => [""] | _ => nc end []
                    = nc).
    { destruct nc as [|c nc']; [reflexivity|].
      apply fold_norm_step_fixed. exact Hc. }
    rewrite Hfold, Ht. reflexivity.
Qed.

Lemma initial_slashes_le (p : string) : initial_slashes_of p <= 2.
Proof.
  unfold initial_slashes_of.
  destruct (startswith p sep); [|lia].
  destruct (startswith p "//" && negb (startswith p "///")); lia.
Qed.

(** [normpath] is idempotent *)
Lemma normpath_idempotent (p : string) :
  normpath (normpath p) = normpath p.
Proof.
  unfold normpath at 2 3.
  destruct (String.eqb p "") eqn:E; [reflexivity|]. cbv zeta.
  set (k := initial_slashes_of p).
  set (nc := fold_left (norm_step k) (split_on sep_char p) []).
  assert (Hc : canon k nc).
  { apply fold_norm_step_canon; [constructor | apply split_on_sep_free]. }
  destruct (truthy (repeat_string sep k ++ join sep nc)) eqn:Ht.
  - apply normpath_of_canon; [apply initial_slashes_le | exact Hc | exact Ht].
  - reflexivity.
Qed.

Lemma import_config_without_excludes (env : environ) :
  env "EXCLUDE_PATHS" = None ->
  import_config env =
    Raise (AttributeError "'NoneType' object has no attribute 'strip'").
Proof.
  intros H. unfold import_config, environ_get.
  rewrite H.
  destruct (env "SYNC_TARGETS"); reflexivity.
Qed.

Lemma import_config_with_excludes (env : environ) (v : string) :
  env "EXCLUDE_PATHS" = Some v ->
  import_config env =
    Ok {| DEFAULT_BASE := environ_get env "BASE" (PyStr "/");
          DEFAULT_HIST_DIR :=
            environ_get env "HIST_DIR" (PyStr "/home/user/.astrbot-backup");
          DEFAULT_BRANCH := environ_get env "GIT_BRANCH" (PyStr "main");
          DEFAULT_TARGETS :=
            split_ws (strip (match env "SYNC_TARGETS" with
                             | Some t => t
                             | None => "data/"
                             end));
          DEFAULT_EXCLUDES := split_ws (strip v) |}.
Proof.
  intros H. unfold import_config, environ_get.
  rewrite H.
  destruct (env "SYNC_TARGETS"); reflexivity.
Qed.

Lemma environ_get_str (env : environ) (key d : string) :
  exists s, environ_get env key (PyStr d) = PyStr s
            /\ (env key = None -> s = d).
Proof.
  unfold environ_get. destruct (env key) as [v|].
  - exists v. split; [reflexivity | discriminate].
  - exists d. split; [reflexivity | reflexivity].
Qed.

(** C9. Without [EXCLUDE_PATHS] in the environment the module body
    raises [AttributeError] (the value of [os.environ.get] is [None]
    and [.strip()] is called on it), so neither the import nor a call
    of [load_settings] can succeed; with [EXCLUDE_PATHS] present the
    import and [load_settings] succeed whatever else is or is not
    set, and every variable that is absent takes its default. *)
Theorem exclude_paths_is_required :
  (forall env : environ,
      env "EXCLUDE_PATHS" = None ->
      exists msg,
        import_config env = Raise (AttributeError msg)
        /\ forall cwd ov, import_and_load env cwd ov = Raise (AttributeError msg))
  /\ (forall (env : environ) (v : string),
         env "EXCLUDE_PATHS" = Some v ->
         exists m,
           import_config env = Ok m
           /\ forall cwd ov, exists st, load_settings m env cwd ov = Ok st)
  /\ (forall (env : environ) (v : string),
         env "EXCLUDE_PATHS" = Some v ->
         (forall k, k <> "EXCLUDE_PATHS" -> env k = None) ->
         forall cwd,
           import_and_load env cwd no_overrides =
             Ok {| base := "/";
                   hist_dir := "/home/user/.astrbot-backup";
                   branch := "main";
                   github_pat := "";
                   github_repo := "";
                   targets := ["data/"];
                   excludes := split_ws (strip v);
                   ready_file := "/home/user/.astrbot-backup/.sync.ready" |}).
Proof.
  split; [|split].
  - intros env H. eexists. split.
    + apply import_config_without_excludes. exact H.
    + intros cwd ov. unfold import_and_load.
      rewrite (import_config_without_excludes env H). reflexivity.
  - intros env v H. eexists. split.
    + apply (import_config_with_excludes env v H).
    + intros cwd ov. unfold load_settings. cbn [DEFAULT_BASE DEFAULT_HIST_DIR
        DEFAULT_BRANCH DEFAULT_TARGETS DEFAULT_EXCLUDES].
      destruct (environ_get_str env "BASE" "/") as [b [-> _]].
      destruct (environ_get_str env "HIST_DIR" "/home/user/.astrbot-backup")
        as [h [-> _]].
      destruct (environ_get_str env "GIT_BRANCH" "main") as [br [-> _]].
      destruct (environ_get_str env "GITHUB_PAT" "") as [pat [-> _]].
      destruct (environ_get_str env "GITHUB_REPO" "") as [repo [-> _]].
      cbn [py_rstrip py_str bind].
      destruct (environ_get_str env "SYNC_READY_FILE"
                  (join2 (abspath cwd h) ".sync.ready")) as [rf [-> _]].
      cbn [py_str bind]. eexists. reflexivity.
  - intros env v H Hnone cwd. unfold import_and_load.
    rewrite (import_config_with_excludes env v H).
    unfold load_settings, environ_get, bind.
    cbn [DEFAULT_BASE DEFAULT_HIST_DIR DEFAULT_BRANCH DEFAULT_TARGETS
           DEFAULT_EXCLUDES].
    rewrite (Hnone "BASE"), (Hnone "HIST_DIR"), (Hnone "GIT_BRANCH"),
      (Hnone "SYNC_TARGETS"), (Hnone "GITHUB_PAT"), (Hnone "GITHUB_REPO"),
      (Hnone "SYNC_READY_FILE") by discriminate.
    reflexivity.
Qed.

Lemma exclude_paths_is_required_witness :
  (exists msg,
      import_config (fun _ => None) = Raise (AttributeError msg)
      /\ forall cwd ov, import_and_load (fun _ => None) cwd ov = Raise (AttributeError msg))
  /\ import_and_load Scenarios.only_excludes_set "/app" no_overrides =
       Ok {| base := "/";
             hist_dir := "/home/user/.astrbot-backup";
             branch := "main";
             github_pat := "";
             github_repo := "";
             targets := ["data/"];
             excludes := ["plugins/cache"; "tmp"];
             ready_file := "/home/user/.astrbot-backup/.sync.ready" |}.
Proof.
  split.
  - apply (proj1 exclude_paths_is_required (fun _ => None)). reflexivity.
  - apply (proj2 (proj2 exclude_paths_is_required) Scenarios.only_excludes_set
                 "plugins/cache tmp").
    + reflexivity.
    + intros k Hk. unfold Scenarios.only_excludes_set.
      destruct (String.eqb k "EXCLUDE_PATHS") eqn:E.
      * apply String.eqb_eq in E. contradiction.
      * reflexivity.
Defined.

Lemma to_abs_under_base_absolute (base rel : string) :
  startswith base sep = true ->
  startswith (to_abs_under_base base rel) sep = true.
Proof.
  intros Hb. unfold to_abs_under_base.
  destruct (startswith rel "/") eqn:Hr; [exact Hr|].
  destruct (String.eqb base "/").
  - reflexivity.
  - apply normpath_absolute. apply join2_absolute. exact Hb.
Qed.

(** C7, as the code has it. [to_abs_under_base] is idempotent for every
    absolute base; [to_under_hist] strips the leading separators of
    [rel] and answers the normalised join with the history root, so it
    does not see leading separators and its answer is a fixed point of
    the normalisation; both are functions of their arguments alone. *)
Theorem path_mappers_amended :
  (forall base rel : string,
      startswith base "/" = true ->
      to_abs_under_base base (to_abs_under_base base rel)
      = to_abs_under_base base rel)
  /\ (forall hist rel : string,
         to_under_hist hist rel = normpath (join2 hist (lstrip "/" rel)))
  /\ (forall hist rel : string,
         to_under_hist hist (lstrip "/" rel) = to_under_hist hist rel
         /\ to_under_hist hist ("/" ++ rel) = to_under_hist hist rel)
  /\ (forall hist rel : string,
         normpath (to_under_hist hist rel) = to_under_hist hist rel).
Proof.
  split; [|split; [|split]].
  - intros base rel Hb.
    pose proof (to_abs_under_base_absolute base rel Hb) as Habs.
    unfold to_abs_under_base at 1. unfold sep in Habs. rewrite Habs. reflexivity.
  - intros hist rel. reflexivity.
  - intros hist rel. unfold to_under_hist. split.
    + rewrite lstrip_idempotent. reflexivity.
    + reflexivity.
  - intros hist rel. unfold to_under_hist. apply normpath_idempotent.
Qed.

Lemma path_mappers_amended_witness :
  to_abs_under_base "/srv" (to_abs_under_base "/srv" "data/world")
  = to_abs_under_base "/srv" "data/world"
  /\ to_abs_under_base "/srv" "data/world" = "/srv/data/world".
Proof.
  split.
  - apply (proj1 path_mappers_amended "/srv" "data/world"). reflexivity.
  - reflexivity.
Defined.

(** C7 as stated fails: applying [to_under_hist] to its own answer nests
    the history root once more, and with a relative base
    [to_abs_under_base] does the same. *)
Lemma path_mappers_not_idempotent :
  to_under_hist "/h" (to_under_hist "/h" "x") <> to_under_hist "/h" "x"
  /\ to_under_hist "/h" "x" = "/h/x"
  /\ to_under_hist "/h" (to_under_hist "/h" "x") = "/h/h/x"
  /\ to_abs_under_base "a" (to_abs_under_base "a" "b") <> to_abs_under_base "a" "b".
Proof.
  repeat split; try reflexivity; vm_compute; discriminate.
Qed.

(** ** The lists read from the environment *)

Lemma all_chars_app (f : ascii -> bool) (s t : string) :
  all_chars f (s ++ t) = all_chars f s && all_chars f t.
Proof.
  induction s as [|a s IH]; simpl.
  - reflexivity.
  - rewrite IH, andb_assoc. reflexivity.
Qed.

Lemma split_ws_aux_words (s : string) : forall cur,
  match cur with Some w => is_word w = true | None => True end ->
  Forall (fun w => is_word w = true) (split_ws_aux s cur).
Proof.
  induction s as [|a s IH]; intros cur Hc; simpl.
  - destruct cur; [constructor; [exact Hc | constructor] | constructor].
  - destruct (is_space a) eqn:E.
    + destruct cur.
      * constructor; [exact Hc | apply IH; exact I].
      * apply IH. exact I.
    + destruct cur as [w|]; apply IH.
      * unfold is_word in *. apply andb_true_iff in Hc as [H1 H2].
        apply andb_true_iff. split.
        -- destruct w; reflexivity.
        -- rewrite all_chars_app, H2. simpl. rewrite E. reflexivity.
      * unfold is_word. simpl. rewrite E. reflexivity.
Qed.

Lemma split_ws_words (s : string) :
  Forall (fun w => is_word w = true) (split_ws s).
Proof. apply split_ws_aux_words. exact I. Qed.

(** X12. The target list and the exclude list that the module body reads
    from [SYNC_TARGETS] and [EXCLUDE_PATHS] hold words only: no entry
    is empty and none has a blank in it, whatever the variables hold. *)
Theorem env_lists_hold_words (env : environ) (m : config_module) :
  import_config env = Ok m ->
  Forall (fun w => is_word w = true) (DEFAULT_TARGETS m)
  /\ Forall (fun w => is_word w = true) (DEFAULT_EXCLUDES m).
Proof.
  unfold import_config. intros H.
  destruct (py_strip (environ_get env "SYNC_TARGETS" (PyStr (join " " ["data/"]))))
    as [t|e]; [|discriminate].
  destruct (py_strip (environ_get env "EXCLUDE_PATHS" PyNone)) as [x|e];
    [|discriminate].
  cbn [bind] in H. inversion H; subst m. cbn [DEFAULT_TARGETS DEFAULT_EXCLUDES].
  split; apply split_ws_words.
Qed.

Lemma env_lists_hold_words_witness :
  exists m,
    import_config Scenarios.lists_set = Ok m
    /\ DEFAULT_TARGETS m = ["data/"; "etc/app.conf"]
    /\ DEFAULT_EXCLUDES m = []
    /\ Forall (fun w => is_word w = true) (DEFAULT_TARGETS m).
Proof.
  eexists. split; [reflexivity|]. split; [reflexivity|]. split; [reflexivity|].
  apply (proj1 (env_lists_hold_words Scenarios.lists_set _ eq_refl)).
Defined.

(** ** What [load_settings] makes of its inputs *)

Lemma append_empty_r (s : string) : s ++ "" = s.
Proof. induction s as [|a s IH]; simpl; [reflexivity | rewrite IH; reflexivity]. Qed.

Lemma append_assoc (s t u : string) : (s ++ t) ++ u = s ++ t ++ u.
Proof. induction s as [|a s IH]; simpl; [reflexivity | rewrite IH; reflexivity]. Qed.

Lemma rev_string_app (s t : string) :
  rev_string (s ++ t) = rev_string t ++ rev_string s.
Proof.
  induction s as [|a s IH]; simpl.
  - rewrite append_empty_r. reflexivity.
  - rewrite IH, append_assoc. reflexivity.
Qed.

Lemma rev_string_involutive (s : string) : rev_string (rev_string s) = s.
Proof.
  induction s as [|a s IH]; simpl.
  - reflexivity.
  - rewrite rev_string_app, IH. reflexivity.
Qed.

(** what [rstrip] leaves does not end with a character of the set *)
Lemma rstrip_no_trailing (c : ascii) (s : string) :
  endswith (rstrip (String c "") s) (String c "") = false.
Proof.
  unfold endswith, rstrip. rewrite rev_string_involutive. simpl.
  pose proof (mem_char_lstrip_head (String c "") (rev_string s)) as H.
  destruct (lstrip (String c "") (rev_string s)) as [|a r]; [reflexivity|].
  simpl in H. apply orb_false_iff in H as [H _]. rewrite H. reflexivity.
Qed.

(** what [lstrip] leaves does not begin with a character of the set *)
Lemma lstrip_no_leading (c : ascii) (s : string) :
  startswith (lstrip (String c "") s) (String c "") = false.
Proof.
  pose proof (mem_char_lstrip_head (String c "") s) as H.
  destruct (lstrip (String c "") s) as [|a r]; [reflexivity|].
  simpl in H. apply orb_false_iff in H as [H _]. simpl. rewrite H. reflexivity.
Qed.

Lemma environ_get_some (env : environ) (key d : string) :
  environ_get env key (PyStr d)
  = PyStr (match env key with Some v => v | None => d end).
Proof. unfold environ_get. destruct (env key); reflexivity. Qed.

(** the fields of the settings that come from the environment alone *)
Lemma load_settings_inv (m : config_module) (env : environ) (cwd : string)
      (ov : overrides) (st : Settings) :
  load_settings m env cwd ov = Ok st ->
  exists b h,
    DEFAULT_BASE m = PyStr b /\ DEFAULT_HIST_DIR m = PyStr h
    /\ DEFAULT_BRANCH m = PyStr (branch st)
    /\ base st = (if truthy (rstrip "/" b) then rstrip "/" b else "/")
    /\ hist_dir st = abspath cwd h
    /\ ready_file st
       = match env "SYNC_READY_FILE" with
         | Some v => v
         | None => join2 (abspath cwd h) ".sync.ready"
         end.
Proof.
  unfold load_settings. intros H.
  destruct (DEFAULT_BASE m) as [|b]; [discriminate|].
  destruct (DEFAULT_HIST_DIR m) as [|h]; [discriminate|].
  destruct (DEFAULT_BRANCH m) as [|br]; [discriminate|].
  rewrite !environ_get_some in H. cbn [py_rstrip py_str bind] in H.
  rewrite environ_get_some in H. cbn [py_str bind] in H.
  injection H as <-. cbn [base hist_dir branch ready_file].
  exists b, h. repeat split; reflexivity.
Qed.

(** X13. The base directory of the settings is the root [/] or a name that
    is not empty and does not end with a separator, whatever [BASE]
    holds. *)
Theorem settings_base_has_no_trailing_separator
        (m : config_module) (env : environ) (cwd : string) (ov : overrides)
        (st : Settings) :
  load_settings m env cwd ov = Ok st ->
  base st = "/" \/ (truthy (base st) = true /\ endswith (base st) "/" = false).
Proof.
  intros H. destruct (load_settings_inv m env cwd ov st H)
    as [b [h [_ [_ [_ [Hb _]]]]]].
  rewrite Hb. destruct (truthy (rstrip "/" b)) eqn:E.
  - right. split; [exact E | apply rstrip_no_trailing].
  - left. reflexivity.
Qed.

Lemma settings_base_has_no_trailing_separator_witness :
  exists st,
    load_settings Scenarios.custom_module (fun _ => None) "/work" no_overrides = Ok st
    /\ base st = "/srv/app"
    /\ (base st = "/" \/ (truthy (base st) = true /\ endswith (base st) "/" = false)).
Proof.
  eexists. split; [reflexivity|]. split; [reflexivity|].
  apply (settings_base_has_no_trailing_separator Scenarios.custom_module
           (fun _ => None) "/work" no_overrides _ eq_refl).
Defined.

(** X14. The history directory of the settings is made absolute against the
    current directory and normalised once, when the settings are
    loaded: it begins with a separator and normalising it again changes
    nothing.  Without [SYNC_READY_FILE] the ready file is
    [.sync.ready] in that directory. *)
Theorem settings_hist_dir_is_absolute
        (m : config_module) (env : environ) (cwd : string) (ov : overrides)
        (st : Settings) :
  startswith cwd "/" = true ->
  load_settings m env cwd ov = Ok st ->
  startswith (hist_dir st) "/" = true
  /\ normpath (hist_dir st) = hist_dir st
  /\ (env "SYNC_READY_FILE" = None ->
      ready_file st = join2 (hist_dir st) ".sync.ready").
Proof.
  intros Hc H. destruct (load_settings_inv m env cwd ov st H)
    as [b [h [_ [_ [_ [_ [Hh Hr]]]]]]].
  rewrite Hh. split; [|split].
  - unfold abspath. destruct (startswith h sep) eqn:E.
    + apply normpath_absolute. exact E.
    + apply normpath_absolute. apply join2_absolute. exact Hc.
  - unfold abspath. destruct (startswith h sep); apply normpath_idempotent.
  - intros E. rewrite Hr, E. reflexivity.
Qed.

Lemma settings_hist_dir_is_absolute_witness :
  exists st,
    load_settings Scenarios.custom_module (fun _ => None) "/work" no_overrides = Ok st
    /\ hist_dir st = "/work/hist"
    /\ ready_file st = "/work/hist/.sync.ready"
    /\ startswith (hist_dir st) "/" = true.
Proof.
  eexists. split; [reflexivity|]. split; [reflexivity|]. split; [reflexivity|].
  apply (settings_hist_dir_is_absolute Scenarios.custom_module
           (fun _ => None) "/work" no_overrides _ eq_refl eq_refl).
Defined.

(** removing separators at the end does not bring one to the front *)
Lemma rstrip_lstrip_no_leading (z : string) :
  startswith (rstrip "/" (lstrip "/" z)) "/" = false.
Proof.
  pose proof (lstrip_no_leading "/"%char z) as Hz.
  unfold rstrip.
  destruct (lstrip "/" z) as [|a s] eqn:Ez; [reflexivity|].
  simpl in Hz.
  destruct (Ascii.eqb a "/") eqn:Ea; [discriminate|].
  simpl rev_string.
  assert (Hk : forall t, exists u, lstrip "/" (t ++ String a "") = u ++ String a "").
  { induction t as [|c t IHt]; simpl.
    - rewrite Ea. simpl. exists "". reflexivity.
    - destruct (Ascii.eqb c "/"); simpl.
      + exact IHt.
      + exists (String c t). reflexivity. }
  destruct (Hk (rev_string s)) as [u E]. rewrite E.
  rewrite rev_string_app. simpl. rewrite Ea. reflexivity.
Qed.

Lemma filter_all_false {A} (f : A -> bool) (l : list A) :
  Forall (fun x => f x = false) l -> filter f l = [].
Proof.
  induction 1 as [|x l Hx _ IH]; simpl; [reflexivity|].
  rewrite Hx. exact IH.
Qed.

(** X15. The lists of the override file.  A target list that is not empty
    replaces the targets of the environment, its blank entries dropped
    and the leading separators of the others removed, so that no target
    is an absolute name; when all its entries are blank no target is
    left at all.  An exclude list replaces the excludes of the
    environment only when an entry is left after the blank ones are
    dropped; its entries lose the separators at both ends. *)
Theorem override_lists (ov : overrides) (targets excludes : list string) :
  (ov_targets ov = None \/ ov_targets ov = Some [] ->
   targets_after_overrides ov targets = targets)
  /\ (forall l, ov_targets ov = Some l -> l <> [] ->
                let ts := targets_after_overrides ov targets in
                ts = map (lstrip "/") (filter (fun x => truthy (strip x)) l)
                /\ Forall (fun t => startswith t "/" = false) ts
                /\ (Forall (fun x => truthy (strip x) = false) l -> ts = []))
  /\ (ov_excludes ov = None -> excludes_after_overrides ov excludes = excludes)
  /\ (forall l, ov_excludes ov = Some l ->
                Forall (fun x => truthy (strip x) = false) l ->
                excludes_after_overrides ov excludes = excludes)
  /\ (forall l, ov_excludes ov = Some l ->
                Exists (fun x => truthy (strip x) = true) l ->
                let ex := excludes_after_overrides ov excludes in
                ex = map (fun x => rstrip "/" (lstrip "/" x))
                         (filter (fun x => truthy (strip x)) l)
                /\ Forall (fun x => startswith x "/" = false
                                    /\ endswith x "/" = false) ex).
Proof.
  unfold targets_after_overrides, excludes_after_overrides.
  split; [|split; [|split; [|split]]].
  - intros [-> | ->]; reflexivity.
  - intros l Hl Hne. rewrite Hl. cbv zeta.
    destruct l as [|x l]; [contradiction|]. split; [reflexivity|]. split.
    + apply Forall_map. apply Forall_forall. intros y _.
      apply (lstrip_no_leading "/"%char).
    + intros Hall. rewrite (filter_all_false _ _ Hall). reflexivity.
  - intros ->. reflexivity.
  - intros l Hl Hall. rewrite Hl. cbv zeta.
    rewrite (filter_all_false _ _ Hall). reflexivity.
  - intros l Hl Hex. rewrite Hl. cbv zeta.
    assert (Hne : filter (fun x => truthy (strip x)) l <> []).
    { apply Exists_exists in Hex as [x [Hin Hx]]. intros E.
      assert (Hf : In x (filter (fun x => truthy (strip x)) l)).
      { apply filter_In. split; assumption. }
      rewrite E in Hf. contradiction. }
    destruct (filter (fun x => truthy (strip x)) l) as [|y r] eqn:Ef;
      [contradiction|].
    cbn [map]. split; [reflexivity|].
    apply (Forall_map (fun x => rstrip "/" (lstrip "/" x))
             (fun x => startswith x "/" = false /\ endswith x "/" = false)
             (y :: r)).
    apply Forall_forall. intros z _. split.
    + apply rstrip_lstrip_no_leading.
    + apply (rstrip_no_trailing "/"%char).
Qed.

Lemma override_lists_witness :
  targets_after_overrides Scenarios.blank_overrides ["data/"] = []
  /\ excludes_after_overrides Scenarios.blank_overrides ["tmp"] = ["tmp"]
  /\ targets_after_overrides Scenarios.slashed_overrides ["data/"]
     = ["data/"; "etc/app.conf"]
  /\ excludes_after_overrides Scenarios.slashed_overrides ["tmp"]
     = ["data/cache"; "logs"].
Proof.
  pose proof (override_lists Scenarios.blank_overrides ["data/"] ["tmp"])
    as [_ [H1 [_ [H2 _]]]].
  pose proof (override_lists Scenarios.slashed_overrides ["data/"] ["tmp"])
    as [_ [H3 [_ [_ H4]]]].
  split; [|split; [|split]].
  - apply (H1 ["  "; ""] eq_refl); [discriminate | repeat constructor].
  - apply (H2 [" "] eq_refl). repeat constructor.
  - apply (H3 ["/data/"; " "; "//etc/app.conf"] eq_refl). discriminate.
  - apply (H4 ["/data/cache/"; "logs"] eq_refl). apply Exists_cons_hd. reflexivity.
Defined.

End ConfigProps.

(* ===================================================================== *)
(** * Properties of the daemon *)
(* ===================================================================== *)

Module DaemonProps.
Import PyStr Daemon.
Local Open Scope list_scope.

Lemma align_round_spec (branch : string) (a : attempt) :
  align_round branch a = (round_events branch a, Ok (round_ok a)).
Proof.
  unfold round_events, round_ok, prepared, hashes_agree, align_round,
    _head_matches_origin, is_ok.
  destruct a as [r1 r2 r3 r4 r5 r6]; cbn [remote_is_empty initial_commit_if_needed
    push fetch_and_checkout rev_parse_head rev_parse_origin].
  destruct r1 as [[|]|]; destruct r2, r3, r4, r5 as [o1|], r6 as [o2|];
    cbn; try reflexivity;
    destruct (String.eqb (strip o1) (strip o2) && truthy (strip o1)); reflexivity.
Qed.

Lemma log_aligned_iff (branch : string) (a : attempt) :
  In LogAligned (round_events branch a) <-> round_ok a = true.
Proof.
  unfold round_events, round_ok, prepared, hashes_agree, align_round,
    _head_matches_origin, is_ok.
  destruct a as [r1 r2 r3 r4 r5 r6]; cbn [remote_is_empty initial_commit_if_needed
    push fetch_and_checkout rev_parse_head rev_parse_origin].
  destruct r1 as [[|]|]; destruct r2, r3, r4, r5 as [o1|], r6 as [o2|];
    cbn;
    try (destruct (String.eqb (strip o1) (strip o2) && truthy (strip o1)); cbn);
    split; intros H; try discriminate; try reflexivity;
    repeat (destruct H as [H|H]; try discriminate); try contradiction;
    auto 12.
Qed.

Lemma flat_map_seq_shift {A} (f : nat -> list A) (s n : nat) :
  flat_map f (seq (S s) n) = flat_map (fun i => f (S i)) (seq s n).
Proof.
  revert s. induction n as [|n IH]; intros s; simpl.
  - reflexivity.
  - rewrite IH. reflexivity.
Qed.

Lemma retry_trace_S (w : world) (branch : string) (k n : nat) :
  retry_trace w branch k (S n)
  = (round_events branch (attempts w k) ++ [Sleep 3]) ++ retry_trace w branch (S k) n.
Proof.
  unfold retry_trace. simpl. rewrite Nat.add_0_r. f_equal.
  rewrite flat_map_seq_shift. apply flat_map_ext. intros i.
  rewrite Nat.add_succ_r. reflexivity.
Qed.

(** [n] rounds that fail with the stop flag down are [n] retries, after
    which the loop is where it started, [n] rounds later *)
Lemma align_loop_retries (w : world) (branch : string) (n : nat) :
  forall fuel k reads,
    (forall i, i < n ->
               stop_is_set w (reads + i) = false
               /\ round_ok (attempts w (k + i)) = false) ->
    align_loop w branch (n + fuel) k reads
    = let '(ev, r, s) := align_loop w branch fuel (k + n) (reads + n) in
      (retry_trace w branch k n ++ ev, r, s).
Proof.
  induction n as [|n IH]; intros fuel k reads H.
  - simpl. rewrite !Nat.add_0_r.
    destruct (align_loop w branch fuel k reads) as [[ev r] s]. reflexivity.
  - destruct (H 0 (Nat.lt_0_succ n)) as [Hs Hr]. rewrite !Nat.add_0_r in *.
    cbn [Nat.add align_loop]. rewrite Hs, align_round_spec, Hr.
    rewrite (IH fuel (S k) (S reads)).
    + rewrite !Nat.add_succ_r. cbn [Nat.add].
      destruct (align_loop w branch fuel (S (k + n)) (S (reads + n))) as [[ev r] s].
      rewrite retry_trace_S, <- !app_assoc. reflexivity.
    + intros i Hi. specialize (H (S i) (proj1 (Nat.succ_lt_mono i n) Hi)).
      rewrite !Nat.add_succ_r in H. exact H.
Qed.

Lemma align_loop_never_raises (w : world) (branch : string) (fuel : nat) :
  forall k reads ev r e, align_loop w branch fuel k reads <> (ev, r, Raised e).
Proof.
  induction fuel as [|fuel IH]; intros k reads ev r e; simpl.
  - discriminate.
  - destruct (stop_is_set w reads); [discriminate|].
    rewrite align_round_spec.
    destruct (round_ok (attempts w k)); [discriminate|].
    destruct (align_loop w branch fuel (S k) (S reads)) as [[ev' r'] s] eqn:E.
    intros Heq. inversion Heq; subst.
    exact (IH (S k) (S reads) ev' r e E).
Qed.

(** ** The order of the phases *)

Lemma align_loop_returned (w : world) (branch : string) (fuel : nat) :
  forall k reads ev r,
    align_loop w branch fuel k reads = (ev, r, Returned) ->
    In LogAligned ev \/ exists i, stop_is_set w i = true.
Proof.
  induction fuel as [|fuel IH]; intros k reads ev r; simpl.
  - discriminate.
  - destruct (stop_is_set w reads) eqn:Hs; [right; eauto|].
    rewrite align_round_spec.
    destruct (round_ok (attempts w k)) eqn:Hr.
    + intros Heq. inversion Heq; subst. left.
      apply log_aligned_iff. exact Hr.
    + destruct (align_loop w branch fuel (S k) (S reads)) as [[ev' r'] s] eqn:E.
      intros Heq. inversion Heq; subst.
      destruct (IH _ _ _ _ E) as [Hin|Hstop]; [left | right; exact Hstop].
      apply in_or_app. right. exact Hin.
Qed.

(** When the stop flag is never set, [link_and_track] is entered only
    after a round has verified that the heads agree. *)
Lemma link_after_alignment_or_stop (st : Config.Settings) (w : world)
      (interval fa fl : nat) (tr : list event) (s : status) :
  run st w interval fa fl = (tr, s) ->
  In LinkAndTrack tr ->
  (exists tr1 tr2, tr = tr1 ++ LinkAndTrack :: tr2 /\ In LogAligned tr1)
  \/ exists i, stop_is_set w i = true.
Proof.
  unfold run, ensure_remote_ready.
  destruct (negb (truthy (Config.github_repo st))
            || negb (truthy (Config.github_pat st))).
  { intros Heq Hin. inversion Heq; subst. contradiction. }
  destruct (call GitEnsureRepo (ensure_repo w);;;
            call InstallExcludes (ensure_git_info_exclude w);;;
            call GitSetRemote (set_remote w)) as [ev0 [u|e]] eqn:E0.
  2:{ intros Heq Hin. inversion Heq; subst. exfalso.
      unfold bind, call in E0.
      destruct (ensure_repo w), (ensure_git_info_exclude w), (set_remote w);
        inversion E0; subst; simpl in Hin;
        repeat (destruct Hin as [Hin|Hin]; try discriminate); contradiction. }
  destruct (align_loop w (Config.branch st) fa 0 0) as [[ev r] sa] eqn:E.
  destruct sa as [|e|].
  - destruct (align_loop_returned w _ fa 0 0 ev r E) as [Hal|Hstop];
      [|intros _ _; right; exact Hstop].
    destruct (link_and_track w).
    + destruct (sync_loop w interval fl 0 r) as [ev' s'].
      intros Heq _. inversion Heq; subst. left.
      exists (ev0 ++ ev), ev'. split; [reflexivity|].
      apply in_or_app. right. exact Hal.
    + intros Heq _. inversion Heq; subst. left.
      exists (ev0 ++ ev), []. split; [reflexivity|].
      apply in_or_app. right. exact Hal.
  - intros Heq. exfalso. exact (align_loop_never_raises w _ fa 0 0 ev r e E).
  - intros Heq Hin. inversion Heq; subst.
    assert (Hrun : forall n k reads evr rr,
               align_loop w (Config.branch st) n k reads = (evr, rr, Running) ->
               ~ In LinkAndTrack evr).
    { clear. induction n as [|n IH]; intros k reads evr rr; simpl.
      - intros Heq. inversion Heq. intros [].
      - destruct (stop_is_set w reads); [discriminate|].
        rewrite align_round_spec.
        destruct (round_ok (attempts w k)); [discriminate|].
        destruct (align_loop w (Config.branch st) n (S k) (S reads))
          as [[ev' r'] s'] eqn:E.
        intros Heq. inversion Heq; subst. intros Hin.
        apply in_app_or in Hin as [Hin|Hin]; [|exact (IH _ _ _ _ E Hin)].
        apply in_app_or in Hin as [Hin|[Hin|[]]]; [|discriminate].
        unfold round_events, align_round, _head_matches_origin, try_except,
          bind, call, emit, ret in Hin.
        destruct (attempts w k) as [r1 r2 r3 r4 r5 r6]; cbn in Hin.
        destruct r1 as [[|]|], r2, r3, r4, r5 as [o1|], r6 as [o2|]; cbn in Hin;
          try (destruct (String.eqb (strip o1) (strip o2) && truthy (strip o1));
               cbn in Hin);
          repeat (destruct Hin as [Hin|Hin]; try discriminate); contradiction. }
    exfalso. apply in_app_or in Hin as [Hin|Hin].
    + unfold bind, call in E0.
      destruct (ensure_repo w), (ensure_git_info_exclude w), (set_remote w);
        inversion E0; subst; simpl in Hin;
        repeat (destruct Hin as [Hin|Hin]; try discriminate); contradiction.
    + exact (Hrun _ _ _ _ _ E Hin).
Qed.

(** C2. What the code does when the stop flag is set while the heads
    still differ: [ensure_remote_ready] falls out of its loop and
    returns, [run] goes on to [link_and_track], and no round has
    verified that the heads agree. *)
Theorem link_runs_after_cancelled_alignment :
  run Scenarios.settings Scenarios.world_cancelled 180 5 5
  = ([GitEnsureRepo; InstallExcludes; GitSetRemote;
      GitRemoteIsEmpty; GitFetchAndCheckout; GitRevParse "HEAD";
      GitRevParse "origin/main"; LogNotAligned; Sleep 3;
      LinkAndTrack],
     Returned)
  /\ hashes_agree (attempts Scenarios.world_cancelled 0) = false
  /\ In LinkAndTrack (fst (run Scenarios.settings Scenarios.world_cancelled 180 5 5))
  /\ ~ In LogAligned (fst (run Scenarios.settings Scenarios.world_cancelled 180 5 5)).
Proof.
  split; [reflexivity|]. split; [reflexivity|]. split.
  - vm_compute. auto 12.
  - vm_compute. intros H.
    repeat (destruct H as [H|H]; try discriminate). exact H.
Qed.

(** ** Start-up errors *)

(** X16. Without a repository name or without a token [run] raises
    [RuntimeError] at once: git is not called, nothing is linked and no
    cycle runs. *)
Theorem run_needs_credentials (st : Config.Settings) (w : world)
        (interval fa fl : nat) :
  truthy (Config.github_repo st) = false \/ truthy (Config.github_pat st) = false ->
  exists msg, run st w interval fa fl = ([], Raised (RuntimeError msg)).
Proof.
  intros H. unfold run, ensure_remote_ready.
  assert (E : negb (truthy (Config.github_repo st))
              || negb (truthy (Config.github_pat st)) = true).
  { destruct H as [-> | ->]; [reflexivity | apply orb_true_r]. }
  rewrite E. eexists. reflexivity.
Qed.

Lemma run_needs_credentials_witness :
  exists msg,
    run Scenarios.settings_without_pat Scenarios.world_aligns_third 180 9 9
    = ([], Raised (RuntimeError msg)).
Proof.
  apply (run_needs_credentials Scenarios.settings_without_pat
           Scenarios.world_aligns_third 180 9 9).
  right. reflexivity.
Defined.

(** X17. The three preparations that precede the alignment loop are outside
    its [try]: the exception of the first one that fails leaves [run],
    after the calls made so far and before any round, link or cycle. *)
Theorem setup_failure_ends_run (st : Config.Settings) (w : world)
        (interval fa fl : nat) (e : exc) :
  truthy (Config.github_repo st) = true ->
  truthy (Config.github_pat st) = true ->
  (ensure_repo w = Raise e ->
   run st w interval fa fl = ([GitEnsureRepo], Raised e))
  /\ (ensure_repo w = Ok tt -> ensure_git_info_exclude w = Raise e ->
      run st w interval fa fl = ([GitEnsureRepo; InstallExcludes], Raised e))
  /\ (ensure_repo w = Ok tt -> ensure_git_info_exclude w = Ok tt ->
      set_remote w = Raise e ->
      run st w interval fa fl
      = ([GitEnsureRepo; InstallExcludes; GitSetRemote], Raised e)).
Proof.
  intros Hr Hp. unfold run, ensure_remote_ready. rewrite Hr, Hp. cbn [negb orb].
  repeat split.
  - intros ->. reflexivity.
  - intros -> ->. reflexivity.
  - intros -> -> ->. reflexivity.
Qed.

Lemma setup_failure_ends_run_witness :
  run Scenarios.settings Scenarios.world_no_remote 180 9 9
  = ([GitEnsureRepo; InstallExcludes; GitSetRemote],
     Raised (Exception "git remote add failed")).
Proof.
  apply (proj2 (proj2 (setup_failure_ends_run Scenarios.settings Scenarios.world_no_remote
           180 9 9 (Exception "git remote add failed") eq_refl eq_refl)));
    reflexivity.
Defined.

(** ** The periodic loop *)

Lemma wait_interval_quiet (w : world) (n : nat) : forall reads,
  (forall j, j < n -> stop_is_set w (reads + j) = false) ->
  wait_interval w n reads = (repeat (Sleep 1) n, reads + n).
Proof.
  induction n as [|n IH]; intros reads H; simpl.
  - rewrite Nat.add_0_r. reflexivity.
  - pose proof (H 0 (Nat.lt_0_succ n)) as H0. rewrite Nat.add_0_r in H0.
    rewrite H0, (IH (S reads)).
    + rewrite Nat.add_succ_r. reflexivity.
    + intros j Hj. specialize (H (S j) (proj1 (Nat.succ_lt_mono j n) Hj)).
      rewrite Nat.add_succ_r in H. exact H.
Qed.

Lemma wait_interval_stopped (w : world) (k : nat) : forall n reads,
  k < n ->
  (forall j, j < k -> stop_is_set w (reads + j) = false) ->
  stop_is_set w (reads + k) = true ->
  wait_interval w n reads = (repeat (Sleep 1) k, S (reads + k)).
Proof.
  induction k as [|k IH]; intros n reads Hk H Hs.
  - destruct n as [|n]; [lia|]. simpl. rewrite Nat.add_0_r in Hs. rewrite Hs.
    rewrite Nat.add_0_r. reflexivity.
  - destruct n as [|n]; [lia|]. simpl.
    pose proof (H 0 (Nat.lt_0_succ k)) as H0. rewrite Nat.add_0_r in H0.
    rewrite H0, (IH n (S reads)).
    + rewrite Nat.add_succ_r. reflexivity.
    + lia.
    + intros j Hj. specialize (H (S j) (proj1 (Nat.succ_lt_mono j k) Hj)).
      rewrite Nat.add_succ_r in H. exact H.
    + rewrite Nat.add_succ_r in Hs. exact Hs.
Qed.

(** [n] cycles that succeed with the stop flag down, after which the
    loop is where it started, [n] cycles later *)
Lemma sync_loop_cycles (w : world) (interval n : nat) :
  (forall i, stop_is_set w i = false) ->
  forall fuel c reads,
    (forall i, i < n -> pull_commit_push w (c + i) = Ok tt) ->
    sync_loop w interval (n + fuel) c reads
    = let '(ev, s) := sync_loop w interval fuel (c + n)
                                (reads + n * S interval) in
      (cycles_trace interval n ++ ev, s).
Proof.
  intros Hs. induction n as [|n IH]; intros fuel c reads H.
  - simpl. rewrite !Nat.add_0_r.
    destruct (sync_loop w interval fuel c reads). reflexivity.
  - cbn [Nat.add sync_loop]. rewrite Hs.
    pose proof (H 0 (Nat.lt_0_succ n)) as H0. rewrite Nat.add_0_r in H0.
    rewrite H0.
    rewrite (wait_interval_quiet w interval (S reads)) by (intros; apply Hs).
    rewrite (IH fuel (S c) (S reads + interval)).
    + replace (S c + n) with (c + S n) by lia.
      replace (S reads + interval + n * S interval)
        with (reads + S n * S interval) by lia.
      destruct (sync_loop w interval fuel (c + S n) (reads + S n * S interval))
        as [ev s].
      unfold cycles_trace. cbn [repeat List.concat]. unfold cycle_trace at 2.
      rewrite <- app_assoc. reflexivity.
    + intros i Hi. specialize (H (S i) (proj1 (Nat.succ_lt_mono i n) Hi)).
      rewrite Nat.add_succ_r in H. exact H.
Qed.

(** X18. As long as nobody sets the stop flag and the cycles succeed, the
    loop of [run] goes on: whatever the number of rounds it is given,
    it is still running, and what it has done is one cycle after the
    other, each followed by [interval] sleeps of one second. *)
Theorem periodic_loop_steady (w : world) (interval fuel c reads : nat) :
  (forall i, stop_is_set w i = false) ->
  (forall i, pull_commit_push w i = Ok tt) ->
  sync_loop w interval fuel c reads = (cycles_trace interval fuel, Running).
Proof.
  intros Hs Hc.
  pose proof (sync_loop_cycles w interval fuel Hs 0 c reads (fun i _ => Hc _)) as E.
  rewrite Nat.add_0_r in E. rewrite E. simpl. rewrite app_nil_r. reflexivity.
Qed.

Lemma periodic_loop_steady_witness :
  sync_loop Scenarios.world_aligns_third 2 3 0 0
  = ([PullCommitPush; Sleep 1; Sleep 1;
      PullCommitPush; Sleep 1; Sleep 1;
      PullCommitPush; Sleep 1; Sleep 1], Running).
Proof.
  apply (periodic_loop_steady Scenarios.world_aligns_third 2 3 0 0);
    intros i; reflexivity.
Defined.

(** X19. [pull_commit_push] is called outside any [try]: the first cycle
    that raises ends the loop, and [run] with it, with that exception;
    the cycles before it ran in full and none comes after it. *)
Theorem periodic_failure_ends_loop (w : world) (interval n fuel c reads : nat)
        (e : exc) :
  (forall i, stop_is_set w i = false) ->
  (forall i, i < n -> pull_commit_push w (c + i) = Ok tt) ->
  pull_commit_push w (c + n) = Raise e ->
  sync_loop w interval (S n + fuel) c reads
  = (cycles_trace interval n ++ [PullCommitPush], Raised e).
Proof.
  intros Hs Hok He.
  replace (S n + fuel) with (n + S fuel) by lia.
  rewrite (sync_loop_cycles w interval n Hs (S fuel) c reads Hok).
  cbn [sync_loop]. rewrite Hs, He. reflexivity.
Qed.

Lemma periodic_failure_ends_loop_witness :
  sync_loop Scenarios.world_third_cycle_fails 1 (S 2 + 4) 0 0
  = ([PullCommitPush; Sleep 1; PullCommitPush; Sleep 1; PullCommitPush],
     Raised (Exception "disk full")).
Proof.
  apply (periodic_failure_ends_loop Scenarios.world_third_cycle_fails 1 2 4 0 0).
  - intros i. reflexivity.
  - intros i Hi. destruct i as [|[|i]]; [reflexivity | reflexivity | lia].
  - reflexivity.
Defined.

(** X20. The flag is read before every sleep of one second and before every
    cycle: when it goes up [k] seconds into the pause after a cycle, and
    stays up, the loop sleeps those [k] seconds, starts no other cycle
    and returns. *)
Theorem stop_ends_loop_promptly (w : world) (interval fuel c reads k : nat) :
  k <= interval ->
  stop_is_set w reads = false ->
  pull_commit_push w c = Ok tt ->
  (forall j, j < k -> stop_is_set w (S reads + j) = false) ->
  (forall j, S reads + k <= j -> stop_is_set w j = true) ->
  sync_loop w interval (2 + fuel) c reads
  = (PullCommitPush :: repeat (Sleep 1) k, Returned).
Proof.
  intros Hk H0 Hc Hlow Hup. cbn [Nat.add sync_loop]. rewrite H0, Hc.
  destruct (Nat.eq_dec k interval) as [->|Hne].
  - rewrite (wait_interval_quiet w interval (S reads) Hlow).
    rewrite (Hup (S reads + interval)) by lia.
    simpl. rewrite app_nil_r. reflexivity.
  - rewrite (wait_interval_stopped w k interval (S reads)); [|lia|exact Hlow|apply Hup; lia].
    rewrite (Hup (S (S reads + k))) by lia.
    simpl. rewrite app_nil_r. reflexivity.
Qed.

Lemma stop_ends_loop_promptly_witness :
  sync_loop Scenarios.world_stopped_later 180 (2 + 0) 0 0
  = ([PullCommitPush; Sleep 1; Sleep 1; Sleep 1; Sleep 1], Returned).
Proof.
  apply (stop_ends_loop_promptly Scenarios.world_stopped_later 180 0 0 0 4).
  - lia.
  - reflexivity.
  - reflexivity.
  - intros j Hj. destruct j as [|[|[|[|j]]]]; try reflexivity. lia.
  - intros j Hj. unfold Scenarios.world_stopped_later. cbn [stop_is_set].
    apply Nat.leb_le. lia.
Defined.

Lemma sync_loop_returned (w : world) (interval fuel : nat) :
  forall c reads ev,
    sync_loop w interval fuel c reads = (ev, Returned) ->
    exists i, stop_is_set w i = true.
Proof.
  induction fuel as [|fuel IH]; intros c reads ev; simpl.
  - discriminate.
  - destruct (stop_is_set w reads) eqn:Hs; [eauto|].
    destruct (pull_commit_push w c); [|discriminate].
    destruct (wait_interval w interval (S reads)) as [ev1 reads'].
    destruct (sync_loop w interval fuel (S c) reads') as [ev2 s] eqn:E.
    intros Heq. inversion Heq; subst. exact (IH _ _ _ E).
Qed.

(** X21. [run] returns (the exit status 0) only when the stop flag has been
    read as set; in a world in which nobody sets it, [run] goes on or
    ends with an exception. *)
Theorem run_returns_only_when_stopped (st : Config.Settings) (w : world)
        (interval fa fl : nat) (tr : list event) :
  run st w interval fa fl = (tr, Returned) ->
  exists i, stop_is_set w i = true.
Proof.
  unfold run.
  destruct (ensure_remote_ready st w fa 0) as [[ev r] [ | e | ]]; try discriminate.
  destruct (link_and_track w); [|discriminate].
  destruct (sync_loop w interval fl 0 r) as [ev' s] eqn:E.
  intros Heq. inversion Heq; subst. exact (sync_loop_returned _ _ _ _ _ _ E).
Qed.

Lemma run_returns_only_when_stopped_witness :
  exists i, stop_is_set Scenarios.world_cancelled i = true.
Proof.
  apply (run_returns_only_when_stopped Scenarios.settings Scenarios.world_cancelled
           180 5 5
           [GitEnsureRepo; InstallExcludes; GitSetRemote;
            GitRemoteIsEmpty; GitFetchAndCheckout; GitRevParse "HEAD";
            GitRevParse "origin/main"; LogNotAligned; Sleep 3;
            LinkAndTrack]).
  reflexivity.
Defined.

(** ** [ensure_remote_ready] as a whole *)

(** with credentials and a set-up that git answers, the function is
    its three set-up calls followed by the loop *)
Lemma ensure_remote_ready_loop (st : Config.Settings) (w : world) (fuel reads : nat) :
  truthy (Config.github_repo st) = true ->
  truthy (Config.github_pat st) = true ->
  ensure_repo w = Ok tt ->
  ensure_git_info_exclude w = Ok tt ->
  set_remote w = Ok tt ->
  ensure_remote_ready st w fuel reads
  = let '(ev, r, s) := align_loop w (Config.branch st) fuel 0 reads in
    ([GitEnsureRepo; InstallExcludes; GitSetRemote] ++ ev, r, s).
Proof.
  intros Hr Hp H1 H2 H3. unfold ensure_remote_ready.
  rewrite Hr, Hp, H1, H2, H3. cbn.
  destruct (align_loop w (Config.branch st) fuel 0 reads) as [[ev r] s]. reflexivity.
Qed.

(** rounds that fail do not log an alignment *)
Lemma retry_trace_not_aligned (w : world) (branch : string) (n : nat) :
  forall k,
    (forall i, i < n -> round_ok (attempts w (k + i)) = false) ->
    ~ In LogAligned (retry_trace w branch k n).
Proof.
  induction n as [|n IH]; intros k H Hin.
  - exact Hin.
  - rewrite retry_trace_S in Hin.
    apply in_app_or in Hin as [Hin | Hin].
    + apply in_app_or in Hin as [Hin | Hin].
      * apply log_aligned_iff in Hin.
        specialize (H 0 (Nat.lt_0_succ n)). rewrite Nat.add_0_r in H.
        rewrite H in Hin. discriminate.
      * destruct Hin as [Hin | []]. discriminate.
    + apply (IH (S k)); [|exact Hin].
      intros i Hi. specialize (H (S i) (proj1 (Nat.succ_lt_mono i n) Hi)).
      rewrite Nat.add_succ_r in H. exact H.
Qed.

(** C3. [ensure_remote_ready] with credentials, after a set-up that
    git answers.  No exception leaves it: an exception of git in a
    round is logged, the round is followed by a sleep of 3 seconds and
    by the next round.  A round logs the alignment exactly when git
    answered its calls and the two commit hashes are equal and not
    empty.  After [n] rounds that did not align, with the stop flag
    down, the function is still in its loop; it returns with the next
    round when that one aligns; and it returns as well, in the same
    way and with no alignment logged, when the stop flag is found set:
    the heads then differ in every round that was made. *)
Theorem alignment_gate (st : Config.Settings) (w : world) :
  truthy (Config.github_repo st) = true ->
  truthy (Config.github_pat st) = true ->
  ensure_repo w = Ok tt ->
  ensure_git_info_exclude w = Ok tt ->
  set_remote w = Ok tt ->
  let branch := Config.branch st in
  let setup := [GitEnsureRepo; InstallExcludes; GitSetRemote] in
  (forall fuel reads ev r e,
      ensure_remote_ready st w fuel reads <> (ev, r, Raised e))
  /\ (forall a, In LogAligned (round_events branch a)
                <-> prepared a && hashes_agree a = true)
  /\ (forall n fuel reads,
         (forall i, i < n ->
                    stop_is_set w (reads + i) = false
                    /\ prepared (attempts w i) && hashes_agree (attempts w i) = false) ->
         ensure_remote_ready st w n reads
         = (setup ++ retry_trace w branch 0 n, reads + n, Running)
         /\ (stop_is_set w (reads + n) = false ->
             prepared (attempts w n) && hashes_agree (attempts w n) = true ->
             ensure_remote_ready st w (S n + fuel) reads
             = (setup ++ retry_trace w branch 0 n ++ round_events branch (attempts w n),
                S (reads + n), Returned))
         /\ (stop_is_set w (reads + n) = true ->
             ensure_remote_ready st w (S n + fuel) reads
             = (setup ++ retry_trace w branch 0 n, S (reads + n), Returned)
             /\ ~ In LogAligned (setup ++ retry_trace w branch 0 n))).
Proof.
  intros Hr Hp H1 H2 H3 branch setup.
  split; [|split].
  - intros fuel reads ev r e E.
    rewrite (ensure_remote_ready_loop st w fuel reads Hr Hp H1 H2 H3) in E.
    destruct (align_loop w (Config.branch st) fuel 0 reads) as [[ev' r'] s] eqn:El.
    injection E as _ _ ->.
    exact (align_loop_never_raises w _ fuel 0 reads ev' r' e El).
  - intros a. apply log_aligned_iff.
  - intros n fuel reads H.
    assert (H' : forall i, i < n ->
                   stop_is_set w (reads + i) = false
                   /\ round_ok (attempts w (0 + i)) = false).
    { intros i Hi. exact (H i Hi). }
    split; [|split].
    + rewrite (ensure_remote_ready_loop st w n reads Hr Hp H1 H2 H3).
      pose proof (align_loop_retries w branch n 0 0 reads H') as E.
      rewrite Nat.add_0_r in E. fold branch. rewrite E. cbn [align_loop].
      rewrite app_nil_r. reflexivity.
    + intros Hs Hok.
      rewrite (ensure_remote_ready_loop st w _ reads Hr Hp H1 H2 H3).
      replace (S n + fuel) with (n + S fuel) by lia.
      fold branch. rewrite (align_loop_retries w branch n (S fuel) 0 reads H').
      cbn [align_loop Nat.add]. rewrite Hs, align_round_spec.
      unfold round_ok. rewrite Hok. reflexivity.
    + intros Hs. split.
      * rewrite (ensure_remote_ready_loop st w _ reads Hr Hp H1 H2 H3).
        replace (S n + fuel) with (n + S fuel) by lia.
        fold branch. rewrite (align_loop_retries w branch n (S fuel) 0 reads H').
        cbn [align_loop Nat.add]. rewrite Hs, app_nil_r. reflexivity.
      * intros Hin. apply in_app_or in Hin as [Hin | Hin].
        -- repeat (destruct Hin as [Hin | Hin]; try discriminate). exact Hin.
        -- apply (retry_trace_not_aligned w branch n 0); [|exact Hin].
           intros i Hi. exact (proj2 (H i Hi)).
Qed.

Lemma alignment_gate_witness :
  (ensure_remote_ready Scenarios.settings Scenarios.world_aligns_third (S 2 + 7) 0
   = ([GitEnsureRepo; InstallExcludes; GitSetRemote;
       GitRemoteIsEmpty; GitFetchAndCheckout;
       LogError (Exception "network unreachable"); Sleep 3;
       GitRemoteIsEmpty; GitFetchAndCheckout; GitRevParse "HEAD";
       GitRevParse "origin/main"; LogNotAligned; Sleep 3;
       GitRemoteIsEmpty; GitFetchAndCheckout; GitRevParse "HEAD";
       GitRevParse "origin/main"; LogAligned],
      3, Returned))
  /\ (ensure_remote_ready Scenarios.settings Scenarios.world_cancelled (S 1 + 7) 0
      = ([GitEnsureRepo; InstallExcludes; GitSetRemote;
          GitRemoteIsEmpty; GitFetchAndCheckout; GitRevParse "HEAD";
          GitRevParse "origin/main"; LogNotAligned; Sleep 3],
         2, Returned)
      /\ hashes_agree (attempts Scenarios.world_cancelled 0) = false).
Proof.
  split; [|split].
  - refine (eq_trans
              (proj1 (proj2 (proj2 (proj2
                 (alignment_gate Scenarios.settings Scenarios.world_aligns_third
                    eq_refl eq_refl eq_refl eq_refl eq_refl)) 2 7 0 _)) _ _) _).
    + intros i Hi. destruct i as [|[|i]]; [split; reflexivity | split; reflexivity | lia].
    + reflexivity.
    + reflexivity.
    + reflexivity.
  - refine (eq_trans
              (proj1 (proj2 (proj2 (proj2 (proj2
                 (alignment_gate Scenarios.settings Scenarios.world_cancelled
                    eq_refl eq_refl eq_refl eq_refl eq_refl)) 1 7 0 _)) _)) _).
    + intros i Hi. destruct i as [|i]; [split; reflexivity | lia].
    + reflexivity.
    + reflexivity.
  - reflexivity.
Defined.

End DaemonProps.

(* ===================================================================== *)
(** * Properties of the file-system model *)
(* ===================================================================== *)

Module FSProps.
Import FS.
Local Open Scope list_scope.

(** ** Directory entries *)

Lemma lookup_set_entry_same x v es : lookup x (set_entry x v es) = Some v.
Proof.
  induction es as [|[y u] es IH]; simpl.
  - rewrite String.eqb_refl. reflexivity.
  - destruct (String.eqb x y) eqn:E; simpl; rewrite E; [reflexivity | exact IH].
Qed.

Lemma lookup_set_entry_other x y v es :
  String.eqb y x = false -> lookup y (set_entry x v es) = lookup y es.
Proof.
  intros Hne. induction es as [|[z u] es IH]; simpl.
  - rewrite Hne. reflexivity.
  - destruct (String.eqb x z) eqn:E; simpl.
    + apply String.eqb_eq in E. subst z. rewrite Hne. reflexivity.
    + destruct (String.eqb y z); [reflexivity | exact IH].
Qed.

Lemma lookup_del_entry_same x es : lookup x (del_entry x es) = None.
Proof.
  induction es as [|[y u] es IH]; simpl.
  - reflexivity.
  - destruct (String.eqb x y) eqn:E; simpl; [exact IH | rewrite E; exact IH].
Qed.

Lemma lookup_del_entry_other x y es :
  String.eqb y x = false -> lookup y (del_entry x es) = lookup y es.
Proof.
  intros Hne. induction es as [|[z u] es IH]; simpl.
  - reflexivity.
  - destruct (String.eqb x z) eqn:E; simpl.
    + apply String.eqb_eq in E. subst z. rewrite Hne. exact IH.
    + destruct (String.eqb y z); [reflexivity | exact IH].
Qed.

Lemma set_entry_new x v es :
  lookup x es = None -> set_entry x v es = es ++ [(x, v)].
Proof.
  induction es as [|[y u] es IH]; simpl; intros H.
  - reflexivity.
  - destruct (String.eqb x y); [discriminate|]. rewrite (IH H). reflexivity.
Qed.

(** ** Paths *)

Lemma is_prefix_refl p : is_prefix p p = true.
Proof. induction p; simpl; [reflexivity|]. rewrite String.eqb_refl. exact IHp. Qed.

Lemma path_eqb_refl p : path_eqb p p = true.
Proof. unfold path_eqb. rewrite is_prefix_refl. reflexivity. Qed.

Lemma is_prefix_app p q : is_prefix p (p ++ q) = true.
Proof. induction p; simpl; [reflexivity|]. rewrite String.eqb_refl. exact IHp. Qed.

Lemma is_prefix_spec p q : is_prefix p q = true <-> exists r, q = p ++ r.
Proof.
  revert q. induction p as [|x p IH]; intros q; simpl.
  - split; [intros _; exists q; reflexivity | reflexivity].
  - destruct q as [|y q].
    + split; [discriminate | intros [r H]; discriminate].
    + split.
      * intros H. apply andb_true_iff in H as [H1 H2].
        apply String.eqb_eq in H1. subst y.
        apply IH in H2 as [r ->]. exists r. reflexivity.
      * intros [r H]. inversion H; subst. rewrite String.eqb_refl. simpl.
        apply IH. exists r. reflexivity.
Qed.

Lemma path_eqb_eq p q : path_eqb p q = true <-> p = q.
Proof.
  unfold path_eqb. split.
  - intros H. apply andb_true_iff in H as [H1 H2].
    apply is_prefix_spec in H1 as [r ->]. apply is_prefix_spec in H2 as [r' H].
    rewrite <- app_assoc in H. rewrite <- (app_nil_r p) in H at 1.
    apply app_inv_head in H. symmetry in H. apply app_eq_nil in H as [-> _].
    rewrite app_nil_r. reflexivity.
  - intros ->. rewrite is_prefix_refl. reflexivity.
Qed.

Lemma dirname_snoc p x : dirname (p ++ [x]) = p.
Proof. apply removelast_last. Qed.

Lemma basename_snoc p x : basename (p ++ [x]) = x.
Proof. apply last_last. Qed.

Lemma dirname_basename p : p <> [] -> p = dirname p ++ [basename p].
Proof. intros H. apply app_removelast_last. exact H. Qed.

(** ** Physical access *)

Lemma find_app n p q :
  find n (p ++ q) = match find n p with Some m => find m q | None => None end.
Proof.
  revert n. induction p as [|x p IH]; intros n; simpl.
  - reflexivity.
  - destruct n as [| a es |]; try reflexivity.
    destruct (lookup x es); [apply IH | reflexivity].
Qed.

Lemma find_snoc_dir n p x m :
  find n (p ++ [x]) = Some m -> exists a es, find n p = Some (Dir a es) /\ lookup x es = Some m.
Proof.
  rewrite find_app. destruct (find n p) as [[| a es |]|]; simpl; try discriminate.
  destruct (lookup x es) eqn:E; [|discriminate].
  intros H. inversion H; subst. eauto.
Qed.

Lemma alter_dir_nil f n :
  alter_dir f n [] = match n with Dir a es => Dir a (f es) | _ => n end.
Proof. destruct n; reflexivity. Qed.

(** what an ancestor of the altered directory becomes *)
Lemma find_alter_prefix f n p r :
  find (alter_dir f n (p ++ r)) p = option_map (fun m => alter_dir f m r) (find n p).
Proof.
  revert n. induction p as [|x p IH]; intros n; simpl.
  - reflexivity.
  - destruct n as [| a es |]; simpl; try reflexivity.
    destruct (lookup x es) as [c|] eqn:E; simpl.
    + rewrite lookup_set_entry_same. apply IH.
    + rewrite E. reflexivity.
Qed.

(** a path that leaves the way to the altered directory sees no change *)
Lemma find_alter_diverge f d : forall n p,
  is_prefix p d = false -> is_prefix d p = false ->
  find (alter_dir f n d) p = find n p.
Proof.
  induction d as [|x d IH]; intros n p H1 H2.
  - simpl in H2. discriminate.
  - destruct p as [|y p]; [simpl in H1; discriminate|].
    simpl in H1, H2.
    destruct n as [| a es |]; try reflexivity.
    simpl. destruct (lookup x es) as [c|] eqn:E; [|reflexivity].
    simpl. destruct (String.eqb y x) eqn:Eyx.
    + apply String.eqb_eq in Eyx. subst y. rewrite String.eqb_refl in H2.
      simpl in H1, H2. rewrite lookup_set_entry_same, E. apply IH; assumption.
    + rewrite lookup_set_entry_other by exact Eyx. reflexivity.
Qed.

Lemma find_alter_below f n d q :
  find (alter_dir f n d) (d ++ q)
  = match find n d with
    | Some (Dir a es) => find (Dir a (f es)) q
    | Some m => find m q
    | None => None
    end.
Proof.
  rewrite find_app. rewrite <- (app_nil_r d) at 1.
  rewrite find_alter_prefix. destruct (find n d) as [[| a es |]|]; reflexivity.
Qed.

(** ** [put] and [drop] *)

Lemma find_put_same q v fs a es :
  q <> [] -> find fs (dirname q) = Some (Dir a es) ->
  find (put q v fs) q = Some v.
Proof.
  intros Hq Hd. unfold put.
  rewrite (dirname_basename q Hq) at 3.
  rewrite find_alter_below, Hd. simpl.
  rewrite lookup_set_entry_same. reflexivity.
Qed.

Lemma find_drop_same q fs :
  q <> [] -> find (drop q fs) q = None.
Proof.
  intros Hq. unfold drop.
  rewrite (dirname_basename q Hq) at 3.
  rewrite find_alter_below.
  destruct (find fs (dirname q)) as [[| a es |]|]; simpl; try reflexivity.
  rewrite lookup_del_entry_same. reflexivity.
Qed.

(** the directory that holds the entry keeps its attributes *)
Lemma find_put_parent q v fs a es :
  find fs (dirname q) = Some (Dir a es) ->
  find (put q v fs) (dirname q) = Some (Dir a (set_entry (basename q) v es)).
Proof.
  intros Hd. unfold put.
  rewrite <- (app_nil_r (dirname q)) at 2.
  rewrite find_alter_below, Hd. reflexivity.
Qed.

Lemma find_drop_parent q fs a es :
  find fs (dirname q) = Some (Dir a es) ->
  find (drop q fs) (dirname q) = Some (Dir a (del_entry (basename q) es)).
Proof.
  intros Hd. unfold drop.
  rewrite <- (app_nil_r (dirname q)) at 2.
  rewrite find_alter_below, Hd. reflexivity.
Qed.

Lemma is_prefix_false_head p q x :
  is_prefix (q ++ [x]) (q ++ p) = false ->
  match p with
  | [] => True
  | y :: _ => String.eqb y x = false
  end.
Proof.
  induction q as [|z q IH]; simpl.
  - destruct p as [|y p]; [trivial|].
    destruct (String.eqb x y) eqn:E.
    + simpl. discriminate.
    + intros _. rewrite String.eqb_sym. exact E.
  - rewrite String.eqb_refl. exact IH.
Qed.

(** an alteration of the entry [x] of the directory [d] is not seen from
    a path that is neither above [d] nor at or below [d ++ [x]] *)
Lemma find_alter_entry_other f x d fs p :
  (forall y es, String.eqb y x = false -> lookup y (f es) = lookup y es) ->
  is_prefix (d ++ [x]) p = false ->
  is_prefix p d = false ->
  find (alter_dir f fs d) p = find fs p.
Proof.
  intros Hf H1 H2.
  destruct (is_prefix d p) eqn:Hdp.
  - apply is_prefix_spec in Hdp as [r ->].
    rewrite find_alter_below, find_app.
    destruct (find fs d) as [[| a es |]|]; try reflexivity.
    destruct r as [|y r].
    + rewrite app_nil_r, is_prefix_refl in H2. discriminate.
    + apply is_prefix_false_head in H1. simpl. rewrite (Hf _ _ H1). reflexivity.
  - apply find_alter_diverge; assumption.
Qed.

Lemma find_put_other q v fs p :
  q <> [] ->
  is_prefix q p = false -> is_prefix p (dirname q) = false ->
  find (put q v fs) p = find fs p.
Proof.
  intros Hq H1 H2. unfold put.
  apply find_alter_entry_other with (x := basename q).
  - intros y es Hy. apply lookup_set_entry_other. exact Hy.
  - rewrite <- dirname_basename by exact Hq. exact H1.
  - exact H2.
Qed.

Lemma find_drop_other q fs p :
  q <> [] ->
  is_prefix q p = false -> is_prefix p (dirname q) = false ->
  find (drop q fs) p = find fs p.
Proof.
  intros Hq H1 H2. unfold drop.
  apply find_alter_entry_other with (x := basename q).
  - intros y es Hy. apply lookup_del_entry_other. exact Hy.
  - rewrite <- dirname_basename by exact Hq. exact H1.
  - exact H2.
Qed.

(** an ancestor of an altered directory stays a directory with the same
    attributes *)
Lemma find_alter_ancestor f fs d p a es :
  is_prefix p d = true -> find fs p = Some (Dir a es) ->
  exists es', find (alter_dir f fs d) p = Some (Dir a es').
Proof.
  intros Hp Hf. apply is_prefix_spec in Hp as [r ->].
  rewrite find_alter_prefix, Hf. simpl.
  destruct r as [|x r]; simpl.
  - eauto.
  - destruct (lookup x es); eauto.
Qed.


Lemma same_kind_refl o : same_kind o o.
Proof. destruct o as [[| a es |]|]; simpl; eauto. Qed.

Lemma find_alter_entry_kind f x d fs p :
  (forall y es, String.eqb y x = false -> lookup y (f es) = lookup y es) ->
  is_prefix (d ++ [x]) p = false ->
  same_kind (find fs p) (find (alter_dir f fs d) p).
Proof.
  intros Hf H1.
  destruct (is_prefix p d) eqn:Hpd.
  - destruct (find fs p) as [[| a es |]|] eqn:E; simpl.
    + apply is_prefix_spec in Hpd as [r ->]. rewrite find_alter_prefix, E.
      destruct r; reflexivity.
    + apply (find_alter_ancestor f fs d p a es Hpd E).
    + apply is_prefix_spec in Hpd as [r ->]. rewrite find_alter_prefix, E.
      destruct r; reflexivity.
    + apply is_prefix_spec in Hpd as [r ->]. rewrite find_alter_prefix, E.
      reflexivity.
  - rewrite (find_alter_entry_other f x d fs p Hf H1 Hpd). apply same_kind_refl.
Qed.

Lemma find_put_kind q v fs p :
  q <> [] -> is_prefix q p = false ->
  same_kind (find fs p) (find (put q v fs) p).
Proof.
  intros Hq H1. unfold put. apply find_alter_entry_kind with (x := basename q).
  - intros y es Hy. apply lookup_set_entry_other. exact Hy.
  - rewrite <- dirname_basename by exact Hq. exact H1.
Qed.

Lemma find_drop_kind q fs p :
  q <> [] -> is_prefix q p = false ->
  same_kind (find fs p) (find (drop q fs) p).
Proof.
  intros Hq H1. unfold drop. apply find_alter_entry_kind with (x := basename q).
  - intros y es Hy. apply lookup_del_entry_other. exact Hy.
  - rewrite <- dirname_basename by exact Hq. exact H1.
Qed.

(** ** Path resolution *)

(** along real directories the resolution is the path itself *)
Lemma walk_find fl : forall todo cwd cur n,
  find cur todo = Some n ->
  (fl = false \/ is_link (Some n) = false) ->
  walk fl cwd cur todo = Done (cwd ++ todo).
Proof.
  induction todo as [|x rest IH]; intros cwd cur n Hf Hl; simpl.
  - rewrite app_nil_r. reflexivity.
  - simpl in Hf. destruct cur as [| a es |]; try discriminate.
    destruct (lookup x es) as [c|] eqn:E; [|discriminate].
    assert (Hrec : walk fl (cwd ++ [x]) c rest = Done (cwd ++ x :: rest)).
    { rewrite (IH (cwd ++ [x]) c n Hf Hl), <- app_assoc. reflexivity. }
    destruct c as [| | t]; try exact Hrec.
    destruct rest as [|y rest]; [|simpl in Hf; discriminate].
    simpl in Hf. inversion Hf; subst n.
    destruct Hl as [-> | Hl]; [reflexivity | discriminate].
Qed.

(** a name that is missing from a real directory resolves to itself *)
Lemma walk_find_new fl : forall todo cwd cur a es x,
  find cur todo = Some (Dir a es) -> lookup x es = None ->
  walk fl cwd cur (todo ++ [x]) = Done (cwd ++ todo ++ [x]).
Proof.
  induction todo as [|y rest IH]; intros cwd cur a es x Hf Hx; simpl.
  - simpl in Hf. inversion Hf; subst cur. rewrite Hx. reflexivity.
  - simpl in Hf. destruct cur as [| a0 es0 |]; try discriminate.
    destruct (lookup y es0) as [c|] eqn:E; [|discriminate].
    assert (Hrec : walk fl (cwd ++ [y]) c (rest ++ [x])
                   = Done (cwd ++ y :: rest ++ [x])).
    { rewrite (IH (cwd ++ [y]) c a es x Hf Hx), <- app_assoc. reflexivity. }
    destruct c as [| | t]; try exact Hrec.
    destruct rest; simpl in Hf; discriminate.
Qed.

Lemma namei_walk_done root fl p q :
  walk fl [] root p = Done q -> namei root fl p = Ok q.
Proof.
  intros H. unfold namei, MAXSYMLINKS. simpl. rewrite H. reflexivity.
Qed.

(** [lstat] of a path whose parent is a real directory *)
Lemma namei_phys fs q a es :
  find fs (dirname q) = Some (Dir a es) -> namei fs false q = Ok q.
Proof.
  intros Hd. apply namei_walk_done.
  destruct q as [|x q'] eqn:Eq; [reflexivity|]. rewrite <- Eq in *.
  assert (Hq : q <> []) by (rewrite Eq; discriminate).
  rewrite (dirname_basename q Hq).
  destruct (lookup (basename q) es) as [c|] eqn:E.
  - apply (walk_find false _ [] fs c); [|left; reflexivity].
    rewrite find_app, Hd. simpl. rewrite E. reflexivity.
  - apply (walk_find_new false _ [] fs a es); assumption.
Qed.

Lemma namei_phys_follow fs q a es :
  find fs (dirname q) = Some (Dir a es) ->
  is_link (find fs q) = false ->
  namei fs true q = Ok q.
Proof.
  intros Hd Hl. apply namei_walk_done.
  destruct q as [|x q'] eqn:Eq; [reflexivity|]. rewrite <- Eq in *.
  assert (Hq : q <> []) by (rewrite Eq; discriminate).
  rewrite (dirname_basename q Hq) in Hl |- *.
  destruct (lookup (basename q) es) as [c|] eqn:E.
  - apply (walk_find true _ [] fs c).
    + rewrite find_app, Hd. simpl. rewrite E. reflexivity.
    + right. rewrite find_app, Hd in Hl. simpl in Hl. rewrite E in Hl. exact Hl.
  - apply (walk_find_new true _ [] fs a es); assumption.
Qed.

Lemma lstat_phys fs q a es :
  find fs (dirname q) = Some (Dir a es) -> lstat fs q = find fs q.
Proof. intros H. unfold lstat. rewrite (namei_phys fs q a es H). reflexivity. Qed.

Lemma stat_phys fs q a es :
  find fs (dirname q) = Some (Dir a es) ->
  is_link (find fs q) = false ->
  stat fs q = find fs q.
Proof.
  intros H Hl. unfold stat. rewrite (namei_phys_follow fs q a es H Hl). reflexivity.
Qed.

Lemma find_dirname fs q n :
  find fs q = Some n -> q <> [] -> exists a es, find fs (dirname q) = Some (Dir a es).
Proof.
  intros H Hq. rewrite (dirname_basename q Hq) in H.
  apply find_snoc_dir in H as [a [es [H _]]]. eauto.
Qed.

(** *** One more component *)

Section Snoc.
Variable root : node.

Lemma walk_snoc_done fl x : forall todo cwd cur q a es,
  find root cwd = Some cur ->
  walk true cwd cur todo = Done q ->
  find root q = Some (Dir a es) ->
  walk fl cwd cur (todo ++ [x]) = walk fl q (Dir a es) [x].
Proof.
  induction todo as [|y rest IH]; intros cwd cur q a es Hc Hw Hq.
  - simpl in Hw. inversion Hw; subst q. rewrite Hc in Hq. inversion Hq; subst cur.
    reflexivity.
  - simpl in Hw |- *. destruct cur as [| a0 es0 |]; try discriminate.
    destruct (lookup y es0) as [c|] eqn:E.
    + assert (Hc' : find root (cwd ++ [y]) = Some c).
      { rewrite find_app, Hc. simpl. rewrite E. reflexivity. }
      destruct c as [| a1 es1 | t].
      * destruct rest; [|exact (IH _ _ _ _ _ Hc' Hw Hq)].
        simpl in Hw. inversion Hw; subst q. rewrite Hc' in Hq. discriminate.
      * destruct rest; exact (IH _ _ _ _ _ Hc' Hw Hq).
      * destruct rest; discriminate.
    + destruct rest; [|discriminate]. inversion Hw; subst q.
      rewrite find_app, Hc in Hq. simpl in Hq. rewrite E in Hq. discriminate.
Qed.

Lemma walk_snoc_follow fl x : forall todo cwd cur p',
  walk true cwd cur todo = Follow p' ->
  walk fl cwd cur (todo ++ [x]) = Follow (p' ++ [x]).
Proof.
  induction todo as [|y rest IH]; intros cwd cur p' Hw.
  - discriminate.
  - simpl in Hw |- *. destruct cur as [| a0 es0 |]; try discriminate.
    destruct (lookup y es0) as [c|] eqn:E.
    + destruct c as [| a1 es1 | t].
      * destruct rest; [discriminate|]. exact (IH _ _ _ Hw).
      * destruct rest; [discriminate|]. exact (IH _ _ _ Hw).
      * destruct rest; simpl; inversion Hw; subst.
        -- reflexivity.
        -- rewrite <- app_assoc. reflexivity.
    + destruct rest; discriminate.
Qed.

Lemma walk_snoc_fail fl x : forall todo cwd cur e,
  walk true cwd cur todo = Fail e ->
  exists e', walk fl cwd cur (todo ++ [x]) = Fail e'.
Proof.
  induction todo as [|y rest IH]; intros cwd cur e Hw.
  - discriminate.
  - simpl in Hw |- *. destruct cur as [| a0 es0 |]; eauto.
    destruct (lookup y es0) as [c|] eqn:E.
    + destruct c as [| a1 es1 | t].
      * destruct rest; [discriminate|]. exact (IH _ _ _ Hw).
      * destruct rest; [discriminate|]. exact (IH _ _ _ Hw).
      * destruct rest; discriminate.
    + destruct rest; [discriminate|]. simpl. eauto.
Qed.

Lemma walk_snoc_not_dir fl x : forall todo cwd cur q,
  find root cwd = Some cur ->
  walk true cwd cur todo = Done q ->
  is_dir (find root q) = false ->
  exists e, walk fl cwd cur (todo ++ [x]) = Fail e.
Proof.
  induction todo as [|y rest IH]; intros cwd cur q Hc Hw Hq.
  - simpl in Hw. inversion Hw; subst q. rewrite Hc in Hq.
    simpl. destruct cur; try discriminate; eauto.
  - simpl in Hw |- *. destruct cur as [| a0 es0 |]; try discriminate.
    destruct (lookup y es0) as [c|] eqn:E.
    + assert (Hc' : find root (cwd ++ [y]) = Some c).
      { rewrite find_app, Hc. simpl. rewrite E. reflexivity. }
      destruct c as [| a1 es1 | t].
      * destruct rest; [|exact (IH _ _ _ Hc' Hw Hq)]. simpl. eauto.
      * destruct rest; exact (IH _ _ _ Hc' Hw Hq).
      * destruct rest; discriminate.
    + destruct rest; [|discriminate]. simpl. eauto.
Qed.

(** the parent of a path that resolves is a directory *)
Lemma namei_fuel_parent fl x : forall fuel p q',
  namei_fuel fuel root fl (p ++ [x]) = Ok q' ->
  exists q a es, namei_fuel fuel root true p = Ok q /\ find root q = Some (Dir a es).
Proof.
  induction fuel as [|fuel IH]; intros p q' H; simpl in H |- *.
  - destruct (walk true [] root p) as [q|p'|e] eqn:Ew.
    + destruct (find root q) as [[| a es |]|] eqn:Eq; eauto;
        destruct (walk_snoc_not_dir fl x p [] root q eq_refl Ew) as [e He];
        try (rewrite Eq; reflexivity); rewrite He in H; discriminate.
    + rewrite (walk_snoc_follow fl x p [] root p' Ew) in H. discriminate.
    + destruct (walk_snoc_fail fl x p [] root e Ew) as [e' He].
      rewrite He in H. discriminate.
  - destruct (walk true [] root p) as [q|p'|e] eqn:Ew.
    + destruct (find root q) as [[| a es |]|] eqn:Eq; eauto;
        destruct (walk_snoc_not_dir fl x p [] root q eq_refl Ew) as [e He];
        try (rewrite Eq; reflexivity); rewrite He in H; discriminate.
    + rewrite (walk_snoc_follow fl x p [] root p' Ew) in H.
      exact (IH _ _ H).
    + destruct (walk_snoc_fail fl x p [] root e Ew) as [e' He].
      rewrite He in H. discriminate.
Qed.

(** a name missing from the directory that [p] resolves to *)
Lemma namei_fuel_snoc_new fl x : forall fuel p q a es,
  namei_fuel fuel root true p = Ok q ->
  find root q = Some (Dir a es) ->
  lookup x es = None ->
  namei_fuel fuel root fl (p ++ [x]) = Ok (q ++ [x]).
Proof.
  induction fuel as [|fuel IH]; intros p q a es H Hq Hx; simpl in H |- *.
  - destruct (walk true [] root p) as [q0|p'|e] eqn:Ew; try discriminate.
    inversion H; subst q0.
    rewrite (walk_snoc_done fl x p [] root q a es eq_refl Ew Hq).
    simpl. rewrite Hx. reflexivity.
  - destruct (walk true [] root p) as [q0|p'|e] eqn:Ew; try discriminate.
    + inversion H; subst q0.
      rewrite (walk_snoc_done fl x p [] root q a es eq_refl Ew Hq).
      simpl. rewrite Hx. reflexivity.
    + rewrite (walk_snoc_follow fl x p [] root p' Ew).
      exact (IH _ _ _ _ H Hq Hx).
Qed.

End Snoc.

Section Follow.
Variable root : node.

Lemma walk_follow_done : forall todo cwd cur q,
  walk true cwd cur todo = Done q -> walk false cwd cur todo = Done q.
Proof.
  induction todo as [|y rest IH]; intros cwd cur q Hw.
  - exact Hw.
  - simpl in Hw |- *. destruct cur as [| a0 es0 |]; try discriminate.
    destruct (lookup y es0) as [c|] eqn:E; [|exact Hw].
    destruct c as [| a1 es1 | t].
    + exact (IH _ _ _ Hw).
    + exact (IH _ _ _ Hw).
    + destruct rest; discriminate.
Qed.

Lemma walk_follow_follow : forall todo cwd cur p',
  find root cwd = Some cur ->
  walk true cwd cur todo = Follow p' ->
  walk false cwd cur todo = Follow p'
  \/ exists q t, walk false cwd cur todo = Done q /\ find root q = Some (Link t).
Proof.
  induction todo as [|y rest IH]; intros cwd cur p' Hc Hw.
  - discriminate.
  - simpl in Hw |- *. destruct cur as [| a0 es0 |]; try discriminate.
    destruct (lookup y es0) as [c|] eqn:E.
    + assert (Hc' : find root (cwd ++ [y]) = Some c).
      { rewrite find_app, Hc. simpl. rewrite E. reflexivity. }
      destruct c as [| a1 es1 | t].
      * exact (IH _ _ _ Hc' Hw).
      * exact (IH _ _ _ Hc' Hw).
      * destruct rest; [|left; exact Hw].
        right. exists (cwd ++ [y]), t. split; [reflexivity | exact Hc'].
    + destruct rest; discriminate.
Qed.

(** what [stat] finds, [lstat] finds too (the link, if there is one) *)
Lemma namei_fuel_follow_exists : forall fuel p q,
  namei_fuel fuel root true p = Ok q ->
  is_some (find root q) = true ->
  exists q', namei_fuel fuel root false p = Ok q' /\ is_some (find root q') = true.
Proof.
  induction fuel as [|fuel IH]; intros p q H Hq; simpl in H |- *.
  - destruct (walk true [] root p) as [q0|p'|e] eqn:Ew; try discriminate.
    inversion H; subst q0. rewrite (walk_follow_done p [] root q Ew). eauto.
  - destruct (walk true [] root p) as [q0|p'|e] eqn:Ew; try discriminate.
    + inversion H; subst q0. rewrite (walk_follow_done p [] root q Ew). eauto.
    + destruct (walk_follow_follow p [] root p' eq_refl Ew) as [Hf | [q1 [t [Hd Hl]]]].
      * rewrite Hf. exact (IH _ _ H Hq).
      * rewrite Hd. exists q1. rewrite Hl. split; reflexivity.
Qed.

End Follow.

Lemma stat_parent_is_dir fs p x :
  is_some (stat fs (p ++ [x])) = true -> is_dir (stat fs p) = true.
Proof.
  unfold stat, namei. intros H.
  destruct (namei_fuel MAXSYMLINKS fs true (p ++ [x])) as [q'|e] eqn:E; [|discriminate].
  destruct (namei_fuel_parent fs true x _ _ _ E) as [q [a [es [Hq Hf]]]].
  rewrite Hq, Hf. reflexivity.
Qed.


Lemma is_dir_is_some o : is_dir o = true -> is_some o = true.
Proof. destruct o as [[]|]; simpl; congruence. Qed.

(** creating what exists fails and changes nothing *)
Lemma create_existing fs p v :
  is_some (stat fs p) = true -> exists e, create p v fs = (fs, Raise e).
Proof.
  unfold stat, create, namei. intros H.
  destruct (namei_fuel MAXSYMLINKS fs true p) as [q|e] eqn:E; [|discriminate].
  destruct (namei_fuel_follow_exists fs _ _ _ E H) as [q' [Hq' Hs]].
  rewrite Hq'. destruct (find fs q'); [|discriminate]. unfold err. eauto.
Qed.

(** [os.makedirs] of a directory that exists does nothing *)
Lemma makedirs_existing fs p :
  is_dir (stat fs p) = true -> makedirs p fs = (fs, Ok tt).
Proof.
  intros Hd. unfold makedirs.
  destruct (rev p) as [|t rh] eqn:Er; [reflexivity|].
  assert (Hp : p = rev rh ++ [t]).
  { rewrite <- (rev_involutive p), Er. reflexivity. }
  cbn [makedirs_rev]. change (rev (t :: rh)) with (rev rh ++ [t]). rewrite <- Hp.
  unfold bind at 1. unfold bind at 1. unfold exists_, gets at 1.
  assert (Hh : is_some (stat fs (rev rh)) = true).
  { apply is_dir_is_some. apply (stat_parent_is_dir fs (rev rh) t).
    rewrite <- Hp. apply is_dir_is_some. exact Hd. }
  rewrite Hh. unfold ret at 1. unfold try_except, mkdir.
  destruct (create_existing fs p (Dir plain []) (is_dir_is_some _ Hd)) as [e He].
  rewrite He. unfold bind, isdir, gets. rewrite Hd. reflexivity.
Qed.

(** ** System calls on real paths *)

Lemma parent_writable_find fs q a es :
  find fs (dirname q) = Some (Dir a es) -> parent_writable fs q = writable a.
Proof. intros H. unfold parent_writable. rewrite H. reflexivity. Qed.

Lemma unlink_phys fs q n :
  find fs q = Some n -> is_dir (Some n) = false -> q <> [] ->
  parent_writable fs q = true ->
  unlink q fs = (drop q fs, Ok tt).
Proof.
  intros Hf Hn Hq Hw. unfold unlink.
  destruct (find_dirname fs q n Hf Hq) as [a [es Hd]].
  rewrite (namei_phys fs q a es Hd), Hf, Hw. simpl.
  destruct n; try reflexivity. discriminate.
Qed.

Lemma create_phys fs q v a es :
  find fs (dirname q) = Some (Dir a es) -> find fs q = None ->
  writable a = true ->
  create q v fs = (put q v fs, Ok tt).
Proof.
  intros Hd Hf Hw. unfold create.
  rewrite (namei_phys fs q a es Hd), Hf, (parent_writable_find fs q a es Hd), Hw.
  reflexivity.
Qed.

Lemma namei_of_find fs p n fl :
  find fs p = Some n -> (fl = false \/ is_link (Some n) = false) ->
  namei fs fl p = Ok p.
Proof.
  intros Hf Hl. apply namei_walk_done.
  apply (walk_find fl p [] fs n Hf Hl).
Qed.

Lemma lstat_of_find fs p n : find fs p = Some n -> lstat fs p = Some n.
Proof.
  intros Hf. unfold lstat.
  rewrite (namei_of_find fs p n false Hf (or_introl eq_refl)). exact Hf.
Qed.

Lemma stat_of_find fs p n :
  find fs p = Some n -> is_link (Some n) = false -> stat fs p = Some n.
Proof.
  intros Hf Hl. unfold stat.
  rewrite (namei_of_find fs p n true Hf (or_intror Hl)). exact Hf.
Qed.

Lemma same_kind_dir fs fs' p a es :
  same_kind (find fs p) (find fs' p) -> find fs p = Some (Dir a es) ->
  exists es', find fs' p = Some (Dir a es').
Proof. intros H E. rewrite E in H. exact H. Qed.

Lemma is_prefix_trans p q r :
  is_prefix p q = true -> is_prefix q r = true -> is_prefix p r = true.
Proof.
  intros H1 H2. apply is_prefix_spec in H1 as [a ->]. apply is_prefix_spec in H2 as [b ->].
  rewrite <- app_assoc. apply is_prefix_app.
Qed.

Lemma is_prefix_dirname p : is_prefix (dirname p) p = true.
Proof.
  destruct p as [|x p'] eqn:E; [reflexivity|]. rewrite <- E.
  rewrite (dirname_basename p) at 2 by (rewrite E; discriminate).
  apply is_prefix_app.
Qed.

Lemma not_prefix_dirname p q :
  is_prefix p q = false -> is_prefix p (dirname q) = false.
Proof.
  intros H. destruct (is_prefix p (dirname q)) eqn:E; [|reflexivity].
  rewrite (is_prefix_trans _ _ _ E (is_prefix_dirname q)) in H. discriminate.
Qed.

(** a file is not above anything that exists *)
Lemma file_not_prefix fs p q m c n :
  find fs p = Some (File m c) -> find fs q = Some n -> p <> q ->
  is_prefix p q = false.
Proof.
  intros Hp Hq Hne. destruct (is_prefix p q) eqn:E; [|reflexivity].
  apply is_prefix_spec in E as [r ->]. rewrite find_app, Hp in Hq.
  destruct r; [rewrite app_nil_r in Hne; contradiction | discriminate].
Qed.

Lemma rename_file_phys fs s d m c a es :
  find fs s = Some (File m c) -> parent_writable fs s = true ->
  find fs (dirname d) = Some (Dir a es) -> writable a = true ->
  find fs d = None ->
  rename s d fs = (put d (File m c) (drop s fs), Ok tt).
Proof.
  intros Hs Hws Hd Hwd Hn. unfold rename.
  rewrite (namei_of_find fs s _ false Hs (or_introl eq_refl)).
  rewrite (namei_phys fs d a es Hd), Hs.
  destruct s as [|x s'] eqn:Es.
  { simpl in Hs. inversion Hs; subst fs. destruct (dirname d); discriminate. }
  rewrite <- Es in *.
  assert (Hne : s <> d) by (intros ->; congruence).
  assert (Hpe : path_eqb s d = false).
  { destruct (path_eqb s d) eqn:E; [|reflexivity].
    apply path_eqb_eq in E. contradiction. }
  assert (Hpre : is_prefix s d = false).
  { destruct (is_prefix s d) eqn:E; [|reflexivity].
    apply is_prefix_spec in E as [r ->].
    destruct r as [|y r]; [rewrite app_nil_r in Hne; contradiction|].
    assert (E2 : is_prefix s (dirname (s ++ y :: r)) = true).
    { destruct (exists_last (l := y :: r) ltac:(discriminate)) as [r' [z Hr]].
      rewrite Hr, app_assoc. unfold dirname. rewrite removelast_last.
      apply is_prefix_app. }
    apply is_prefix_spec in E2 as [r2 E2]. rewrite E2, find_app, Hs in Hd.
    destruct r2; discriminate. }
  rewrite Hpe, Hpre, Hws, (parent_writable_find fs d a es Hd), Hwd, Hn.
  reflexivity.
Qed.

Lemma move_file_phys fs s d m c a es :
  find fs s = Some (File m c) -> parent_writable fs s = true ->
  find fs (dirname d) = Some (Dir a es) -> writable a = true ->
  find fs d = None ->
  move_file s d fs = (put d (File m c) (drop s fs), Ok tt).
Proof.
  intros Hs Hws Hd Hwd Hn. unfold move_file.
  unfold bind at 1. unfold isdir, gets at 1.
  rewrite (stat_phys fs d a es Hd) by (rewrite Hn; reflexivity). rewrite Hn.
  cbn [is_dir]. unfold bind at 1. unfold ret at 1. unfold try_except.
  rewrite (rename_file_phys fs s d m c a es Hs Hws Hd Hwd Hn). reflexivity.
Qed.

(** ** [shutil.rmtree] *)


Lemma rm_node_dir ig pw a es :
  rm_node ig pw (Dir a es)
  = let '(es', e) := rm_entries ig (writable a) es in
    match e with
    | Some c => (Some (Dir a es'), Some c)
    | None =>
        if negb pw then (Some (Dir a es'), Some EACCES)
        else if busy a then (Some (Dir a es'), Some EBUSY)
        else match es' with
             | [] => (None, None)
             | _ => (Some (Dir a es'), Some ENOTEMPTY)
             end
    end.
Proof.
  cbn [rm_node].
  match goal with
  | |- (let '(_, _) := ?f es in _) = _ =>
      assert (H : forall l, f l = rm_entries ig (writable a) l)
  end.
  { induction l as [|[x c] r IH]; [reflexivity|].
    cbn [rm_entries]. rewrite <- IH. reflexivity. }
  rewrite H. reflexivity.
Qed.








(** ** Trees that only grow *)

Lemma entries_ext_refl (R : node -> node -> Prop) es :
  Forall (fun e => R (snd e) (snd e)) es -> entries_ext R es es.
Proof. induction 1 as [|[x c] r Hc _ IH]; simpl; auto. Qed.

Lemma extends_refl n : extends n n.
Proof.
  induction n as [m c | a es IH | t] using node_induction; simpl; auto.
  split; [reflexivity|]. apply entries_ext_refl. exact IH.
Qed.

Lemma extends_trans n1 : forall n2 n3,
  extends n1 n2 -> extends n2 n3 -> extends n1 n3.
Proof.
  induction n1 as [m c | a es IH | t] using node_induction;
    intros n2 n3 H12 H23.
  - destruct n2; try contradiction. destruct n3; try contradiction.
    simpl in *. destruct H12, H23. split; congruence.
  - destruct n2 as [| a2 es2 |]; try contradiction.
    destruct n3 as [| a3 es3 |]; try contradiction.
    simpl in H12, H23. destruct H12 as [-> H12], H23 as [-> H23].
    simpl. split; [reflexivity|]. clear a3.
    revert es2 es3 H12 H23.
    induction IH as [|[x c] r Hc _ IHr]; intros es2 es3 H12 H23.
    + exact I.
    + destruct es2 as [|[x2 c2] r2]; [contradiction|].
      destruct es3 as [|[x3 c3] r3]; [contradiction|].
      simpl in *. destruct H12 as [-> [Hc12 Hr12]], H23 as [-> [Hc23 Hr23]].
      split; [reflexivity|]. split; [exact (Hc _ _ Hc12 Hc23)|].
      exact (IHr _ _ Hr12 Hr23).
  - destruct n2; try contradiction. destruct n3; try contradiction.
    simpl in *. congruence.
Qed.

Lemma entries_ext_lookup es : forall es' x c,
  entries_ext extends es es' -> lookup x es = Some c ->
  exists c', lookup x es' = Some c' /\ extends c c'.
Proof.
  induction es as [|[y u] r IH]; intros es' x c H Hl.
  - discriminate.
  - destruct es' as [|[y' u'] r']; [contradiction|].
    simpl in H. destruct H as [<- [Hu Hr]]. simpl in *.
    destruct (String.eqb x y).
    + inversion Hl; subst. eauto.
    + exact (IH _ _ _ Hr Hl).
Qed.

(** what was there is still there *)
Lemma extends_find p : forall n n' m,
  extends n n' -> find n p = Some m ->
  exists m', find n' p = Some m' /\ extends m m'.
Proof.
  induction p as [|x p IH]; intros n n' m He Hf.
  - simpl in Hf. inversion Hf; subst m. exists n'. split; [reflexivity | exact He].
  - simpl in Hf. destruct n as [| a es |]; try discriminate.
    destruct n' as [| a' es' |]; try contradiction.
    simpl in He. destruct He as [<- He].
    destruct (lookup x es) as [c|] eqn:E; [|discriminate].
    destruct (entries_ext_lookup es es' x c He E) as [c' [Hl Hc]].
    simpl. rewrite Hl. exact (IH _ _ _ Hc Hf).
Qed.

Lemma extends_find_file n n' p m c :
  extends n n' -> find n p = Some (File m c) -> find n' p = Some (File m c).
Proof.
  intros He Hf. destruct (extends_find p n n' _ He Hf) as [m' [Hf' Hm]].
  destruct m'; try contradiction. simpl in Hm. destruct Hm as [<- <-]. exact Hf'.
Qed.

Lemma entries_ext_app es new :
  entries_ext extends es (es ++ new).
Proof.
  induction es as [|[x c] r IH]; simpl; [exact I|].
  split; [reflexivity|]. split; [apply extends_refl | exact IH].
Qed.

Lemma entries_ext_set_entry es : forall x c c',
  lookup x es = Some c -> extends c c' ->
  entries_ext extends es (set_entry x c' es).
Proof.
  induction es as [|[y u] r IH]; intros x c c' Hl Hc; simpl in *.
  - discriminate.
  - destruct (String.eqb x y) eqn:E.
    + inversion Hl; subst u. simpl. split; [reflexivity|]. split; [exact Hc|].
      apply entries_ext_refl. apply Forall_forall. intros e _. apply extends_refl.
    + simpl. split; [reflexivity|]. split; [apply extends_refl|].
      exact (IH _ _ _ Hl Hc).
Qed.

Lemma alter_set_new_extends d x v : forall fs,
  find fs (d ++ [x]) = None -> extends fs (alter_dir (set_entry x v) fs d).
Proof.
  induction d as [|y d IH]; intros fs Hf.
  - destruct fs as [| a es |]; try apply extends_refl.
    simpl in Hf |- *. split; [reflexivity|].
    destruct (lookup x es) eqn:E; [discriminate|].
    rewrite (set_entry_new x v es E). apply entries_ext_app.
  - destruct fs as [| a es |]; try apply extends_refl.
    simpl in Hf. cbn [alter_dir].
    destruct (lookup y es) as [c|] eqn:E; [|apply extends_refl].
    simpl. split; [reflexivity|].
    apply (entries_ext_set_entry es y c); [exact E|].
    exact (IH c Hf).
Qed.

(** an entry put where nothing was *)
Lemma put_new_extends q v fs :
  find fs q = None -> extends fs (put q v fs).
Proof.
  intros Hf. unfold put. apply alter_set_new_extends.
  rewrite <- dirname_basename; [exact Hf|].
  intros ->. discriminate.
Qed.

(** [create] only ever adds *)
Lemma create_extends p v fs : extends fs (fst (create p v fs)).
Proof.
  unfold create. destruct (namei fs false p) as [q|e]; [|apply extends_refl].
  destruct (find fs q) eqn:E; [apply extends_refl|].
  destruct (parent_writable fs q); [|apply extends_refl].
  apply put_new_extends. exact E.
Qed.

Lemma bind_extends {A B} (m : M A) (k : A -> M B) fs :
  extends fs (fst (m fs)) ->
  (forall a fs', extends fs' (fst (k a fs'))) ->
  extends fs (fst (bind m k fs)).
Proof.
  intros Hm Hk. unfold bind. destruct (m fs) as [fs1 [a|e]]; simpl in Hm.
  - apply (extends_trans fs fs1 _ Hm). apply Hk.
  - exact Hm.
Qed.

Lemma try_except_extends {A} (m : M A) (h : oserror -> M A) fs :
  extends fs (fst (m fs)) ->
  (forall e fs', extends fs' (fst (h e fs'))) ->
  extends fs (fst (try_except m h fs)).
Proof.
  intros Hm Hh. unfold try_except. destruct (m fs) as [fs1 [a|e]]; simpl in Hm.
  - exact Hm.
  - apply (extends_trans fs fs1 _ Hm). apply Hh.
Qed.

Lemma gets_extends {A} (f : node -> A) fs : extends fs (fst (gets f fs)).
Proof. apply extends_refl. Qed.

Lemma ret_extends {A} (a : A) fs : extends fs (fst (ret a fs)).
Proof. apply extends_refl. Qed.

Lemma raise_extends {A} e fs : extends fs (fst (@raise A e fs)).
Proof. apply extends_refl. Qed.

Lemma makedirs_extends p fs : extends fs (fst (makedirs p fs)).
Proof.
  unfold makedirs. generalize (rev p) as rp. clear p. intros rp. revert fs.
  induction rp as [|t rh IH]; intros fs.
  - apply extends_refl.
  - cbn [makedirs_rev]. apply bind_extends.
    + apply bind_extends; [apply gets_extends|].
      intros [|] fs'; [apply ret_extends|].
      apply try_except_extends; [apply IH|].
      intros e fs''. destruct (errno_in e [EEXIST]); [apply ret_extends | apply raise_extends].
    + intros _ fs'. apply try_except_extends; [apply create_extends|].
      intros e fs''. apply bind_extends; [apply gets_extends|].
      intros [|] fs3; [apply ret_extends | apply raise_extends].
Qed.

(** a copy onto a name under which nothing exists only adds *)
Lemma copy2_new_extends s t fs :
  is_some (stat fs t) = false -> extends fs (fst (copy2 s t fs)).
Proof.
  intros Ht. unfold copy2.
  assert (Hd : is_dir (stat fs t) = false).
  { destruct (stat fs t) as [[]|]; try discriminate; reflexivity. }
  rewrite Hd.
  destruct (namei fs true s) as [qs|e]; [|apply extends_refl].
  destruct (find fs qs) as [[m c| |]|]; try apply extends_refl.
  unfold stat in Ht.
  destruct (namei fs true t) as [qt|e]; [|apply extends_refl].
  destruct (path_eqb qs qt); [apply extends_refl|].
  destruct (find fs qt) eqn:E; [discriminate|].
  destruct (parent_writable fs qt); [|apply extends_refl].
  apply put_new_extends. exact E.
Qed.

Lemma for_each_extends {A} (body : A -> M unit) :
  (forall x fs, extends fs (fst (body x fs))) ->
  forall l fs, extends fs (fst (for_each l body fs)).
Proof.
  intros H l. induction l as [|x l IH]; intros fs; simpl.
  - apply extends_refl.
  - apply bind_extends; [apply H|]. intros _ fs'. apply IH.
Qed.

(** ** Resolution in a tree that has grown *)

Lemma walk_done_path fl : forall todo cwd cur q,
  walk fl cwd cur todo = Done q -> q = cwd ++ todo.
Proof.
  induction todo as [|x rest IH]; intros cwd cur q H; simpl in H.
  - inversion H. rewrite app_nil_r. reflexivity.
  - destruct cur as [| a es |]; try discriminate.
    destruct (lookup x es) as [c|].
    + assert (Hrec : walk fl (cwd ++ [x]) c rest = Done q -> q = cwd ++ x :: rest).
      { intros H'. rewrite (IH _ _ _ H'), <- app_assoc. reflexivity. }
      destruct c as [| | t]; try (apply Hrec; exact H).
      destruct rest; [|discriminate].
      destruct fl; [discriminate|]. inversion H. reflexivity.
    + destruct rest; [|discriminate]. inversion H. reflexivity.
Qed.

(** [stat] does not end on a link *)
Lemma walk_done_follow_not_link : forall todo cwd cur q n,
  walk true cwd cur todo = Done q -> find cur todo = Some n -> todo <> [] ->
  is_link (Some n) = false.
Proof.
  induction todo as [|x rest IH]; intros cwd cur q n H Hf Hne; simpl in H, Hf.
  - contradiction.
  - destruct cur as [| a es |]; try discriminate.
    destruct (lookup x es) as [c|]; [|discriminate].
    destruct rest as [|y rest'].
    + simpl in Hf. inversion Hf; subst n. destruct c; try reflexivity. discriminate.
    + destruct c as [| a1 es1 | t]; try discriminate.
      exact (IH _ _ _ _ H Hf ltac:(discriminate)).
Qed.

Lemma walk_extends_follow fl : forall todo cwd cur cur' p',
  extends cur cur' ->
  walk fl cwd cur todo = Follow p' -> walk fl cwd cur' todo = Follow p'.
Proof.
  induction todo as [|x rest IH]; intros cwd cur cur' p' He H; simpl in H.
  - discriminate.
  - destruct cur as [| a es |]; try discriminate.
    destruct cur' as [| a' es' |]; try contradiction.
    simpl in He. destruct He as [<- He].
    destruct (lookup x es) as [c|] eqn:E.
    + destruct (entries_ext_lookup es es' x c He E) as [c' [Hl Hc]].
      simpl. rewrite Hl.
      destruct c as [| a1 es1 | t]; destruct c' as [| a2 es2 | t'];
        try contradiction.
      * exact (IH _ _ _ _ Hc H).
      * exact (IH _ _ _ _ Hc H).
      * simpl in Hc. subst t'. exact H.
    + destruct rest; discriminate.
Qed.

(** a link in the middle of a path is followed by [lstat] and [stat] alike *)
Lemma walk_follow_any : forall todo cwd cur p',
  walk false cwd cur todo = Follow p' -> walk true cwd cur todo = Follow p'.
Proof.
  induction todo as [|x rest IH]; intros cwd cur p' H; simpl in H.
  - discriminate.
  - destruct cur as [| a es |]; try discriminate.
    simpl. destruct (lookup x es) as [c|]; [|destruct rest; discriminate].
    destruct c as [| a1 es1 | t].
    + exact (IH _ _ _ H).
    + exact (IH _ _ _ H).
    + destruct rest; [discriminate | exact H].
Qed.

Lemma walk_extends_done root root' fl p q :
  extends root root' ->
  walk fl [] root p = Done q -> is_some (find root q) = true ->
  walk fl [] root' p = Done q.
Proof.
  intros He Ew Hq.
  pose proof (walk_done_path fl p [] root q Ew) as Hp. simpl in Hp. subst q.
  destruct p as [|x p']; [reflexivity|].
  destruct (find root (x :: p')) as [n|] eqn:Ef; [|discriminate].
  destruct (extends_find _ root root' n He Ef) as [n' [Ef' Hn]].
  apply (walk_find fl _ [] root' n' Ef').
  destruct fl; [right | left; reflexivity].
  pose proof (walk_done_follow_not_link _ [] root _ n Ew Ef ltac:(discriminate)) as Hl.
  destruct n; destruct n'; try contradiction; try discriminate; reflexivity.
Qed.

(** a path that resolved to something resolves to the same place *)
Lemma namei_fuel_extends root root' fl : forall fuel p q,
  extends root root' ->
  namei_fuel fuel root fl p = Ok q -> is_some (find root q) = true ->
  namei_fuel fuel root' fl p = Ok q.
Proof.
  induction fuel as [|fuel IH]; intros p q He H Hq; simpl in H |- *.
  - destruct (walk fl [] root p) as [q0|p'|e] eqn:Ew; try discriminate.
    inversion H; subst q0.
    rewrite (walk_extends_done root root' fl p q He Ew Hq). reflexivity.
  - destruct (walk fl [] root p) as [q0|p'|e] eqn:Ew; try discriminate.
    + inversion H; subst q0.
      rewrite (walk_extends_done root root' fl p q He Ew Hq). reflexivity.
    + rewrite (walk_extends_follow fl p [] root root' p' He Ew).
      exact (IH _ _ He H Hq).
Qed.


Lemma stat_extends fs fs' p n :
  extends fs fs' -> stat fs p = Some n ->
  exists n', stat fs' p = Some n' /\ extends n n'.
Proof.
  intros He H. unfold stat, namei in *.
  destruct (namei_fuel MAXSYMLINKS fs true p) as [q|e] eqn:E; [|discriminate].
  rewrite (namei_fuel_extends fs fs' true _ p q He E) by (rewrite H; reflexivity).
  apply (extends_find q fs fs' n He H).
Qed.


Lemma stat_extends_dir fs fs' p :
  extends fs fs' -> is_dir (stat fs p) = true -> is_dir (stat fs' p) = true.
Proof.
  intros He H. destruct (stat fs p) as [[| a es |]|] eqn:E; try discriminate.
  destruct (stat_extends fs fs' p _ He E) as [n' [H' Hn]].
  rewrite H'. destruct n'; try contradiction. reflexivity.
Qed.

(** ** What a successful creation leaves *)

(** a path that resolved to a name that was free resolves to the same
    place once something is there *)
Lemma namei_fuel_extends_new root root' fl : forall fuel p q n,
  extends root root' ->
  namei_fuel fuel root false p = Ok q ->
  find root' q = Some n ->
  (fl = false \/ is_link (Some n) = false) ->
  namei_fuel fuel root' fl p = Ok q.
Proof.
  induction fuel as [|fuel IH]; intros p q n He H Hq Hfl; simpl in H |- *.
  - destruct (walk false [] root p) as [q0|p'|e] eqn:Ew; try discriminate.
    inversion H; subst q0.
    pose proof (walk_done_path false p [] root q Ew) as Hp. simpl in Hp. subst q.
    rewrite (walk_find fl p [] root' n Hq Hfl). reflexivity.
  - destruct (walk false [] root p) as [q0|p'|e] eqn:Ew; try discriminate.
    + inversion H; subst q0.
      pose proof (walk_done_path false p [] root q Ew) as Hp. simpl in Hp. subst q.
      rewrite (walk_find fl p [] root' n Hq Hfl). reflexivity.
    + assert (Ew' : walk fl [] root p = Follow p').
      { destruct fl; [apply walk_follow_any|]; exact Ew. }
      rewrite (walk_extends_follow fl p [] root root' p' He Ew').
      exact (IH _ _ _ He H Hq Hfl).
Qed.

Lemma create_ok fs fs' p v :
  create p v fs = (fs', Ok tt) ->
  exists q,
    namei fs false p = Ok q /\ find fs q = None /\ fs' = put q v fs
    /\ find fs' q = Some v /\ extends fs fs'.
Proof.
  unfold create. destruct (namei fs false p) as [q|e] eqn:En; [|discriminate].
  destruct (find fs q) eqn:Ef; [discriminate|].
  destruct (parent_writable fs q) eqn:Ew; [|discriminate].
  intros H. inversion H; subst fs'. exists q.
  split; [reflexivity|]. split; [exact Ef|]. split; [reflexivity|]. split.
  - unfold parent_writable in Ew.
    destruct (find fs (dirname q)) as [[| a es |]|] eqn:Ed; try discriminate.
    apply (find_put_same q v fs a es); [|exact Ed].
    intros E. subst q. discriminate.
  - apply put_new_extends. exact Ef.
Qed.

(** after a successful creation the path names what was created *)
Lemma create_ok_lstat fs fs' p v :
  create p v fs = (fs', Ok tt) -> lstat fs' p = Some v.
Proof.
  intros H. destruct (create_ok fs fs' p v H) as [q [En [_ [_ [Hf He]]]]].
  unfold lstat, namei.
  rewrite (namei_fuel_extends_new fs fs' false MAXSYMLINKS p q v He En Hf
             (or_introl eq_refl)).
  exact Hf.
Qed.

Lemma create_ok_stat fs fs' p v :
  create p v fs = (fs', Ok tt) -> is_link (Some v) = false -> stat fs' p = Some v.
Proof.
  intros H Hv. destruct (create_ok fs fs' p v H) as [q [En [_ [_ [Hf He]]]]].
  unfold stat, namei.
  rewrite (namei_fuel_extends_new fs fs' true MAXSYMLINKS p q v He En Hf
             (or_intror Hv)).
  exact Hf.
Qed.

(** [os.makedirs(p, exist_ok=True)] that returns leaves a directory at [p] *)
Lemma makedirs_ok_isdir fs fs' p :
  is_dir (Some fs) = true ->
  makedirs p fs = (fs', Ok tt) -> is_dir (stat fs' p) = true.
Proof.
  intros Hroot. unfold makedirs.
  destruct (rev p) as [|t rh] eqn:Er.
  - assert (Hp : p = []).
    { rewrite <- (rev_involutive p), Er. reflexivity. }
    subst p. cbn [makedirs_rev]. intros H. inversion H; subst fs'. exact Hroot.
  - assert (Hp : p = rev rh ++ [t]).
    { rewrite <- (rev_involutive p), Er. reflexivity. }
    cbn [makedirs_rev]. change (rev (t :: rh)) with (rev rh ++ [t]). rewrite <- Hp.
    unfold bind at 1.
    destruct ((b <- exists_ (rev rh);;
               (if b : bool
                then ret tt
                else try_except (makedirs_rev rh)
                       (fun e => if errno_in e [EEXIST] then ret tt else raise e)))
                fs) as [fs1 [[]|e]]; [|discriminate].
    unfold try_except, mkdir.
    destruct (create p (Dir plain []) fs1) as [fs2 [[]|e]] eqn:Ec.
    + intros H. inversion H; subst fs'.
      rewrite (create_ok_stat fs1 fs2 p _ Ec eq_refl). reflexivity.
    + unfold bind, isdir, gets.
      destruct (is_dir (stat fs2 p)) eqn:Ed; [|discriminate].
      intros H. inversion H; subst fs'. exact Ed.
Qed.

Lemma extends_root_dir fs fs' :
  extends fs fs' -> is_dir (Some fs) = true -> is_dir (Some fs') = true.
Proof. destruct fs, fs'; simpl; try contradiction; try discriminate; auto. Qed.

Lemma bind_ok_inv {A B} (m : M A) (k : A -> M B) fs fs' b :
  bind m k fs = (fs', Ok b) ->
  exists fs1 a, m fs = (fs1, Ok a) /\ k a fs1 = (fs', Ok b).
Proof.
  unfold bind. destruct (m fs) as [fs1 [a|e]]; [|discriminate]. eauto.
Qed.

Lemma for_each_ok_cons {A} (x : A) (l : list A) (body : A -> M unit) fs fs' :
  for_each (x :: l) body fs = (fs', Ok tt) ->
  exists fs1, body x fs = (fs1, Ok tt) /\ for_each l body fs1 = (fs', Ok tt).
Proof.
  cbn [for_each]. unfold bind.
  destruct (body x fs) as [fs1 [[]|e]]; [|discriminate]. eauto.
Qed.

Lemma for_each_extends_eq {A} (body : A -> M unit) (l : list A) fs fs' r :
  (forall x fs0, extends fs0 (fst (body x fs0))) ->
  for_each l body fs = (fs', r) -> extends fs fs'.
Proof.
  intros Hb H. pose proof (for_each_extends body Hb l fs) as E.
  rewrite H in E. exact E.
Qed.

(** a loop whose rounds change nothing changes nothing *)
Lemma for_each_unchanged {A} (body : A -> M unit) (l : list A) fs :
  Forall (fun x => body x fs = (fs, Ok tt)) l -> for_each l body fs = (fs, Ok tt).
Proof.
  induction 1 as [|x l Hx _ IH]; [reflexivity|].
  cbn [for_each]. unfold bind. rewrite Hx. exact IH.
Qed.

(** whatever lies above something that exists exists *)
Lemma find_prefix_some fs p q n :
  find fs p = Some n -> is_prefix q p = true -> is_some (find fs q) = true.
Proof.
  intros Hf Hp. apply is_prefix_spec in Hp as [r ->].
  rewrite find_app in Hf. destruct (find fs q); [reflexivity | discriminate].
Qed.

Lemma not_prefix_of_missing fs p q n :
  find fs p = Some n -> find fs q = None -> is_prefix q p = false.
Proof.
  intros Hf Hq. destruct (is_prefix q p) eqn:E; [|reflexivity].
  pose proof (find_prefix_some fs p q n Hf E) as H. rewrite Hq in H. discriminate.
Qed.

(** [os.makedirs] of a name that is free in a directory that exists *)
Lemma makedirs_new fs p a es :
  find fs (dirname p) = Some (Dir a es) -> writable a = true ->
  find fs p = None ->
  makedirs p fs = (put p (Dir plain []) fs, Ok tt).
Proof.
  intros Hd Hw Hf. unfold makedirs.
  destruct (rev p) as [|t rh] eqn:Er.
  - assert (Hp : p = []).
    { rewrite <- (rev_involutive p), Er. reflexivity. }
    subst p. discriminate.
  - assert (Hp : p = rev rh ++ [t]).
    { rewrite <- (rev_involutive p), Er. reflexivity. }
    cbn [makedirs_rev]. change (rev (t :: rh)) with (rev rh ++ [t]). rewrite <- Hp.
    assert (Hh : rev rh = dirname p).
    { rewrite Hp. rewrite dirname_snoc. reflexivity. }
    unfold bind at 1. unfold bind at 1. unfold exists_, gets at 1.
    rewrite Hh, (stat_of_find fs _ _ Hd eq_refl). cbn [is_some].
    unfold ret at 1. unfold try_except, mkdir.
    rewrite (create_phys fs p _ a es Hd Hf Hw). reflexivity.
Qed.

(** [os.makedirs] of a name that a file has *)
Lemma makedirs_on_file fs p m c :
  find fs p = Some (File m c) -> p <> [] ->
  exists e, makedirs p fs = (fs, Raise e).
Proof.
  intros Hf Hne. unfold makedirs.
  destruct (rev p) as [|t rh] eqn:Er.
  - assert (Hp : p = []).
    { rewrite <- (rev_involutive p), Er. reflexivity. }
    contradiction.
  - assert (Hp : p = rev rh ++ [t]).
    { rewrite <- (rev_involutive p), Er. reflexivity. }
    cbn [makedirs_rev]. change (rev (t :: rh)) with (rev rh ++ [t]). rewrite <- Hp.
    destruct (find_dirname fs p _ Hf Hne) as [a [es Hd]].
    assert (Hh : rev rh = dirname p).
    { rewrite Hp. rewrite dirname_snoc. reflexivity. }
    unfold bind at 1. unfold bind at 1. unfold exists_, gets at 1.
    rewrite Hh, (stat_of_find fs _ _ Hd eq_refl). cbn [is_some].
    unfold ret at 1. unfold try_except, mkdir.
    pose proof (stat_of_find fs p _ Hf eq_refl) as Hs.
    assert (Hex : is_some (stat fs p) = true) by (rewrite Hs; reflexivity).
    destruct (create_existing fs p (Dir plain []) Hex) as [e He].
    rewrite He. unfold bind, isdir, gets. rewrite Hs. cbn [is_dir].
    exists e. reflexivity.
Qed.

Lemma open_append_new now fs p a es :
  find fs (dirname p) = Some (Dir a es) -> writable a = true ->
  find fs p = None ->
  open_append now p fs = (put p (File now "") fs, Ok tt).
Proof.
  intros Hd Hw Hf. unfold open_append.
  rewrite (namei_phys_follow fs p a es Hd) by (rewrite Hf; reflexivity).
  rewrite Hf, (parent_writable_find fs p a es Hd), Hw. reflexivity.
Qed.

(** ** Counting entries *)

Lemma entry_count_dir a es : entry_count (Dir a es) = entries_count es.
Proof.
  cbn [entry_count].
  induction es as [|[x c] r IH]; [reflexivity|].
  cbn [entries_count]. rewrite <- IH. reflexivity.
Qed.

Lemma entries_count_app es es' :
  entries_count (es ++ es') = entries_count es + entries_count es'.
Proof.
  induction es as [|[x c] r IH]; [reflexivity|].
  cbn [app entries_count]. rewrite IH. lia.
Qed.

Lemma entries_count_set_entry x c c' : forall es,
  lookup x es = Some c ->
  entries_count (set_entry x c' es) + entry_count c
  = entries_count es + entry_count c'.
Proof.
  induction es as [|[y u] r IH]; intros Hl; [discriminate|].
  cbn [lookup] in Hl. cbn [set_entry].
  destruct (String.eqb x y).
  - inversion Hl; subst u. cbn [entries_count]. lia.
  - cbn [entries_count]. specialize (IH Hl). lia.
Qed.

(** a new entry is one entry more, and what it brings *)
Lemma entry_count_alter_new x v : forall d fs a es,
  find fs d = Some (Dir a es) -> lookup x es = None ->
  entry_count (alter_dir (set_entry x v) fs d)
  = S (entry_count fs + entry_count v).
Proof.
  induction d as [|y d IH]; intros fs a es Hf Hl.
  - cbn [find] in Hf. inversion Hf; subst fs. cbn [alter_dir].
    rewrite !entry_count_dir, (set_entry_new x v es Hl), entries_count_app.
    cbn [entries_count]. lia.
  - cbn [find] in Hf. destruct fs as [| b bs |]; try discriminate.
    destruct (lookup y bs) as [c|] eqn:Ey; [|discriminate].
    cbn [alter_dir]. rewrite Ey. rewrite !entry_count_dir.
    pose proof (entries_count_set_entry y c (alter_dir (set_entry x v) c d) bs Ey) as E.
    rewrite (IH c a es Hf Hl) in E. lia.
Qed.

Lemma entry_count_put_new q v fs a es :
  find fs (dirname q) = Some (Dir a es) -> find fs q = None -> q <> [] ->
  entry_count (put q v fs) = S (entry_count fs + entry_count v).
Proof.
  intros Hd Hf Hq. unfold put.
  apply (entry_count_alter_new _ _ _ _ a es Hd).
  rewrite (dirname_basename q Hq), find_app, Hd in Hf. cbn [find] in Hf.
  destruct (lookup (basename q) es); [discriminate | reflexivity].
Qed.

End FSProps.


(* ===================================================================== *)
(** * Properties of the migration engine *)
(* ===================================================================== *)

Module LinkerProps.
Import FS FSProps Linker.
Local Open Scope list_scope.


Lemma lstat_inv fs p n :
  lstat fs p = Some n -> exists q, namei fs false p = Ok q /\ find fs q = Some n.
Proof.
  unfold lstat. destruct (namei fs false p) as [q|e]; [|discriminate]. eauto.
Qed.




(** making a link where nothing is *)
Lemma ensure_symlink_fresh fs src dst a es :
  find fs (dirname src) = Some (Dir a es) -> writable a = true ->
  find fs src = None ->
  ensure_symlink src dst fs = (put src (Link dst) fs, Ok tt).
Proof.
  intros Hd Hw Hf. unfold ensure_symlink.
  unfold bind at 1.
  rewrite makedirs_existing by (rewrite (stat_of_find fs _ _ Hd eq_refl); reflexivity).
  unfold bind at 1. unfold islink, gets at 1.
  rewrite (lstat_phys fs src a es Hd), Hf. cbn [is_link].
  unfold bind at 1. unfold bind at 1. unfold exists_, gets at 1.
  rewrite (stat_phys fs src a es Hd) by (rewrite Hf; reflexivity).
  rewrite Hf. cbn [is_some]. unfold ret at 1. unfold try_except, symlink.
  rewrite (create_phys fs src (Link dst) a es Hd Hf Hw). reflexivity.
Qed.

Section FileTarget.
Variables (fs : node) (src dst : path) (m : Z) (c : string) (ad : dattr)
          (des : list (name * node)).
Hypothesis Hsrc : find fs src = Some (File m c).
Hypothesis Hw : parent_writable fs src = true.
Hypothesis Hdp : find fs (dirname dst) = Some (Dir ad des).
Hypothesis Hnp : is_prefix dst src = false.

Lemma file_src_nonempty : src <> [].
Proof.
  intros E. rewrite E in Hsrc. simpl in Hsrc. inversion Hsrc as [Hfs].
  rewrite Hfs in Hdp. destruct (dirname dst); discriminate.
Qed.

Lemma file_dst_nonempty : dst <> [].
Proof. intros E. rewrite E in Hnp. discriminate. Qed.

Lemma file_src_not_above_dst : is_prefix src (dirname dst) = false.
Proof.
  destruct (is_prefix src (dirname dst)) eqn:E; [|reflexivity].
  apply is_prefix_spec in E as [r E]. rewrite E, find_app, Hsrc in Hdp.
  destruct r; discriminate.
Qed.

Lemma file_src_not_prefix_dst : is_prefix src dst = false.
Proof.
  destruct (is_prefix src dst) eqn:E; [|reflexivity].
  apply is_prefix_spec in E as [r E].
  destruct r as [|y r].
  - rewrite app_nil_r in E. rewrite E, is_prefix_refl in Hnp. discriminate.
  - pose proof file_src_not_above_dst as H.
    destruct (exists_last (l := y :: r) ltac:(discriminate)) as [r' [z Hr]].
    rewrite E, Hr, app_assoc in H. unfold dirname in H.
    rewrite removelast_last, is_prefix_app in H. discriminate.
Qed.

Lemma file_dispatch now rsync dirlike :
  migrate_path now rsync dirlike src dst fs = migrate_file src dst fs.
Proof.
  unfold migrate_path.
  unfold bind at 1.
  rewrite makedirs_existing by (rewrite (stat_of_find fs _ _ Hdp eq_refl); reflexivity).
  unfold bind at 1. unfold islink, gets at 1.
  rewrite (lstat_of_find fs src _ Hsrc). cbn [is_link].
  unfold bind at 1. unfold isdir, gets at 1.
  rewrite (stat_of_find fs src _ Hsrc eq_refl). cbn [is_dir].
  unfold bind at 1. unfold isfile, gets at 1.
  rewrite (stat_of_find fs src _ Hsrc eq_refl). reflexivity.
Qed.

(** the history path is free: the live file is moved there *)
Lemma migrate_file_moves :
  find fs dst = None -> writable ad = true ->
  migrate_file src dst fs
  = (put src (Link dst) (put dst (File m c) (drop src fs)), Ok tt)
  /\ find (put src (Link dst) (put dst (File m c) (drop src fs))) dst = Some (File m c)
  /\ lstat (put src (Link dst) (put dst (File m c) (drop src fs))) src = Some (Link dst).
Proof.
  intros Hn Hwd.
  pose proof file_src_nonempty as Hs0. pose proof file_dst_nonempty as Hd0.
  pose proof file_src_not_prefix_dst as Hsd.
  destruct (find_dirname fs src _ Hsrc Hs0) as [a [es Hp]].
  set (fs1 := put dst (File m c) (drop src fs)).
  (* the state after the move *)
  assert (Hp0 : exists es0, find (drop src fs) (dirname dst) = Some (Dir ad es0)).
  { apply (same_kind_dir fs _ _ ad des); [|exact Hdp].
    apply find_drop_kind; [exact Hs0|]. apply file_src_not_above_dst. }
  destruct Hp0 as [es0 Hp0].
  assert (Hp1 : exists es1, find fs1 (dirname src) = Some (Dir a es1)).
  { apply (same_kind_dir (drop src fs) _ _ a (del_entry (basename src) es)).
    - apply find_put_kind; [exact Hd0|]. apply not_prefix_dirname. exact Hnp.
    - apply find_drop_parent. exact Hp. }
  destruct Hp1 as [es1 Hp1].
  assert (Hs1 : find fs1 src = None).
  { unfold fs1. rewrite find_put_other.
    - apply find_drop_same. exact Hs0.
    - exact Hd0.
    - exact Hnp.
    - apply file_src_not_above_dst. }
  assert (Hwa : writable a = true).
  { rewrite <- (parent_writable_find fs src a es Hp). exact Hw. }
  assert (Hd1 : find fs1 dst = Some (File m c)).
  { apply (find_put_same dst _ (drop src fs) ad es0 Hd0 Hp0). }
  split; [|split].
  - unfold migrate_file.
    unfold bind at 1. unfold bind at 1. unfold exists_, gets at 1.
    rewrite (stat_phys fs dst ad des Hdp) by (rewrite Hn; reflexivity).
    rewrite Hn. cbn [is_some]. unfold bind at 1.
    rewrite makedirs_existing by (rewrite (stat_of_find fs _ _ Hdp eq_refl); reflexivity).
    rewrite (move_file_phys fs src dst m c ad des Hsrc Hw Hdp Hwd Hn).
    apply (ensure_symlink_fresh fs1 src dst a es1 Hp1 Hwa Hs1).
  - rewrite find_put_other; [exact Hd1 | exact Hs0 | exact Hsd |].
    apply not_prefix_dirname. exact Hnp.
  - pose proof (find_put_parent src (Link dst) fs1 a es1 Hp1) as Hp2.
    rewrite (lstat_phys _ src a _ Hp2).
    apply (find_put_same src (Link dst) fs1 a es1 Hs0 Hp1).
Qed.

(** the history path is taken: the live file is dropped *)
Lemma migrate_file_drops h :
  find fs dst = Some h -> is_some (stat fs dst) = true ->
  migrate_file src dst fs = (put src (Link dst) (drop src fs), Ok tt)
  /\ find (put src (Link dst) (drop src fs)) dst = Some h
  /\ lstat (put src (Link dst) (drop src fs)) src = Some (Link dst).
Proof.
  intros Hh Hl.
  pose proof file_src_nonempty as Hs0.
  pose proof file_src_not_prefix_dst as Hsd.
  destruct (find_dirname fs src _ Hsrc Hs0) as [a [es Hp]].
  pose proof (find_drop_parent src fs a es Hp) as Hp1.
  assert (Hwa : writable a = true).
  { rewrite <- (parent_writable_find fs src a es Hp). exact Hw. }
  split; [|split].
  - unfold migrate_file.
    unfold bind at 1. unfold bind at 1. unfold exists_, gets at 1.
    rewrite Hl.
    rewrite (unlink_phys fs src _ Hsrc eq_refl Hs0 Hw).
    apply (ensure_symlink_fresh (drop src fs) src dst a _ Hp1 Hwa).
    apply find_drop_same. exact Hs0.
  - rewrite find_put_other, find_drop_other; try assumption.
    + apply not_prefix_dirname. exact Hnp.
    + apply not_prefix_dirname. exact Hnp.
  - pose proof (find_put_parent src (Link dst) _ a _ Hp1) as Hp2.
    rewrite (lstat_phys _ src a _ Hp2).
    apply (find_put_same src (Link dst) _ a _ Hs0 Hp1).
Qed.

End FileTarget.

(** The file branch on a live file that is not the history file: a
    live path that is a regular file, reached through real directories
    whose last one is writable, lying outside the history path, with
    the parent directory of the history path in place.  If nothing is
    at the history path the file is moved there, content and time stamp
    unchanged; if the history path exists the live file is removed and
    what the history has is kept.  Either way the live path is then a
    link to the history path. *)
Theorem file_target_migration (now : Z) (rsync dirlike : bool)
        (fs : node) (src dst : path) (m : Z) (c : string)
        (ad : dattr) (des : list (name * node)) :
  find fs src = Some (File m c) ->
  parent_writable fs src = true ->
  find fs (dirname dst) = Some (Dir ad des) ->
  is_prefix dst src = false ->
  (find fs dst = None -> writable ad = true ->
   let fs' := put src (Link dst) (put dst (File m c) (drop src fs)) in
   migrate_path now rsync dirlike src dst fs = (fs', Ok tt)
   /\ find fs' dst = Some (File m c)
   /\ lstat fs' src = Some (Link dst))
  /\ (forall h, find fs dst = Some h -> is_some (stat fs dst) = true ->
      let fs' := put src (Link dst) (drop src fs) in
      migrate_path now rsync dirlike src dst fs = (fs', Ok tt)
      /\ find fs' dst = Some h
      /\ lstat fs' src = Some (Link dst)).
Proof.
  intros Hsrc Hw Hdp Hnp. split.
  - intros Hn Hwd fs'.
    rewrite (file_dispatch fs src dst m c ad des Hsrc Hdp).
    apply (migrate_file_moves fs src dst m c ad des Hsrc Hw Hdp Hnp Hn Hwd).
  - intros h Hh Hl fs'.
    rewrite (file_dispatch fs src dst m c ad des Hsrc Hdp).
    apply (migrate_file_drops fs src dst m c ad des Hsrc Hw Hdp Hnp h Hh Hl).
Qed.

Lemma file_target_migration_witness :
  (migrate_path 0 false false ["c.json"] ["h"; "c.json"] Scenarios.fs_file_live_only
   = (Scenarios.dir [("h", Scenarios.dir [("c.json", File 7 "live")]);
                     ("c.json", Link ["h"; "c.json"])],
      Ok tt))
  /\ (migrate_path 0 false false ["c.json"] ["h"; "c.json"] Scenarios.fs_file_both
      = (Scenarios.dir [("h", Scenarios.dir [("c.json", File 3 "history")]);
                        ("c.json", Link ["h"; "c.json"])],
         Ok tt)).
Proof.
  split.
  - refine (eq_trans
              (proj1 (proj1 (file_target_migration 0 false false
                               Scenarios.fs_file_live_only ["c.json"] ["h"; "c.json"]
                               7 "live" plain [] _ _ _ _) _ _)) _);
      reflexivity.
  - refine (eq_trans
              (proj1 (proj2 (file_target_migration 0 false false
                               Scenarios.fs_file_both ["c.json"] ["h"; "c.json"]
                               7 "live" plain [("c.json", File 3 "history")] _ _ _ _)
                            (File 3 "history") _ _)) _);
      reflexivity.
Defined.

(** Two runs of the file branch that end otherwise.  With a locked
    parent the removal of the live file raises and the live path stays
    a regular file.  And when the live file is reached through a
    directory that is already a link into the history tree, the live
    file is the history file: it is removed, and the link that is made
    points at itself. *)
Lemma file_target_failures :
  (let fs := Scenarios.fs_file_locked in
   is_file (stat fs ["c.json"]) = true
   /\ is_link (lstat fs ["c.json"]) = false
   /\ is_some (stat fs ["h"; "c.json"]) = true
   /\ migrate_and_link 0 false "/" "/h" ["c.json"] fs
      = (fs, Raise (OSError (Some EACCES)))
   /\ lstat fs ["c.json"] <> Some (Link ["h"; "c.json"]))
  /\ (let fs := Scenarios.fs_file_in_linked_dir in
      let fs' := fst (migrate_and_link 0 false "/" "/h" ["data/c.json"] fs) in
      is_file (stat fs ["data"; "c.json"]) = true
      /\ is_link (lstat fs ["data"; "c.json"]) = false
      /\ find fs ["h"; "data"; "c.json"] = Some (File 1 "precious")
      /\ snd (migrate_and_link 0 false "/" "/h" ["data/c.json"] fs) = Ok tt
      /\ find fs' ["h"; "data"; "c.json"] = Some (Link ["h"; "data"; "c.json"])
      /\ find fs' ["h"; "data"; "c.json"] <> Some (File 1 "precious")).
Proof.
  cbv zeta. repeat split; try reflexivity; vm_compute; discriminate.
Qed.



(** ** The exclusion test is read only at the given rule list *)

Lemma bind_ext {A B} (m m' : M A) (k k' : A -> M B) :
  (forall fs, m fs = m' fs) ->
  (forall a fs, k a fs = k' a fs) ->
  forall fs, bind m k fs = bind m' k' fs.
Proof.
  intros Hm Hk fs. unfold bind. rewrite Hm.
  destruct (m' fs) as [fs' [a|e]]; [apply Hk | reflexivity].
Qed.

Lemma fold_m_ext {A B} (body body' : B -> A -> M B) :
  (forall acc x fs, body acc x fs = body' acc x fs) ->
  forall l acc fs, fold_m body l acc fs = fold_m body' l acc fs.
Proof.
  intros H l. induction l as [|x l IH]; intros acc fs; simpl.
  - reflexivity.
  - apply bind_ext; [apply H | exact IH].
Qed.

Lemma track_dir_ext now (ie ie' : string -> list string -> bool)
      hist_dir excludes written d :
  (forall rel, ie rel excludes = ie' rel excludes) ->
  track_dir now ie hist_dir excludes written d
  = track_dir now ie' hist_dir excludes written d.
Proof.
  intros H. unfold track_dir. rewrite H. reflexivity.
Qed.

Lemma track_empty_dirs_ext now (ie ie' : string -> list string -> bool)
      hist_dir rel_targets excludes :
  (forall rel, ie rel excludes = ie' rel excludes) ->
  forall fs,
    track_empty_dirs now ie hist_dir rel_targets excludes fs
    = track_empty_dirs now ie' hist_dir rel_targets excludes fs.
Proof.
  intros H. unfold track_empty_dirs. apply fold_m_ext.
  intros acc rel fs. apply bind_ext; [reflexivity|].
  intros [|] fs'; [|reflexivity].
  apply bind_ext; [reflexivity|].
  intros triples fs''. apply fold_m_ext.
  intros acc' [[d dirs] files] fs3.
  rewrite (track_dir_ext now ie ie' hist_dir excludes acc' d H). reflexivity.
Qed.

Section Grown.
Variable now : Z.

Lemma entries_rel_refl (R : node -> node -> Prop) es :
  Forall (fun e => R (snd e) (snd e)) es -> entries_rel R es es.
Proof.
  induction 1 as [|[x c] r Hc _ IH]; simpl; auto.
Qed.

Lemma grown_refl n : grown now n n.
Proof.
  induction n as [m c | a es IH | t] using node_induction; simpl; auto.
  split; [reflexivity|]. right. apply entries_rel_refl. exact IH.
Qed.

Lemma entries_rel_nil_r (R : node -> node -> Prop) es :
  entries_rel R es [] -> es = [].
Proof. destruct es as [|[x c] r]; simpl; [reflexivity | contradiction]. Qed.

Lemma grown_trans n1 : forall n2 n3,
  grown now n1 n2 -> grown now n2 n3 -> grown now n1 n3.
Proof.
  induction n1 as [m c | a es IH | t] using node_induction;
    intros n2 n3 H12 H23.
  - destruct n2; try contradiction. destruct n3; try contradiction.
    simpl in *. destruct H12, H23. split; congruence.
  - destruct n2 as [| a2 es2 |]; try contradiction.
    destruct n3 as [| a3 es3 |]; try contradiction.
    simpl in H12, H23. destruct H12 as [-> H12], H23 as [-> H23].
    simpl. split; [reflexivity|].
    destruct H12 as [[-> ->] | H12].
    + left. split; [reflexivity|].
      destruct H23 as [[H _] | H23]; [discriminate|].
      simpl in H23. destruct es3 as [|[x3 c3] r3]; [contradiction|].
      destruct H23 as [<- [Hc Hr]]. destruct r3; [|contradiction].
      destruct c3; try contradiction. destruct Hc as [<- <-]. reflexivity.
    + destruct H23 as [[-> ->] | H23].
      * left. apply entries_rel_nil_r in H12. auto.
      * right. clear a3. revert es2 es3 H12 H23.
        induction IH as [|[x c] r Hc _ IHr]; intros es2 es3 H12 H23.
        -- destruct es2 as [|[? ?] ?]; [|contradiction].
           destruct es3 as [|[? ?] ?]; [exact I | contradiction].
        -- destruct es2 as [|[x2 c2] r2]; [contradiction|].
           destruct es3 as [|[x3 c3] r3]; [contradiction|].
           simpl in *. destruct H12 as [-> [Hc12 Hr12]], H23 as [-> [Hc23 Hr23]].
           split; [reflexivity|]. split; [exact (Hc _ _ Hc12 Hc23)|].
           exact (IHr _ _ Hr12 Hr23).
  - destruct n2; try contradiction. destruct n3; try contradiction.
    simpl in *. congruence.
Qed.

Lemma entries_rel_lookup es : forall es' x,
  entries_rel (grown now) es es' ->
  match lookup x es with
  | Some c => exists c', lookup x es' = Some c' /\ grown now c c'
  | None => lookup x es' = None
  end.
Proof.
  induction es as [|[y c] r IH]; intros es' x H.
  - destruct es' as [|[? ?] ?]; [reflexivity | contradiction].
  - destruct es' as [|[y' c'] r']; [contradiction|].
    simpl in H. destruct H as [<- [Hc Hr]]. simpl.
    destruct (String.eqb x y); [eauto | apply IH; exact Hr].
Qed.

(** what was there is still there *)
Lemma grown_find_some p : forall n n' m,
  grown now n n' -> find n p = Some m ->
  exists m', find n' p = Some m' /\ grown now m m'.
Proof.
  induction p as [|x p IH]; intros n n' m Hg Hf.
  - simpl in Hf. inversion Hf; subst m. exists n'. split; [reflexivity | exact Hg].
  - simpl in Hf. destruct n as [| a es |]; try discriminate.
    destruct n' as [| a' es' |]; try contradiction.
    simpl in Hg. destruct Hg as [<- [[-> _] | Hg]]; [discriminate|].
    pose proof (entries_rel_lookup es es' x Hg) as Hl.
    destruct (lookup x es) as [c|]; [|discriminate].
    destruct Hl as [c' [Hl Hc]]. simpl. rewrite Hl. exact (IH _ _ _ Hc Hf).
Qed.

(** what is new is a placeholder in a directory that was empty *)
Lemma grown_find_new p : forall n n' m',
  grown now n n' -> find n p = None -> find n' p = Some m' ->
  m' = File now "" /\ basename p = ".gitkeep"
  /\ exists a, find n (dirname p) = Some (Dir a []).
Proof.
  induction p as [|x p IH]; intros n n' m' Hg Hn Hf.
  - discriminate.
  - simpl in Hf. destruct n' as [| a' es' |]; try discriminate.
    destruct n as [| a es |]; try contradiction.
    simpl in Hg. destruct Hg as [<- [[-> ->] | Hg]].
    + simpl in Hf. destruct (String.eqb x ".gitkeep") eqn:E; [|discriminate].
      apply String.eqb_eq in E. subst x.
      destruct p; [|discriminate]. inversion Hf; subst m'.
      split; [reflexivity|]. split; [reflexivity|]. exists a. reflexivity.
    + pose proof (entries_rel_lookup es es' x Hg) as Hl. simpl in Hn.
      destruct (lookup x es) as [c|] eqn:E.
      * destruct Hl as [c' [Hl Hc]]. rewrite Hl in Hf.
        destruct (IH _ _ _ Hc Hn Hf) as [H1 [H2 [a0 H3]]].
        assert (Hp : p <> []) by (intros ->; discriminate).
        split; [exact H1|]. split.
        -- unfold basename in *. destruct p; [contradiction | exact H2].
        -- exists a0. unfold dirname in *. destruct p; [contradiction|].
           simpl. simpl in H3. rewrite E. exact H3.
      * rewrite Hl in Hf. discriminate.
Qed.

Lemma entries_rel_set_entry es : forall x c c',
  lookup x es = Some c -> grown now c c' ->
  entries_rel (grown now) es (set_entry x c' es).
Proof.
  induction es as [|[y u] r IH]; intros x c c' Hl Hc; simpl in *.
  - discriminate.
  - destruct (String.eqb x y) eqn:E.
    + inversion Hl; subst u. simpl. split; [reflexivity|]. split; [exact Hc|].
      apply entries_rel_refl. apply Forall_forall. intros e _. apply grown_refl.
    + simpl. split; [reflexivity|]. split; [apply grown_refl|].
      exact (IH _ _ _ Hl Hc).
Qed.

(** the one step that changes the tree *)
Lemma put_keep_grown q : forall fs a,
  find fs q = Some (Dir a []) ->
  grown now fs (put (q ++ [".gitkeep"]) (File now "") fs).
Proof.
  unfold put. rewrite dirname_snoc, basename_snoc.
  induction q as [|x q IH]; intros fs a Hf.
  - simpl in Hf. inversion Hf; subst fs. simpl. auto.
  - simpl in Hf. destruct fs as [| a0 es0 |]; try discriminate.
    destruct (lookup x es0) as [c|] eqn:E; [|discriminate].
    simpl. rewrite E. split; [reflexivity|]. right.
    apply (entries_rel_set_entry es0 x c); [exact E|].
    exact (IH c a Hf).
Qed.

End Grown.

Section Track.
Variable now : Z.
Variable is_excluded : string -> list string -> bool.

Lemma listdir_nil fs d fs' :
  listdir d fs = (fs', Ok []) ->
  fs' = fs /\ exists q a, namei fs true d = Ok q /\ find fs q = Some (Dir a []).
Proof.
  unfold listdir. destruct (namei fs true d) as [q|e]; [|intros H; inversion H].
  destruct (find fs q) as [[| a es |]|] eqn:E; intros H; inversion H; subst.
  split; [reflexivity|]. exists q, a. split; [reflexivity|].
  destruct es; [exact E | discriminate].
Qed.

Lemma listdir_state fs d : fst (listdir d fs) = fs.
Proof.
  unfold listdir. destruct (namei fs true d) as [q|e]; [|reflexivity].
  destruct (find fs q) as [[]|]; reflexivity.
Qed.

Lemma open_append_keep_grown fs d q a :
  namei fs true d = Ok q -> find fs q = Some (Dir a []) ->
  grown now fs (fst (open_append now (d ++ [".gitkeep"]) fs)).
Proof.
  intros Hq Hf. unfold open_append.
  unfold namei in *.
  pose proof (namei_fuel_snoc_new fs true ".gitkeep" _ d q a [] Hq Hf eq_refl) as E.
  rewrite E.
  rewrite find_app, Hf. simpl.
  destruct (parent_writable _ _); simpl.
  - apply (put_keep_grown now q fs a Hf).
  - apply grown_refl.
Qed.

Lemma track_dir_grown hist_dir excludes written d fs :
  grown now fs (fst (track_dir now is_excluded hist_dir excludes written d fs)).
Proof.
  unfold track_dir.
  destruct (is_excluded _ excludes); [apply grown_refl|].
  destruct (PyStr.contains _ "/.git/"); [apply grown_refl|].
  unfold bind at 1.
  destruct (listdir d fs) as [fs' [names|e]] eqn:El.
  2:{ simpl. pose proof (listdir_state fs d) as Hs. rewrite El in Hs. simpl in Hs.
      subst fs'. apply grown_refl. }
  destruct names as [|x names].
  2:{ simpl. pose proof (listdir_state fs d) as Hs. rewrite El in Hs. simpl in Hs.
      subst fs'. apply grown_refl. }
  apply listdir_nil in El as [-> [q [a [Hq Hf]]]].
  unfold bind at 1. unfold exists_, gets at 1.
  destruct (is_some (stat fs (d ++ [".gitkeep"]))); [apply grown_refl|].
  unfold bind.
  pose proof (open_append_keep_grown fs d q a Hq Hf) as Hg.
  destruct (open_append now (d ++ [".gitkeep"]) fs) as [fs1 [u|e]]; exact Hg.
Qed.

Lemma fold_m_grown {A} (body : nat -> A -> M nat) :
  (forall acc x fs, grown now fs (fst (body acc x fs))) ->
  forall l acc fs, grown now fs (fst (fold_m body l acc fs)).
Proof.
  intros H l. induction l as [|x l IH]; intros acc fs; simpl.
  - apply grown_refl.
  - unfold bind. pose proof (H acc x fs) as H1.
    destruct (body acc x fs) as [fs1 [acc'|e]]; simpl in H1.
    + apply (grown_trans now fs fs1 _ H1). apply IH.
    + exact H1.
Qed.

Lemma track_empty_dirs_grown hist_dir rel_targets excludes fs :
  grown now fs
        (fst (track_empty_dirs now is_excluded hist_dir rel_targets excludes fs)).
Proof.
  unfold track_empty_dirs. apply fold_m_grown. clear fs.
  intros acc rel fs. unfold bind at 1. unfold isdir, gets at 1.
  destruct (is_dir (stat fs _)); [|apply grown_refl].
  unfold bind at 1. unfold gets at 1.
  apply fold_m_grown. intros acc' [[d dirs] files] fs'.
  apply track_dir_grown.
Qed.

End Track.

(** C10. Whatever the tree, the targets, the rules and the outcome,
    [track_empty_dirs] only adds empty files named [.gitkeep] to
    directories that were empty: every file and every link is found
    afterwards where it was, unchanged, every directory is still a
    directory with its attributes and its entries, and whatever is new
    is such a placeholder. *)
Theorem track_empty_dirs_frame (now : Z) (is_excluded : string -> list string -> bool)
        (hist_dir : string) (rel_targets excludes : list string) (fs : node) :
  let fs' := fst (track_empty_dirs now is_excluded hist_dir rel_targets excludes fs) in
  grown now fs fs'
  /\ (forall p m c, find fs p = Some (File m c) -> find fs' p = Some (File m c))
  /\ (forall p t, find fs p = Some (Link t) -> find fs' p = Some (Link t))
  /\ (forall p a es,
         find fs p = Some (Dir a es) ->
         exists es',
           find fs' p = Some (Dir a es')
           /\ forall x, is_some (lookup x es) = true -> is_some (lookup x es') = true)
  /\ (forall p n',
         find fs p = None -> find fs' p = Some n' ->
         n' = File now "" /\ basename p = ".gitkeep"
         /\ exists a, find fs (dirname p) = Some (Dir a [])).
Proof.
  intros fs'.
  assert (Hg : grown now fs fs') by apply track_empty_dirs_grown.
  split; [exact Hg|]. split; [|split; [|split]].
  - intros p m c Hf.
    destruct (grown_find_some now p fs fs' _ Hg Hf) as [m' [Hf' Hm]].
    destruct m'; try contradiction. simpl in Hm. destruct Hm as [<- <-]. exact Hf'.
  - intros p t Hf.
    destruct (grown_find_some now p fs fs' _ Hg Hf) as [m' [Hf' Hm]].
    destruct m'; try contradiction. simpl in Hm. subst. exact Hf'.
  - intros p a es Hf.
    destruct (grown_find_some now p fs fs' _ Hg Hf) as [m' [Hf' Hm]].
    destruct m' as [| a' es' |]; try contradiction.
    simpl in Hm. destruct Hm as [<- Hm]. exists es'. split; [exact Hf'|].
    intros x Hx. destruct Hm as [[-> _] | Hm]; [discriminate|].
    pose proof (entries_rel_lookup now es es' x Hm) as Hl.
    destruct (lookup x es); [|discriminate].
    destruct Hl as [c' [-> _]]. reflexivity.
  - intros p n' Hn Hf. exact (grown_find_new now p fs fs' n' Hg Hn Hf).
Qed.

Lemma track_empty_dirs_frame_witness :
  let fs' := fst (track_empty_dirs 0 (fun _ _ => false) "/h" ["data/"] []
                                   Scenarios.fs_repo) in
  find fs' ["h"; ".git"; "HEAD"] = Some (File 1 "ref: refs/heads/main")
  /\ find fs' ["h"; "data"; "w"; ".gitkeep"] = Some (File 0 "").
Proof.
  intros fs'. split.
  - apply (proj1 (proj2 (track_empty_dirs_frame 0 (fun _ _ => false) "/h" ["data/"] []
                           Scenarios.fs_repo))).
    reflexivity.
  - reflexivity.
Defined.

(** ** The fallback: a directory of links *)

Section Fallback.
Variables (src dst : path) (a : dattr).
Hypothesis Hw : writable a = true.
Hypothesis Hsd : is_prefix src dst = false.
Hypothesis Hds : is_prefix dst src = false.





End Fallback.







(** ** The copy loop without [rsync] *)

Lemma guarded_copy_extends s t fs :
  extends fs (fst ((e <- exists_ t ;; if e : bool then ret tt else copy2 s t) fs)).
Proof.
  unfold bind, exists_, gets.
  destruct (is_some (stat fs t)) eqn:E; [apply extends_refl|].
  apply copy2_new_extends. exact E.
Qed.

(** the copy loop only adds: nothing that exists is overwritten *)
Lemma merge_copy_extends src dst fs : extends fs (fst (merge_copy src dst fs)).
Proof.
  unfold merge_copy. apply bind_extends; [apply gets_extends|].
  intros triples fs'. apply for_each_extends.
  intros [[root dirs] files] fs1.
  apply bind_extends; [apply makedirs_extends|].
  intros _ fs2. apply for_each_extends.
  intros fn fs3. apply guarded_copy_extends.
Qed.

(** every file keeps its content and its time stamp through the copy
    loop, whatever the two directories are and however the loop ends *)
Lemma merge_copy_keeps_files src dst fs p m c :
  find fs p = Some (File m c) ->
  find (fst (merge_copy src dst fs)) p = Some (File m c).
Proof.
  intros Hf. apply (extends_find_file fs _ p m c (merge_copy_extends src dst fs) Hf).
Qed.

(** C1. What the code does with a file that both sides have, when
    [rsync] is there: the history file is replaced by the live one.
    The copy loop that is used without [rsync] keeps the history file.
    Both add the file that only the live side has. *)
Theorem rsync_merge_overwrites_history :
  let run := fun rsync =>
    fst (migrate_and_link 0 rsync "/" "/h" ["data/"] Scenarios.fs_dir_conflict) in
  find Scenarios.fs_dir_conflict ["h"; "data"; "x"] = Some (File 1 "old contents")
  /\ find Scenarios.fs_dir_conflict ["data"; "x"] = Some (File 2 "new")
  /\ find (run true) ["h"; "data"; "x"] = Some (File 2 "new")
  /\ find (run false) ["h"; "data"; "x"] = Some (File 1 "old contents")
  /\ find (run true) ["h"; "data"; "a"] = Some (File 2 "A")
  /\ find (run false) ["h"; "data"; "a"] = Some (File 2 "A")
  /\ lstat (run true) ["data"] = Some (Link ["h"; "data"])
  /\ lstat (run false) ["data"] = Some (Link ["h"; "data"]).
Proof.
  cbv zeta. repeat split; vm_compute; reflexivity.
Qed.

(** C8. What the code does when a target maps onto the history root:
    the walk reaches [/h/.git/refs], [lstrip("./")] turns its relative
    path [.git/refs] into [git/refs], the test for [/.git/] does not
    see it, and a placeholder is written inside the repository's
    metadata.  The nested [/h/data/.git/refs], whose relative path does
    not begin with a dot, is skipped as intended. *)
Theorem placeholder_inside_git (is_excluded : string -> list string -> bool) :
  (forall rel, is_excluded rel [] = false) ->
  PyStr.lstrip "./" (relpath ["h"; ".git"; "refs"] (parse (PosixPath.normpath "/h")))
  = "git/refs"
  /\ track_empty_dirs 0 is_excluded "/h" ["./"] [] Scenarios.fs_repo
     = (Scenarios.dir
          [("h", Scenarios.dir
                   [(".git", Scenarios.dir
                               [("HEAD", File 1 "ref: refs/heads/main");
                                ("refs", Scenarios.dir [(".gitkeep", File 0 "")])]);
                    ("data", Scenarios.dir
                               [("w", Scenarios.dir [(".gitkeep", File 0 "")]);
                                (".git", Scenarios.dir [("refs", Scenarios.dir [])])])])],
        Ok 2).
Proof.
  intros H. split; [reflexivity|].
  rewrite (track_empty_dirs_ext 0 is_excluded (fun _ _ => false) "/h" ["./"] []
             (fun rel => H rel)).
  vm_compute. reflexivity.
Qed.

Lemma placeholder_inside_git_witness :
  find (fst (track_empty_dirs 0 (fun _ _ => false) "/h" ["./"] [] Scenarios.fs_repo))
       ["h"; ".git"; "refs"; ".gitkeep"]
  = Some (File 0 "").
Proof.
  rewrite (proj2 (placeholder_inside_git (fun _ _ => false) (fun _ => eq_refl))).
  reflexivity.
Defined.

(** ** The components of the two paths of a target *)

Section Components.
Import PyStr PosixPath ConfigProps.

Lemma split_on_app_sep (c : ascii) (a b : string) :
  split_on c (a ++ String c b)%string = split_on c a ++ split_on c b.
Proof.
  induction a as [|x a IH]; simpl.
  - rewrite Ascii.eqb_refl. reflexivity.
  - destruct (Ascii.eqb x c); [rewrite IH; reflexivity|].
    rewrite IH. pose proof (split_on_not_nil c a) as Hn.
    destruct (split_on c a) as [|h t]; [contradiction|]. reflexivity.
Qed.

Lemma parse_app_sep (a b : string) :
  parse (a ++ String sep_char b)%string = parse a ++ parse b.
Proof. unfold parse. rewrite split_on_app_sep, filter_app. reflexivity. Qed.

Lemma parse_empty : parse "" = [].
Proof. reflexivity. Qed.

Lemma parse_lstrip (s : string) : parse (lstrip "/" s) = parse s.
Proof.
  induction s as [|a s IH]; [reflexivity|].
  cbn [lstrip mem_char]. destruct (Ascii.eqb a "/") eqn:E; [|reflexivity].
  apply Ascii.eqb_eq in E. subst a. cbn [orb]. rewrite IH.
  change (String "/" s) with ("" ++ String sep_char s)%string.
  rewrite parse_app_sep. reflexivity.
Qed.

Lemma parse_repeat_sep (n : nat) : parse (repeat_string sep n) = [].
Proof.
  induction n as [|n IH]; [reflexivity|].
  change (repeat_string sep (S n)) with ("" ++ String sep_char (repeat_string sep n))%string.
  rewrite parse_app_sep, IH. reflexivity.
Qed.

(** what [lstrip] removes *)
Lemma lstrip_sep_split (s : string) :
  exists n, s = (repeat_string sep n ++ lstrip "/" s)%string.
Proof.
  induction s as [|a s [n IH]].
  - exists 0. reflexivity.
  - cbn [lstrip mem_char]. destruct (Ascii.eqb a "/") eqn:E.
    + apply Ascii.eqb_eq in E. subst a. exists (S n). simpl. f_equal. exact IH.
    + exists 0. reflexivity.
Qed.

Lemma rev_string_repeat_sep (n : nat) :
  rev_string (repeat_string sep n) = repeat_string sep n.
Proof.
  induction n as [|n IH]; [reflexivity|]. simpl. rewrite IH.
  clear IH. induction n as [|n IH]; [reflexivity|]. simpl. rewrite IH. reflexivity.
Qed.

Lemma rstrip_sep_split (s : string) :
  exists n, s = (rstrip "/" s ++ repeat_string sep n)%string.
Proof.
  destruct (lstrip_sep_split (rev_string s)) as [n H]. exists n.
  unfold rstrip. rewrite <- (rev_string_involutive s) at 1.
  rewrite H at 1. rewrite rev_string_app, rev_string_repeat_sep. reflexivity.
Qed.

Lemma parse_app_repeat_sep (r : string) (n : nat) :
  parse (r ++ repeat_string sep n)%string = parse r.
Proof.
  destruct n as [|n]; [rewrite append_empty_r; reflexivity|].
  change (repeat_string sep (S n)) with (String sep_char (repeat_string sep n)).
  rewrite parse_app_sep, parse_repeat_sep, app_nil_r. reflexivity.
Qed.

Lemma parse_rstrip (s : string) : parse (rstrip "/" s) = parse s.
Proof.
  destruct (rstrip_sep_split s) as [n H]. rewrite H at 2.
  rewrite parse_app_repeat_sep. reflexivity.
Qed.

Lemma endswith_sep_split (a : string) :
  endswith a sep = true -> exists a', a = (a' ++ sep)%string.
Proof.
  unfold endswith. change (rev_string sep) with sep. intros H.
  destruct (rev_string a) as [|x r] eqn:E; [discriminate|].
  simpl in H. apply andb_true_iff in H as [H _]. apply Ascii.eqb_eq in H. subst x.
  exists (rev_string r). rewrite <- (rev_string_involutive a), E. reflexivity.
Qed.

(** joining puts the components of the second path after those of the
    first *)
Lemma parse_join2 (a b : string) :
  startswith b sep = false -> parse (join2 a b) = parse a ++ parse b.
Proof.
  intros Hb. unfold join2. rewrite Hb.
  destruct (truthy a) eqn:Ta.
  - cbn [negb orb]. destruct (endswith a sep) eqn:Ea.
    + destruct (endswith_sep_split a Ea) as [a' ->].
      rewrite append_assoc. change (sep ++ b)%string with (String sep_char b).
      rewrite parse_app_sep. change sep with (String sep_char "").
      rewrite parse_app_sep, parse_empty, app_nil_r. reflexivity.
    + change (a ++ sep ++ b)%string with (a ++ String sep_char b)%string.
      apply parse_app_sep.
  - destruct a; [reflexivity | discriminate].
Qed.

Lemma fold_norm_step_no_up (k : nat) (comps : list string) : forall acc,
  Forall (fun c => c <> "..") comps ->
  fold_left (norm_step k) comps acc = acc ++ filter kept comps.
Proof.
  induction comps as [|c comps IH]; intros acc H; simpl.
  - rewrite app_nil_r. reflexivity.
  - inversion H as [|? ? Hc Hr]; subst. rewrite (IH _ Hr).
    unfold norm_step, kept.
    destruct (String.eqb c "" || String.eqb c "."); cbn [negb].
    + reflexivity.
    + destruct (String.eqb c "..") eqn:E.
      * apply String.eqb_eq in E. contradiction.
      * cbn [negb orb]. rewrite <- app_assoc. reflexivity.
Qed.

Lemma filter_kept_plain (l : list string) :
  Forall (fun c => sep_free c = true) l ->
  Forall (fun c => plain_comp c = true) (filter kept l).
Proof.
  induction 1 as [|c l Hc _ IH]; simpl; [constructor|].
  destruct (kept c) eqn:E; [|exact IH].
  constructor; [|exact IH].
  unfold kept in E. apply negb_true_iff, orb_false_iff in E as [E1 E2].
  unfold plain_comp. rewrite E1, E2, Hc. reflexivity.
Qed.

Lemma filter_kept_id (l : list string) :
  Forall (fun c => plain_comp c = true) l -> filter kept l = l.
Proof.
  induction 1 as [|c l Hc _ IH]; simpl; [reflexivity|].
  destruct (plain_comp_inv c Hc) as [E1 [E2 _]].
  assert (Hk : kept c = true) by (unfold kept; rewrite E1, E2; reflexivity).
  rewrite Hk, IH. reflexivity.
Qed.

(** the components of the string that [normpath] puts together *)
Lemma parse_joined (k : nat) (l : list string) :
  Forall (fun c => plain_comp c = true) l ->
  parse (repeat_string sep k ++ join sep l)%string = l.
Proof.
  intros Hl. induction k as [|k IH].
  - cbn [repeat_string String.append]. destruct l as [|c l]; [reflexivity|].
    unfold parse. rewrite split_join.
    + apply filter_kept_id. exact Hl.
    + discriminate.
    + eapply Forall_impl; [|exact Hl]. intros x Hx. apply (plain_comp_inv x Hx).
  - change (repeat_string sep (S k) ++ join sep l)%string
      with ("" ++ String sep_char (repeat_string sep k ++ join sep l))%string.
    rewrite parse_app_sep, IH. reflexivity.
Qed.

(** normalising a path without [..] keeps its components *)
Lemma parse_normpath (s : string) :
  Forall (fun c => c <> "..") (parse s) -> parse (normpath s) = parse s.
Proof.
  intros H. unfold normpath.
  destruct (String.eqb s "") eqn:E.
  - apply String.eqb_eq in E. subst s. reflexivity.
  - cbv zeta.
    assert (Hc : Forall (fun c => c <> "..") (split_on sep_char s)).
    { apply Forall_forall. intros c Hin Hup. subst c.
      assert (Hp : In ".." (parse s)).
      { unfold parse. apply filter_In. split; [exact Hin | reflexivity]. }
      rewrite Forall_forall in H. exact (H _ Hp eq_refl). }
    rewrite (fold_norm_step_no_up _ _ [] Hc). cbn [app].
    fold (kept). change (filter kept (split_on sep_char s)) with (parse s).
    pose proof (filter_kept_plain _ (split_on_sep_free s)) as Hp.
    change (filter kept (split_on sep_char s)) with (parse s) in Hp.
    pose proof (parse_joined (initial_slashes_of s) (parse s) Hp) as Hj.
    destruct (truthy (repeat_string sep (initial_slashes_of s) ++ join sep (parse s))%string)
      eqn:Ht.
    + exact Hj.
    + destruct (repeat_string sep (initial_slashes_of s) ++ join sep (parse s))%string;
        [|discriminate].
      rewrite <- Hj. reflexivity.
Qed.

End Components.

(** X11. The two paths of a target have the components of the target below
    those of their root: the live path is [base] followed by [rel], the
    history path is [hist] followed by [rel], provided no component is
    [..]; a separator at the end of the target does not count. *)
Theorem target_paths_mirror (base hist rel : string) :
  Forall (fun c => c <> "..") (parse base ++ parse hist ++ parse rel) ->
  parse (Config.to_under_hist hist rel) = parse hist ++ parse rel
  /\ (PyStr.startswith rel "/" = false ->
      parse (Config.to_abs_under_base base rel) = parse base ++ parse rel)
  /\ parse (PyStr.rstrip "/" rel) = parse rel.
Proof.
  intros H. apply Forall_app in H as [Hb H]. apply Forall_app in H as [Hh Hr].
  assert (Hl : PyStr.startswith (PyStr.lstrip "/" rel) PosixPath.sep = false).
  { apply (ConfigProps.lstrip_no_leading "/"%char). }
  split; [|split].
  - unfold Config.to_under_hist.
    rewrite parse_normpath; rewrite (parse_join2 _ _ Hl), parse_lstrip.
    + reflexivity.
    + apply Forall_app. split; assumption.
  - intros Hrel. unfold Config.to_abs_under_base. rewrite Hrel.
    destruct (String.eqb base "/") eqn:E.
    + apply String.eqb_eq in E. subst base.
      change ("/" ++ rel)%string with ("" ++ String PosixPath.sep_char rel)%string.
      rewrite parse_app_sep. reflexivity.
    + rewrite parse_normpath; rewrite (parse_join2 _ _ Hrel).
      * reflexivity.
      * apply Forall_app. split; assumption.
  - apply parse_rstrip.
Qed.

Lemma target_paths_mirror_witness :
  parse (Config.to_under_hist "/home/user/.backup" "srv//app/./data")
  = ["home"; "user"; ".backup"; "srv"; "app"; "data"]
  /\ parse (Config.to_abs_under_base "/mnt/" "srv//app/./data")
     = ["mnt"; "srv"; "app"; "data"].
Proof.
  pose proof (target_paths_mirror "/mnt/" "/home/user/.backup" "srv//app/./data")
    as [H1 [H2 _]].
  - repeat constructor; discriminate.
  - split; [exact H1 | exact (H2 eq_refl)].
Defined.

(** ** [ensure_symlink], whatever it finds *)

(** X1. When [ensure_symlink(src, dst)] returns, [src] is a symbolic link
    whose target is [dst], whatever was at [src] before and whatever
    had to be created or removed on the way; every other outcome is an
    [OSError]. *)
Theorem ensure_symlink_establishes_link (fs fs' : node) (src dst : path) :
  ensure_symlink src dst fs = (fs', Ok tt) ->
  lstat fs' src = Some (Link dst)
  /\ readlink src fs' = (fs', Ok dst).
Proof.
  intros H.
  assert (Hl : lstat fs' src = Some (Link dst)).
  { revert H. unfold ensure_symlink.
    unfold bind at 1.
    destruct (makedirs (dirname src) fs) as [fs1 [[]|e]]; [|discriminate].
    unfold bind at 1. unfold islink, gets at 1.
    unfold bind at 1.
    destruct (is_link (lstat fs1 src)) eqn:Elink.
    - unfold bind at 1. unfold readlink at 1.
      destruct (lstat fs1 src) as [[| |cur]|] eqn:El; try discriminate.
      destruct (lstat_inv fs1 src _ El) as [q [En Ef]]. rewrite En, Ef.
      destruct (path_eqb cur dst) eqn:Ep.
      + apply path_eqb_eq in Ep. subst cur.
        unfold ret. intros H. inversion H; subst fs'. exact El.
      + unfold bind at 1.
        destruct (unlink src fs1) as [fs2 [[]|e]]; [|discriminate].
        unfold ret at 1. unfold try_except, symlink.
        destruct (create src (Link dst) fs2) as [fs3 [[]|e]] eqn:Ec;
          [|discriminate].
        intros H. inversion H; subst fs'. apply (create_ok_lstat _ _ _ _ Ec).
    - unfold bind at 1. unfold exists_, gets at 1.
      destruct (is_some (stat fs1 src)).
      + unfold bind at 1.
        destruct ((d <- isdir src;;
                   (if d : bool then rmtree false src else unlink src)) fs1)
          as [fs2 [[]|e]]; [|discriminate].
        unfold ret at 1. unfold try_except, symlink.
        destruct (create src (Link dst) fs2) as [fs3 [[]|e]] eqn:Ec;
          [|discriminate].
        intros H. inversion H; subst fs'. apply (create_ok_lstat _ _ _ _ Ec).
      + unfold ret at 1. unfold try_except, symlink.
        destruct (create src (Link dst) fs1) as [fs3 [[]|e]] eqn:Ec;
          [|discriminate].
        intros H. inversion H; subst fs'. apply (create_ok_lstat _ _ _ _ Ec). }
  split; [exact Hl|].
  unfold readlink. destruct (lstat_inv fs' src _ Hl) as [q [En Ef]].
  rewrite En, Ef. reflexivity.
Qed.

Lemma ensure_symlink_establishes_link_witness :
  lstat (put ["cache"] (Link ["h"; "cache"]) (drop ["cache"] Scenarios.fs_live_mixed))
        ["cache"]
  = Some (Link ["h"; "cache"]).
Proof.
  apply (ensure_symlink_establishes_link Scenarios.fs_live_mixed _
           ["cache"] ["h"; "cache"]).
  reflexivity.
Defined.

(** ** One round of [migrate_and_link] *)

(** X2. A round that returns for a target whose live path is a link, a
    regular file or missing leaves the live path a symbolic link to the
    history path.  (For a live directory the round may instead fall
    back to links inside the directory.)  The parent directory of the
    history path is in place, as [precreate_dirlike] leaves it. *)
Theorem migrate_path_links (now : Z) (rsync dirlike : bool)
        (fs fs' : node) (src dst : path) :
  is_dir (stat fs (dirname dst)) = true ->
  is_link (lstat fs src) = true \/ is_dir (stat fs src) = false ->
  migrate_path now rsync dirlike src dst fs = (fs', Ok tt) ->
  lstat fs' src = Some (Link dst).
Proof.
  intros Hd Hk. unfold migrate_path.
  unfold bind at 1. rewrite (makedirs_existing fs _ Hd).
  unfold bind at 1. unfold islink, gets at 1.
  destruct (is_link (lstat fs src)) eqn:El.
  - intros H. apply (ensure_symlink_establishes_link _ _ _ _ H).
  - destruct Hk as [Hk|Hk]; [discriminate|].
    unfold bind at 1. unfold isdir, gets at 1. rewrite Hk.
    unfold bind at 1. unfold isfile, gets at 1.
    destruct (is_file (stat fs src)).
    + unfold migrate_file. intros H.
      destruct (bind_ok_inv _ _ _ _ _ H) as [fs1 [e [_ H1]]].
      destruct (bind_ok_inv _ _ _ _ _ H1) as [fs2 [[] [_ H2]]].
      apply (ensure_symlink_establishes_link _ _ _ _ H2).
    + unfold create_missing. intros H.
      destruct (bind_ok_inv _ _ _ _ _ H) as [fs1 [[] [_ H1]]].
      apply (ensure_symlink_establishes_link _ _ _ _ H1).
Qed.

Lemma migrate_path_links_witness :
  exists fs',
    migrate_path 0 false false ["etc"; "app.conf"] ["h"; "etc"; "app.conf"]
                 (fst (precreate_dirlike "/h" ["etc/app.conf"] Scenarios.fs_live_mixed))
    = (fs', Ok tt)
    /\ lstat fs' ["etc"; "app.conf"] = Some (Link ["h"; "etc"; "app.conf"]).
Proof.
  eexists. split; [reflexivity|].
  apply (migrate_path_links 0 false false
           (fst (precreate_dirlike "/h" ["etc/app.conf"] Scenarios.fs_live_mixed))
           _ ["etc"; "app.conf"] ["h"; "etc"; "app.conf"]).
  - reflexivity.
  - right. reflexivity.
  - reflexivity.
Defined.

(** ** [precreate_dirlike] *)

(** the directory that [precreate_dirlike] makes for the target [rel] *)
Lemma precreate_body_extends hist_dir rel fs :
  extends fs
    (fst ((let rel_clean := PyStr.rstrip "/" rel in
           let dst := parse (Config.to_under_hist hist_dir rel_clean) in
           if PyStr.endswith rel "/" then makedirs dst
           else makedirs (dirname dst)) fs)).
Proof.
  cbv zeta. destruct (PyStr.endswith rel "/"); apply makedirs_extends.
Qed.

(** X5. [precreate_dirlike] only adds directories: whether it returns or
    raises, every file, link and directory that was there is there
    afterwards, unchanged except for the entries added to
    directories. *)
Theorem precreate_dirlike_only_adds (hist_dir : string) (rel_targets : list string)
        (fs : node) :
  let fs' := fst (precreate_dirlike hist_dir rel_targets fs) in
  extends fs fs'
  /\ (forall p m c, find fs p = Some (File m c) -> find fs' p = Some (File m c))
  /\ (forall p t, find fs p = Some (Link t) -> find fs' p = Some (Link t))
  /\ (forall p a es, find fs p = Some (Dir a es) ->
                     exists es', find fs' p = Some (Dir a es')).
Proof.
  cbv zeta.
  assert (He : extends fs (fst (precreate_dirlike hist_dir rel_targets fs))).
  { unfold precreate_dirlike. apply for_each_extends.
    intros rel fs0. apply precreate_body_extends. }
  split; [exact He|]. split; [|split].
  - intros p m c Hf. apply (extends_find_file _ _ p m c He Hf).
  - intros p t Hf. destruct (extends_find p _ _ _ He Hf) as [n' [Hf' Hn]].
    destruct n'; try contradiction. simpl in Hn. subst. exact Hf'.
  - intros p a es Hf. destruct (extends_find p _ _ _ He Hf) as [n' [Hf' Hn]].
    destruct n' as [| a' es' |]; try contradiction. destruct Hn as [<- _].
    exists es'. exact Hf'.
Qed.

(** the directory that a target needs in the history *)
Lemma precreate_dirlike_makes_aux hist_dir : forall rel_targets fs fs',
  is_dir (Some fs) = true ->
  precreate_dirlike hist_dir rel_targets fs = (fs', Ok tt) ->
  Forall (fun rel =>
            is_dir (stat fs' (needed_dir hist_dir rel)) = true) rel_targets.
Proof.
  unfold precreate_dirlike.
  induction rel_targets as [|rel rest IH]; intros fs fs' Hroot H.
  - constructor.
  - destruct (for_each_ok_cons _ _ _ _ _ H) as [fs1 [H1 H2]].
    assert (He1 : extends fs fs1).
    { pose proof (precreate_body_extends hist_dir rel fs) as E.
      cbv zeta in E. cbv zeta in H1. rewrite H1 in E. exact E. }
    assert (He2 : extends fs1 fs').
    { apply (for_each_extends_eq _ _ _ _ _
               (fun x fs0 => precreate_body_extends hist_dir x fs0) H2). }
    pose proof (extends_root_dir _ _ He1 Hroot) as Hroot1.
    constructor.
    + apply (stat_extends_dir fs1 fs' _ He2).
      unfold needed_dir. cbv zeta in H1.
      destruct (PyStr.endswith rel "/");
        apply (makedirs_ok_isdir fs fs1 _ Hroot H1).
    + apply (IH fs1 fs' Hroot1 H2).
Qed.

(** X6. When [precreate_dirlike] returns, the history holds a directory for
    every target: the mirror of the target itself when its name ends
    with a separator, the parent of the mirror otherwise. *)
Theorem precreate_dirlike_makes_directories (hist_dir : string)
        (rel_targets : list string) (fs fs' : node) :
  is_dir (Some fs) = true ->
  precreate_dirlike hist_dir rel_targets fs = (fs', Ok tt) ->
  Forall (fun rel =>
            is_dir (stat fs' (needed_dir hist_dir rel)) = true) rel_targets.
Proof. apply precreate_dirlike_makes_aux. Qed.

Lemma precreate_dirlike_makes_directories_witness :
  Forall (fun rel =>
            is_dir (stat Scenarios.fs_precreated (needed_dir "/h" rel)) = true)
         ["data/"; "etc/app.conf"].
Proof.
  apply (precreate_dirlike_makes_directories "/h" ["data/"; "etc/app.conf"]
           Scenarios.fs_empty).
  - reflexivity.
  - reflexivity.
Defined.

(** X7. [precreate_dirlike] is idempotent: run again on the tree it left,
    it returns without changing anything. *)
Theorem precreate_dirlike_idempotent (hist_dir : string)
        (rel_targets : list string) (fs fs' : node) :
  is_dir (Some fs) = true ->
  precreate_dirlike hist_dir rel_targets fs = (fs', Ok tt) ->
  precreate_dirlike hist_dir rel_targets fs' = (fs', Ok tt).
Proof.
  intros Hroot H.
  pose proof (precreate_dirlike_makes_aux hist_dir rel_targets fs fs' Hroot H) as Hall.
  unfold precreate_dirlike. apply for_each_unchanged.
  eapply Forall_impl; [|exact Hall]. intros rel Hd. cbv zeta.
  unfold needed_dir in Hd.
  destruct (PyStr.endswith rel "/"); apply makedirs_existing; exact Hd.
Qed.

Lemma precreate_dirlike_idempotent_witness :
  precreate_dirlike "/h" ["data/"; "etc/app.conf"] Scenarios.fs_precreated
  = (Scenarios.fs_precreated, Ok tt).
Proof.
  apply (precreate_dirlike_idempotent "/h" ["data/"; "etc/app.conf"]
           Scenarios.fs_empty).
  - reflexivity.
  - reflexivity.
Defined.

(** ** A target that the live side does not have *)

Section MissingTarget.
Variables (now : Z) (rsync : bool) (fs : node) (src dst : path)
          (a b : dattr) (es des : list (name * node)).
Hypothesis Hsp : find fs (dirname src) = Some (Dir a es).
Hypothesis Hsw : writable a = true.
Hypothesis Hsrc : find fs src = None.
Hypothesis Hdp : find fs (dirname dst) = Some (Dir b des).
Hypothesis Hne : src <> dst.

Lemma missing_dispatch dirlike :
  migrate_path now rsync dirlike src dst fs = create_missing now dirlike src dst fs.
Proof.
  unfold migrate_path.
  unfold bind at 1.
  rewrite makedirs_existing by (rewrite (stat_of_find fs _ _ Hdp eq_refl); reflexivity).
  unfold bind at 1. unfold islink, gets at 1.
  rewrite (lstat_phys fs src a es Hsp), Hsrc. cbn [is_link].
  unfold bind at 1. unfold isdir, gets at 1.
  rewrite (stat_phys fs src a es Hsp) by (rewrite Hsrc; reflexivity).
  rewrite Hsrc. cbn [is_dir].
  unfold bind at 1. unfold isfile, gets at 1.
  rewrite (stat_phys fs src a es Hsp) by (rewrite Hsrc; reflexivity).
  rewrite Hsrc. reflexivity.
Qed.

Lemma missing_dst_nonempty : find fs dst = None -> dst <> [].
Proof. intros H E. rewrite E in H. discriminate. Qed.

(** the link can still be made once the history side has been created *)
Lemma missing_link_after_put v :
  find fs dst = None ->
  ensure_symlink src dst (put dst v fs) = (put src (Link dst) (put dst v fs), Ok tt).
Proof.
  intros Hd.
  pose proof (missing_dst_nonempty Hd) as Hdn.
  assert (Hp1 : is_prefix dst (dirname src) = false).
  { apply (not_prefix_of_missing fs _ _ _ Hsp Hd). }
  assert (Hp2 : is_prefix dst src = false).
  { destruct (is_prefix dst src) eqn:E; [|reflexivity].
    apply is_prefix_spec in E as [r Hr].
    destruct r as [|x r _] using rev_ind.
    - rewrite app_nil_r in Hr. contradiction.
    - rewrite Hr, app_assoc, dirname_snoc, is_prefix_app in Hp1. discriminate. }
  assert (Hp3 : is_prefix src (dirname dst) = false).
  { apply (not_prefix_of_missing fs _ _ _ Hdp Hsrc). }
  pose proof (find_put_kind dst v fs (dirname src) Hdn Hp1) as Hk.
  destruct (same_kind_dir _ _ _ _ _ Hk Hsp) as [es' Hsp'].
  apply (ensure_symlink_fresh _ src dst a es' Hsp' Hsw).
  rewrite (find_put_other dst v fs src Hdn Hp2 Hp3). exact Hsrc.
Qed.

Lemma missing_created_dir :
  find fs dst = None -> writable b = true ->
  create_missing now true src dst fs
  = (put src (Link dst) (put dst (Dir plain []) fs), Ok tt).
Proof.
  intros Hd Hw. unfold create_missing. unfold bind.
  rewrite (makedirs_new fs dst b des Hdp Hw Hd).
  apply missing_link_after_put. exact Hd.
Qed.

Lemma missing_created_file :
  find fs dst = None -> writable b = true ->
  create_missing now false src dst fs
  = (put src (Link dst) (put dst (File now "") fs), Ok tt).
Proof.
  intros Hd Hw. unfold create_missing.
  unfold bind at 1. unfold bind at 1.
  rewrite makedirs_existing by (rewrite (stat_of_find fs _ _ Hdp eq_refl); reflexivity).
  unfold bind at 1. unfold exists_, gets at 1.
  rewrite (stat_phys fs dst b des Hdp) by (rewrite Hd; reflexivity).
  rewrite Hd. cbn [is_some].
  rewrite (open_append_new now fs dst b des Hdp Hw Hd).
  apply missing_link_after_put. exact Hd.
Qed.

Lemma missing_kept_dir bd bes :
  find fs dst = Some (Dir bd bes) ->
  create_missing now true src dst fs = (put src (Link dst) fs, Ok tt).
Proof.
  intros Hd. unfold create_missing. unfold bind.
  rewrite makedirs_existing by (rewrite (stat_of_find fs _ _ Hd eq_refl); reflexivity).
  apply (ensure_symlink_fresh _ src dst a es Hsp Hsw Hsrc).
Qed.

Lemma missing_kept_any h :
  find fs dst = Some h -> is_link (Some h) = false ->
  create_missing now false src dst fs = (put src (Link dst) fs, Ok tt).
Proof.
  intros Hd Hl. unfold create_missing.
  unfold bind at 1. unfold bind at 1.
  rewrite makedirs_existing by (rewrite (stat_of_find fs _ _ Hdp eq_refl); reflexivity).
  unfold bind at 1. unfold exists_, gets at 1.
  rewrite (stat_of_find fs dst h Hd Hl). cbn [is_some]. unfold ret at 1.
  apply (ensure_symlink_fresh _ src dst a es Hsp Hsw Hsrc).
Qed.

Lemma missing_dir_on_file m c :
  find fs dst = Some (File m c) ->
  exists e, create_missing now true src dst fs = (fs, Raise e).
Proof.
  intros Hd. unfold create_missing. unfold bind.
  assert (Hdn : dst <> []).
  { intros E. rewrite E in Hd. simpl in Hd. inversion Hd as [Hfs].
    rewrite Hfs in Hsp. destruct (dirname src); discriminate. }
  destruct (makedirs_on_file fs dst m c Hd Hdn) as [e He].
  rewrite He. exists e. reflexivity.
Qed.

End MissingTarget.

(** X3. The last branch of a round of [migrate_and_link]: nothing exists at
    the live path.  Its parent is a real directory that can be written
    to and the parent of the history path is a real directory.  When
    the history path is free, an empty directory (target written with a
    separator at its end) or an empty file stamped with the current
    time (otherwise) is created there; when the history has something
    under that name, it is kept as it is; in both cases the live path
    becomes a link to the history path and nothing else changes.  A
    directory target whose history path is a regular file makes
    [os.makedirs] raise, and nothing changes. *)
Theorem missing_target_is_created (now : Z) (rsync : bool) (fs : node)
        (src dst : path) (a b : dattr) (es des : list (name * node)) :
  find fs (dirname src) = Some (Dir a es) ->
  writable a = true ->
  find fs src = None ->
  find fs (dirname dst) = Some (Dir b des) ->
  src <> dst ->
  (find fs dst = None -> writable b = true ->
   migrate_path now rsync true src dst fs
   = (put src (Link dst) (put dst (Dir plain []) fs), Ok tt)
   /\ migrate_path now rsync false src dst fs
      = (put src (Link dst) (put dst (File now "") fs), Ok tt))
  /\ (forall bd bes, find fs dst = Some (Dir bd bes) ->
        migrate_path now rsync true src dst fs = (put src (Link dst) fs, Ok tt))
  /\ (forall h, find fs dst = Some h -> is_link (Some h) = false ->
        migrate_path now rsync false src dst fs = (put src (Link dst) fs, Ok tt))
  /\ (forall m c, find fs dst = Some (File m c) ->
        exists e, migrate_path now rsync true src dst fs = (fs, Raise e)).
Proof.
  intros Hsp Hsw Hsrc Hdp Hne.
  split; [|split; [|split]].
  - intros Hd Hw. split.
    + rewrite (missing_dispatch now rsync fs src dst a b es des Hsp Hsrc Hdp).
      apply (missing_created_dir now fs src dst a b es des Hsp Hsw Hsrc Hdp Hne Hd Hw).
    + rewrite (missing_dispatch now rsync fs src dst a b es des Hsp Hsrc Hdp).
      apply (missing_created_file now fs src dst a b es des Hsp Hsw Hsrc Hdp Hne Hd Hw).
  - intros bd bes Hd.
    rewrite (missing_dispatch now rsync fs src dst a b es des Hsp Hsrc Hdp).
    apply (missing_kept_dir now fs src dst a es Hsp Hsw Hsrc bd bes Hd).
  - intros h Hd Hl.
    rewrite (missing_dispatch now rsync fs src dst a b es des Hsp Hsrc Hdp).
    apply (missing_kept_any now fs src dst a b es des Hsp Hsw Hsrc Hdp h Hd Hl).
  - intros m c Hd.
    rewrite (missing_dispatch now rsync fs src dst a b es des Hsp Hsrc Hdp).
    apply (missing_dir_on_file now fs src dst a es Hsp m c Hd).
Qed.

Lemma missing_target_is_created_witness :
  migrate_path 9 false false ["etc"; "new.conf"] ["h"; "etc"; "new.conf"]
               Scenarios.fs_two_empty
  = (Scenarios.dir
       [("etc", Scenarios.dir [("new.conf", Link ["h"; "etc"; "new.conf"])]);
        ("h", Scenarios.dir [("etc", Scenarios.dir [("new.conf", File 9 "")])])],
     Ok tt)
  /\ migrate_path 9 false true ["data"] ["h"; "data"] Scenarios.fs_history_only
     = (Scenarios.dir
          [("h", Scenarios.dir [("data", Scenarios.dir [("b", File 1 "B")])]);
           ("data", Link ["h"; "data"])],
        Ok tt).
Proof.
  split.
  - refine (proj2 (proj1 (missing_target_is_created 9 false Scenarios.fs_two_empty
             ["etc"; "new.conf"] ["h"; "etc"; "new.conf"] plain plain [] []
             eq_refl eq_refl eq_refl eq_refl _) eq_refl eq_refl)).
    discriminate.
  - refine (proj1 (proj2 (missing_target_is_created 9 false Scenarios.fs_history_only
             ["data"] ["h"; "data"] plain plain _ _
             eq_refl eq_refl eq_refl eq_refl _)) plain [("b", File 1 "B")] eq_refl).
    discriminate.
Defined.

(** ** The copy loop that is used without [rsync] *)

(** X4. The per-file copy of a live directory into the history only adds:
    whatever the two directories hold and however the loop ends, every
    file that existed keeps its content and its time stamp, every link
    its target, every directory its attributes and its entries; what
    the history already has under a name is never overwritten. *)
Theorem copy_loop_only_adds (src dst : path) (fs : node) :
  let fs' := fst (merge_copy src dst fs) in
  extends fs fs'
  /\ (forall p m c, find fs p = Some (File m c) -> find fs' p = Some (File m c))
  /\ (forall p t, find fs p = Some (Link t) -> find fs' p = Some (Link t))
  /\ (forall p a es, find fs p = Some (Dir a es) ->
        exists es', find fs' p = Some (Dir a es')
                    /\ forall x, is_some (lookup x es) = true ->
                                 is_some (lookup x es') = true).
Proof.
  cbv zeta. pose proof (merge_copy_extends src dst fs) as He.
  split; [exact He|]. split; [|split].
  - intros p m c Hf. apply (extends_find_file _ _ p m c He Hf).
  - intros p t Hf. destruct (extends_find p _ _ _ He Hf) as [n' [Hf' Hn]].
    destruct n'; try contradiction. simpl in Hn. subst. exact Hf'.
  - intros p a es Hf. destruct (extends_find p _ _ _ He Hf) as [n' [Hf' Hn]].
    destruct n' as [| a' es' |]; try contradiction. destruct Hn as [<- Hes].
    exists es'. split; [exact Hf'|].
    intros x Hx. destruct (lookup x es) as [c|] eqn:El; [|discriminate].
    destruct (entries_ext_lookup es es' x c Hes El) as [c' [El' _]].
    rewrite El'. reflexivity.
Qed.

(** ** A second run of [track_empty_dirs] *)

Section SecondRun.
Variable now : Z.
Variable is_excluded : string -> list string -> bool.
Variables (hist_dir : string) (excludes : list string).

Lemma grown_extends : forall n n', grown now n n' -> extends n n'.
Proof.
  intros n. induction n as [m c | a es IH | t] using node_induction; intros n' H.
  - destruct n'; try contradiction. exact H.
  - destruct n' as [| a' es' |]; try contradiction.
    cbn [grown] in H. destruct H as [<- [[-> ->] | Hr]].
    + split; [reflexivity | exact I].
    + split; [reflexivity|].
      revert es' Hr. induction IH as [|[x c] r Hc _ IHr]; intros es' Hr.
      * exact I.
      * destruct es' as [|[x' c'] r']; [contradiction|].
        destruct Hr as [<- [Hg Hr]].
        split; [reflexivity|]. split; [apply Hc; exact Hg | apply IHr; exact Hr].
  - destruct n'; try contradiction. exact H.
Qed.

(** resolution does not see the placeholders *)
Lemma walk_grown fl : forall todo cwd cur cur',
  grown now cur cur' ->
  match walk fl cwd cur todo with
  | Done q => walk fl cwd cur' todo = Done q
  | Follow p => walk fl cwd cur' todo = Follow p
  | Fail _ => exists e, walk fl cwd cur' todo = Fail e
  end.
Proof.
  induction todo as [|x rest IH]; intros cwd cur cur' Hg.
  - reflexivity.
  - destruct cur as [m c | a es | t]; destruct cur' as [m' c' | a' es' | t'];
      try contradiction; cbn [walk].
    + eauto.
    + cbn [grown] in Hg. destruct Hg as [<- [[-> ->] | Hr]].
      * cbn [lookup]. destruct (String.eqb x ".gitkeep").
        -- destruct rest; [reflexivity|]. cbn [walk]. eauto.
        -- destruct rest; [reflexivity | eauto].
      * pose proof (entries_rel_lookup now es es' x Hr) as Hl.
        destruct (lookup x es) as [c|].
        -- destruct Hl as [c' [-> Hc]].
           destruct c as [m c | b bs | t]; destruct c' as [m' c' | b' bs' | t'];
             try contradiction.
           ++ apply (IH (cwd ++ [x]) _ _ Hc).
           ++ apply (IH (cwd ++ [x]) _ _ Hc).
           ++ cbn [grown] in Hc. subst t'.
              destruct rest; [destruct fl|]; reflexivity.
        -- rewrite Hl. destruct rest; [reflexivity | eauto].
    + eauto.
Qed.

Lemma namei_fuel_grown root root' fl : forall fuel p,
  grown now root root' ->
  match namei_fuel fuel root fl p with
  | Ok q => namei_fuel fuel root' fl p = Ok q
  | Raise _ => exists e, namei_fuel fuel root' fl p = Raise e
  end.
Proof.
  induction fuel as [|fuel IH]; intros p Hg; cbn [namei_fuel];
    pose proof (walk_grown fl p [] root root' Hg) as Hw;
    destruct (walk fl [] root p) as [q|p'|e].
  - rewrite Hw. reflexivity.
  - rewrite Hw. unfold err. eauto.
  - destruct Hw as [e' ->]. unfold err. eauto.
  - rewrite Hw. reflexivity.
  - rewrite Hw. apply (IH p' Hg).
  - destruct Hw as [e' ->]. unfold err. eauto.
Qed.

(** a path names a directory after the run exactly when it did before *)
Lemma stat_grown fs fs' p :
  grown now fs fs' ->
  match stat fs p with
  | Some n => exists n', stat fs' p = Some n' /\ grown now n n'
  | None => is_dir (stat fs' p) = false
  end.
Proof.
  intros Hg. unfold stat, namei.
  pose proof (namei_fuel_grown fs fs' true MAXSYMLINKS p Hg) as Hn.
  destruct (namei_fuel MAXSYMLINKS fs true p) as [q|e].
  - rewrite Hn. destruct (find fs q) as [n|] eqn:Ef.
    + apply (grown_find_some now q fs fs' n Hg Ef).
    + destruct (find fs' q) as [n'|] eqn:Ef'; [|reflexivity].
      destruct (grown_find_new now q fs fs' n' Hg Ef Ef') as [-> _]. reflexivity.
  - destruct Hn as [e' ->]. reflexivity.
Qed.

Lemma is_dir_grown n n' : grown now n n' -> is_dir (Some n') = is_dir (Some n).
Proof. destruct n, n'; simpl; try contradiction; reflexivity. Qed.

Lemma stat_grown_is_dir fs fs' p :
  grown now fs fs' -> is_dir (stat fs' p) = is_dir (stat fs p).
Proof.
  intros Hg. pose proof (stat_grown fs fs' p Hg) as H.
  destruct (stat fs p) as [n|].
  - destruct H as [n' [-> Hn]]. apply is_dir_grown. exact Hn.
  - exact H.
Qed.

Lemma walk_node_dir fs d a es :
  walked (walk_node fs d (Dir a es)) = d :: walked (walk_entries fs d es).
Proof.
  cbn [walk_node]. unfold walked. cbn [map fst]. f_equal. f_equal.
  induction es as [|[x c] r IH]; [reflexivity|].
  cbn [walk_entries]. rewrite <- IH. reflexivity.
Qed.

Lemma walked_app l1 l2 : walked (l1 ++ l2) = walked l1 ++ walked l2.
Proof. unfold walked. apply map_app. Qed.

(** the walk visits the same directories *)
Lemma walk_node_grown fs fs' : forall n n' d,
  grown now n n' ->
  walked (walk_node fs' d n') = walked (walk_node fs d n).
Proof.
  intros n. induction n as [m c | a es IH | t] using node_induction; intros n' d H.
  - destruct n'; try contradiction. reflexivity.
  - destruct n' as [| a' es' |]; try contradiction.
    rewrite !walk_node_dir. f_equal.
    cbn [grown] in H. destruct H as [_ [[-> ->] | Hr]]; [reflexivity|].
    revert es' Hr. induction IH as [|[x c] r Hc _ IHr]; intros es' Hr.
    + destruct es'; [reflexivity | contradiction].
    + destruct es' as [|[x' c'] r']; [contradiction|].
      destruct Hr as [<- [Hg Hr]]. cbn [walk_entries]. cbn [snd] in Hc.
      destruct c as [m c | b bs | t]; destruct c' as [m' c' | b' bs' | t'];
        try contradiction.
      * apply IHr. exact Hr.
      * rewrite !walked_app. rewrite (Hc _ (d ++ [x]) Hg), (IHr _ Hr). reflexivity.
      * apply IHr. exact Hr.
  - destruct n'; try contradiction. reflexivity.
Qed.

Lemma visited_grown fs fs' rel :
  grown now fs fs' -> visited fs' hist_dir rel = visited fs hist_dir rel.
Proof.
  intros Hg. unfold visited. cbv zeta.
  rewrite (stat_grown_is_dir fs fs' _ Hg).
  destruct (is_dir (stat fs _)) eqn:Ed; [|reflexivity].
  unfold os_walk.
  pose proof (stat_grown fs fs' (parse (Config.to_under_hist hist_dir
                                          (PyStr.rstrip "/" rel))) Hg) as H.
  destruct (stat fs _) as [n|]; [|discriminate].
  destruct H as [n' [-> Hn]]. apply walk_node_grown. exact Hn.
Qed.

Lemma occupied_extends fs fs' d :
  extends fs fs' -> occupied fs d -> occupied fs' d.
Proof.
  intros He [q [a [es [Hn [Hf Hne]]]]].
  destruct (extends_find q fs fs' _ He Hf) as [n' [Hf' Hn']].
  destruct n' as [| a' es' |]; try contradiction. destruct Hn' as [<- Hes].
  exists q, a, es'. split; [|split].
  - unfold namei in *.
    apply (namei_fuel_extends fs fs' true MAXSYMLINKS d q He Hn).
    rewrite Hf. reflexivity.
  - exact Hf'.
  - intros ->. destruct es as [|[x c] r]; [contradiction | exact Hes].
Qed.

(** one directory of the walk *)
Lemma track_dir_settled written d fs :
  passed_over is_excluded hist_dir excludes d = true \/ occupied fs d ->
  track_dir now is_excluded hist_dir excludes written d fs = (fs, Ok written).
Proof.
  unfold passed_over, track_dir. cbv zeta. intros [H | [q [a [es [Hn [Hf Hne]]]]]].
  - destruct (is_excluded _ excludes); [reflexivity|].
    cbn [orb] in H. rewrite H. reflexivity.
  - destruct (is_excluded _ excludes); [reflexivity|].
    destruct (PyStr.contains _ "/.git/"); [reflexivity|].
    unfold bind, listdir. rewrite Hn, Hf.
    destruct es as [|[x c] r]; [contradiction | reflexivity].
Qed.

Lemma track_dir_settles written d fs fs1 w :
  track_dir now is_excluded hist_dir excludes written d fs = (fs1, Ok w) ->
  passed_over is_excluded hist_dir excludes d = true \/ occupied fs1 d.
Proof.
  unfold passed_over, track_dir. cbv zeta.
  destruct (is_excluded _ excludes); [left; reflexivity|].
  destruct (PyStr.contains _ "/.git/"); [left; reflexivity|].
  cbn [orb]. intros H. right.
  destruct (bind_ok_inv _ _ _ _ _ H) as [fs0 [names [Hl H1]]].
  destruct names as [|x names].
  - apply listdir_nil in Hl as [-> [q [a [Hq Hf]]]].
    pose proof (namei_fuel_snoc_new fs true ".gitkeep" _ d q a [] Hq Hf eq_refl) as E.
    destruct (bind_ok_inv _ _ _ _ _ H1) as [fs2 [e [He H2]]].
    unfold exists_, gets in He. inversion He; subst fs2 e. clear He.
    unfold stat, namei in H2. rewrite E in H2.
    rewrite find_app, Hf in H2. cbn [find lookup is_some] in H2.
    destruct (bind_ok_inv _ _ _ _ _ H2) as [fs3 [[] [Ho H3]]].
    unfold ret in H3. inversion H3; subst fs3 w. clear H3.
    unfold open_append, namei in Ho. rewrite E in Ho.
    rewrite find_app, Hf in Ho. cbn [find lookup] in Ho.
    destruct (parent_writable fs (q ++ [".gitkeep"])); [|discriminate].
    inversion Ho; subst fs1. clear Ho.
    assert (Hnew : find fs (q ++ [".gitkeep"]) = None).
    { rewrite find_app, Hf. reflexivity. }
    pose proof (put_new_extends (q ++ [".gitkeep"]) (File now "") fs Hnew) as Hx.
    exists q, a, (set_entry ".gitkeep" (File now "") []).
    split; [|split].
    + apply (namei_fuel_extends fs _ true MAXSYMLINKS d q Hx Hq).
      rewrite Hf. reflexivity.
    + pose proof (find_put_parent (q ++ [".gitkeep"]) (File now "") fs a []) as Hp.
      rewrite dirname_snoc, basename_snoc in Hp. apply Hp. exact Hf.
    + discriminate.
  - unfold ret in H1. inversion H1; subst fs1 w. clear H1.
    unfold listdir in Hl.
    destruct (namei fs true d) as [q|e] eqn:Hq; [|discriminate].
    destruct (find fs q) as [[| a es |]|] eqn:Hf; try discriminate.
    injection Hl as <- Hm.
    exists q, a, es. split; [exact Hq|]. split; [exact Hf|].
    intros E. rewrite E in Hm. discriminate Hm.
Qed.

(** the loop over the directories of one walk *)
Lemma track_walk_settles : forall triples written fs fs1 w,
  fold_m (fun written '(d, _, _) =>
            track_dir now is_excluded hist_dir excludes written d)
         triples written fs = (fs1, Ok w) ->
  grown now fs fs1
  /\ Forall (fun d => passed_over is_excluded hist_dir excludes d = true
                      \/ occupied fs1 d) (walked triples).
Proof.
  induction triples as [|[[d ds] fsn] rest IH]; intros written fs fs1 w H.
  - cbn [fold_m] in H. unfold ret in H. inversion H; subst.
    split; [apply grown_refl | constructor].
  - cbn [fold_m] in H.
    destruct (bind_ok_inv _ _ _ _ _ H) as [fs0 [w0 [H0 H1]]].
    destruct (IH _ _ _ _ H1) as [Hg1 Hall].
    pose proof (track_dir_grown now is_excluded hist_dir excludes written d fs) as Hg0.
    rewrite H0 in Hg0. cbn [fst] in Hg0.
    split; [apply (grown_trans now fs fs0 fs1 Hg0 Hg1)|].
    unfold walked. cbn [map fst]. constructor; [|exact Hall].
    destruct (track_dir_settles _ _ _ _ _ H0) as [Hp | Ho]; [left; exact Hp|].
    right. apply (occupied_extends fs0 fs1 d (grown_extends _ _ Hg1) Ho).
Qed.

Lemma track_walk_settled : forall triples written fs,
  Forall (fun d => passed_over is_excluded hist_dir excludes d = true
                   \/ occupied fs d) (walked triples) ->
  fold_m (fun written '(d, _, _) =>
            track_dir now is_excluded hist_dir excludes written d)
         triples written fs = (fs, Ok written).
Proof.
  induction triples as [|[[d ds] fsn] rest IH]; intros written fs H.
  - reflexivity.
  - unfold walked in H. cbn [map fst] in H. inversion H as [|? ? Hd Hr]; subst.
    cbn [fold_m]. unfold bind. rewrite (track_dir_settled written d fs Hd).
    apply IH. exact Hr.
Qed.

(** the body of the loop over the targets *)
Lemma track_target_settles rel written fs fs1 w :
  (let rel_clean := PyStr.rstrip "/" rel in
   let root := parse (Config.to_under_hist hist_dir rel_clean) in
   b <- isdir root ;;
   if b : bool then
     triples <- gets (fun fs => os_walk fs root) ;;
     fold_m (fun written '(d, _, _) =>
               track_dir now is_excluded hist_dir excludes written d)
            triples written
   else ret written) fs = (fs1, Ok w) ->
  grown now fs fs1
  /\ Forall (fun d => passed_over is_excluded hist_dir excludes d = true
                      \/ occupied fs1 d) (visited fs hist_dir rel).
Proof.
  cbv zeta. unfold visited. cbv zeta. unfold bind at 1. unfold isdir, gets at 1.
  destruct (is_dir (stat fs _)).
  - unfold bind at 1. unfold gets at 1. apply track_walk_settles.
  - unfold ret. intros H. inversion H; subst.
    split; [apply grown_refl | constructor].
Qed.

Lemma track_targets_settle : forall rel_targets written fs fs' n,
  fold_m (fun written rel =>
            let rel_clean := PyStr.rstrip "/" rel in
            let root := parse (Config.to_under_hist hist_dir rel_clean) in
            b <- isdir root ;;
            if b : bool then
              triples <- gets (fun fs => os_walk fs root) ;;
              fold_m (fun written '(d, _, _) =>
                        track_dir now is_excluded hist_dir excludes written d)
                     triples written
            else ret written)
         rel_targets written fs = (fs', Ok n) ->
  grown now fs fs'
  /\ Forall (fun rel =>
               Forall (fun d => passed_over is_excluded hist_dir excludes d = true
                                \/ occupied fs' d) (visited fs' hist_dir rel))
            rel_targets.
Proof.
  induction rel_targets as [|rel rest IH]; intros written fs fs' n H.
  - cbn [fold_m] in H. unfold ret in H. inversion H; subst.
    split; [apply grown_refl | constructor].
  - cbn [fold_m] in H.
    destruct (bind_ok_inv _ _ _ _ _ H) as [fs1 [w1 [H1 H2]]].
    destruct (track_target_settles rel written fs fs1 w1 H1) as [Hg1 Hv].
    destruct (IH _ _ _ _ H2) as [Hg2 Hall].
    pose proof (grown_trans now fs fs1 fs' Hg1 Hg2) as Hg.
    split; [exact Hg|]. constructor; [|exact Hall].
    rewrite (visited_grown fs fs' rel Hg).
    eapply Forall_impl; [|exact Hv]. intros d [Hp | Ho]; [left; exact Hp|].
    right. apply (occupied_extends fs1 fs' d (grown_extends _ _ Hg2) Ho).
Qed.

Lemma track_targets_settled : forall rel_targets written fs,
  Forall (fun rel =>
            Forall (fun d => passed_over is_excluded hist_dir excludes d = true
                             \/ occupied fs d) (visited fs hist_dir rel))
         rel_targets ->
  fold_m (fun written rel =>
            let rel_clean := PyStr.rstrip "/" rel in
            let root := parse (Config.to_under_hist hist_dir rel_clean) in
            b <- isdir root ;;
            if b : bool then
              triples <- gets (fun fs => os_walk fs root) ;;
              fold_m (fun written '(d, _, _) =>
                        track_dir now is_excluded hist_dir excludes written d)
                     triples written
            else ret written)
         rel_targets written fs = (fs, Ok written).
Proof.
  induction rel_targets as [|rel rest IH]; intros written fs H.
  - reflexivity.
  - inversion H as [|? ? Hv Hr]; subst. cbn [fold_m]. unfold bind at 1.
    assert (E : (let rel_clean := PyStr.rstrip "/" rel in
                 let root := parse (Config.to_under_hist hist_dir rel_clean) in
                 b <- isdir root ;;
                 if b : bool then
                   triples <- gets (fun fs => os_walk fs root) ;;
                   fold_m (fun written '(d, _, _) =>
                             track_dir now is_excluded hist_dir excludes written d)
                          triples written
                 else ret written) fs = (fs, Ok written)).
    { cbv zeta. unfold visited in Hv. cbv zeta in Hv.
      unfold bind at 1. unfold isdir, gets at 1.
      destruct (is_dir (stat fs _)); [|reflexivity].
      unfold bind at 1. unfold gets at 1. apply track_walk_settled. exact Hv. }
    cbv zeta in E. cbv zeta. rewrite E. apply IH. exact Hr.
Qed.

End SecondRun.

(** X8. [track_empty_dirs] is idempotent.  When it returns, every directory
    that it visits and does not pass over (exclude rule, [.git]) has an
    entry; run again on the tree it left, with the same arguments, it
    writes no placeholder, changes nothing and returns 0. *)
Theorem track_empty_dirs_second_run (now : Z)
        (is_excluded : string -> list string -> bool)
        (hist_dir : string) (rel_targets excludes : list string)
        (fs fs' : node) (n : nat) :
  track_empty_dirs now is_excluded hist_dir rel_targets excludes fs = (fs', Ok n) ->
  track_empty_dirs now is_excluded hist_dir rel_targets excludes fs' = (fs', Ok 0)
  /\ Forall (fun rel =>
               Forall (fun d => passed_over is_excluded hist_dir excludes d = true
                                \/ occupied fs' d) (visited fs' hist_dir rel))
            rel_targets.
Proof.
  unfold track_empty_dirs. intros H.
  destruct (track_targets_settle now is_excluded hist_dir excludes
              rel_targets 0 fs fs' n H) as [_ Hall].
  split; [|exact Hall].
  apply (track_targets_settled now is_excluded hist_dir excludes rel_targets 0 fs' Hall).
Qed.

Lemma track_empty_dirs_second_run_witness :
  let fs' := fst (track_empty_dirs 0 (fun _ _ => false) "/h" ["data/"] []
                                   Scenarios.fs_repo) in
  track_empty_dirs 0 (fun _ _ => false) "/h" ["data/"] [] fs' = (fs', Ok 0).
Proof.
  cbv zeta.
  apply (track_empty_dirs_second_run 0 (fun _ _ => false) "/h" ["data/"] []
           Scenarios.fs_repo _ 1).
  reflexivity.
Defined.

(** ** The number that [track_empty_dirs] returns *)

Section Counting.
Variable now : Z.
Variable is_excluded : string -> list string -> bool.
Variables (hist_dir : string) (excludes : list string).

Lemma track_dir_counts written d fs fs1 w :
  track_dir now is_excluded hist_dir excludes written d fs = (fs1, Ok w) ->
  entry_count fs1 + written = entry_count fs + w.
Proof.
  unfold track_dir. cbv zeta.
  destruct (is_excluded _ excludes);
    [unfold ret; intros H; inversion H; reflexivity|].
  destruct (PyStr.contains _ "/.git/");
    [unfold ret; intros H; inversion H; reflexivity|].
  intros H.
  destruct (bind_ok_inv _ _ _ _ _ H) as [fs0 [names [Hl H1]]].
  pose proof (listdir_state fs d) as Hs. rewrite Hl in Hs. cbn [fst] in Hs. subst fs0.
  destruct names as [|x names];
    [|unfold ret in H1; inversion H1; reflexivity].
  apply listdir_nil in Hl as [_ [q [a [Hq Hf]]]].
  pose proof (namei_fuel_snoc_new fs true ".gitkeep" _ d q a [] Hq Hf eq_refl) as E.
  destruct (bind_ok_inv _ _ _ _ _ H1) as [fs2 [e [He H2]]].
  unfold exists_, gets in He. inversion He; subst fs2 e. clear He.
  unfold stat, namei in H2. rewrite E in H2.
  rewrite find_app, Hf in H2. cbn [find lookup is_some] in H2.
  destruct (bind_ok_inv _ _ _ _ _ H2) as [fs3 [[] [Ho H3]]].
  unfold ret in H3. inversion H3; subst fs3 w. clear H3.
  unfold open_append, namei in Ho. rewrite E in Ho.
  rewrite find_app, Hf in Ho. cbn [find lookup] in Ho.
  destruct (parent_writable fs (q ++ [".gitkeep"])); [|discriminate].
  inversion Ho; subst fs1. clear Ho.
  rewrite (entry_count_put_new (q ++ [".gitkeep"]) (File now "") fs a []).
  - cbn [entry_count]. lia.
  - rewrite dirname_snoc. exact Hf.
  - rewrite find_app, Hf. reflexivity.
  - intros E0. destruct q; discriminate.
Qed.

Lemma track_walk_counts :
  forall (triples : list (path * list name * list name)) written fs fs1 w,
  fold_m (fun written '(d, _, _) =>
            track_dir now is_excluded hist_dir excludes written d)
         triples written fs = (fs1, Ok w) ->
  entry_count fs1 + written = entry_count fs + w.
Proof.
  induction triples as [|[[d ds] fsn] rest IH]; intros written fs fs1 w H.
  - cbn [fold_m] in H. unfold ret in H. inversion H; reflexivity.
  - cbn [fold_m] in H.
    destruct (bind_ok_inv _ _ _ _ _ H) as [fs0 [w0 [H0 H1]]].
    pose proof (track_dir_counts _ _ _ _ _ H0).
    pose proof (IH _ _ _ _ H1). lia.
Qed.

Lemma track_targets_count : forall rel_targets written fs fs' n,
  fold_m (fun written rel =>
            let rel_clean := PyStr.rstrip "/" rel in
            let root := parse (Config.to_under_hist hist_dir rel_clean) in
            b <- isdir root ;;
            if b : bool then
              triples <- gets (fun fs => os_walk fs root) ;;
              fold_m (fun written '(d, _, _) =>
                        track_dir now is_excluded hist_dir excludes written d)
                     triples written
            else ret written)
         rel_targets written fs = (fs', Ok n) ->
  entry_count fs' + written = entry_count fs + n.
Proof.
  induction rel_targets as [|rel rest IH]; intros written fs fs' n H.
  - cbn [fold_m] in H. unfold ret in H. inversion H; reflexivity.
  - cbn [fold_m] in H.
    destruct (bind_ok_inv _ _ _ _ _ H) as [fs1 [w1 [H1 H2]]].
    pose proof (IH _ _ _ _ H2) as E2.
    assert (E1 : entry_count fs1 + written = entry_count fs + w1).
    { cbv zeta in H1. revert H1.
      unfold bind at 1. unfold isdir, gets at 1.
      destruct (is_dir (stat fs _)).
      - unfold bind at 1. unfold gets at 1. apply track_walk_counts.
      - unfold ret. intros H1. inversion H1; reflexivity. }
    lia.
Qed.

End Counting.

(** X9. The number that [track_empty_dirs] returns is the number of
    placeholders it has written: the tree it leaves has exactly that
    many entries more than the tree it was given. *)
Theorem track_empty_dirs_counts (now : Z)
        (is_excluded : string -> list string -> bool)
        (hist_dir : string) (rel_targets excludes : list string)
        (fs fs' : node) (n : nat) :
  track_empty_dirs now is_excluded hist_dir rel_targets excludes fs = (fs', Ok n) ->
  entry_count fs' = entry_count fs + n.
Proof.
  unfold track_empty_dirs. intros H.
  pose proof (track_targets_count now is_excluded hist_dir excludes
                rel_targets 0 fs fs' n H) as E.
  lia.
Qed.

Lemma track_empty_dirs_counts_witness :
  entry_count (fst (track_empty_dirs 0 (fun _ _ => false) "/h" ["./"] []
                                     Scenarios.fs_repo))
  = entry_count Scenarios.fs_repo + 2.
Proof.
  apply (track_empty_dirs_counts 0 (fun _ _ => false) "/h" ["./"] []
           Scenarios.fs_repo _ 2).
  reflexivity.
Defined.

(** ** An empty directory that cannot be written to *)

(** X10. [track_empty_dirs] does not guard the creation of a placeholder:
    when the first target is an empty directory of the history that is
    not passed over and cannot be written to, the [OSError] of [open]
    (permission denied) leaves the function, before any other target is
    looked at, and the tree is as it was. *)
Theorem track_empty_dirs_unwritable (now : Z)
        (is_excluded : string -> list string -> bool)
        (hist_dir rel : string) (rest excludes : list string)
        (fs : node) (a : dattr) :
  let root := parse (Config.to_under_hist hist_dir (PyStr.rstrip "/" rel)) in
  stat fs root = Some (Dir a []) ->
  writable a = false ->
  passed_over is_excluded hist_dir excludes root = false ->
  track_empty_dirs now is_excluded hist_dir (rel :: rest) excludes fs
  = (fs, Raise (OSError (Some EACCES))).
Proof.
  cbv zeta. intros Hs Hw Hp.
  unfold track_empty_dirs. cbn [fold_m]. cbv zeta.
  unfold bind at 1. unfold bind at 1. unfold isdir, gets at 1. rewrite Hs. cbn [is_dir].
  unfold bind at 1. unfold gets at 1. unfold os_walk. rewrite Hs.
  cbn [walk_node filter map fold_m].
  unfold bind at 1.
  assert (E : track_dir now is_excluded hist_dir excludes 0
                (parse (Config.to_under_hist hist_dir (PyStr.rstrip "/" rel))) fs
              = (fs, Raise (OSError (Some EACCES)))).
  { unfold track_dir. cbv zeta. unfold passed_over in Hp. cbv zeta in Hp.
    apply orb_false_iff in Hp as [Hp1 Hp2]. rewrite Hp1, Hp2.
    unfold stat in Hs.
    destruct (namei fs true (parse (Config.to_under_hist hist_dir
                                      (PyStr.rstrip "/" rel)))) as [q|e] eqn:Hq;
      [|discriminate].
    unfold bind at 1. unfold listdir. rewrite Hq, Hs. cbn [map].
    pose proof (namei_fuel_snoc_new fs true ".gitkeep" _ _ q a [] Hq Hs eq_refl) as En.
    unfold bind at 1. unfold exists_, gets at 1. unfold stat, namei. rewrite En.
    rewrite find_app, Hs. cbn [find lookup is_some].
    unfold bind. unfold open_append, namei. rewrite En.
    rewrite find_app, Hs. cbn [find lookup].
    unfold parent_writable. rewrite dirname_snoc, Hs, Hw. reflexivity. }
  rewrite E. reflexivity.
Qed.

Lemma track_empty_dirs_unwritable_witness :
  track_empty_dirs 0 (fun _ _ => false) "/h" ["data/"; "etc/"] []
                   Scenarios.fs_locked_empty
  = (Scenarios.fs_locked_empty, Raise (OSError (Some EACCES))).
Proof.
  apply (track_empty_dirs_unwritable 0 (fun _ _ => false) "/h" "data/" ["etc/"] []
           Scenarios.fs_locked_empty {| writable := false; busy := false |});
    reflexivity.
Defined.

(** ** The directory branch and the files outside the live directory *)

Lemma not_prefix_snoc_self (d : path) x : is_prefix (d ++ [x]) d = false.
Proof.
  induction d as [|y d IH]; simpl; [reflexivity|].
  rewrite String.eqb_refl. exact IH.
Qed.

Lemma same_kind_is_dir o o' :
  same_kind o o' -> is_dir o = true -> is_dir o' = true.
Proof.
  destruct o as [[| a es |]|]; simpl; try discriminate.
  intros [es' ->] _. reflexivity.
Qed.

Lemma same_kind_none_or_dir o o' :
  same_kind o o' -> (o = None \/ is_dir o = true) ->
  (o' = None \/ is_dir o' = true).
Proof.
  intros H [-> | Hd].
  - left. exact H.
  - right. eapply same_kind_is_dir; eauto.
Qed.

Lemma is_dir_inv o : is_dir o = true -> exists a es, o = Some (Dir a es).
Proof. destruct o as [[| a es |]|]; simpl; try discriminate. eauto. Qed.

Lemma file_outside fs q p m c :
  find fs p = Some (File m c) -> is_dir (find fs (dirname q)) = true ->
  is_prefix p (dirname q) = false.
Proof.
  intros Hp Hd. apply is_dir_inv in Hd as (a & es & Hd).
  apply (file_not_prefix fs p (dirname q) m c (Dir a es) Hp Hd).
  intros E. rewrite E, Hd in Hp. discriminate.
Qed.

Lemma spares_refl src fs : spares src fs fs.
Proof. intros p m c H _. exact H. Qed.

Lemma spares_trans src fs1 fs2 fs3 :
  spares src fs1 fs2 -> spares src fs2 fs3 -> spares src fs1 fs3.
Proof. intros H1 H2 p m c Hp Ho. apply H2; [apply H1|]; assumption. Qed.

Lemma makedirs_under_dir fs p a es :
  find fs (dirname p) = Some (Dir a es) -> p <> [] ->
  makedirs p fs
  = try_except (mkdir p)
      (fun e => d <- isdir p ;; if d : bool then ret tt else raise e) fs.
Proof.
  intros Hd Hne. unfold makedirs.
  destruct (rev p) as [|t rh] eqn:Er.
  - exfalso. apply Hne. rewrite <- (rev_involutive p), Er. reflexivity.
  - assert (Hp : p = rev rh ++ [t]).
    { rewrite <- (rev_involutive p), Er. reflexivity. }
    cbn [makedirs_rev]. change (rev (t :: rh)) with (rev rh ++ [t]). rewrite <- Hp.
    assert (Hh : rev rh = dirname p).
    { rewrite Hp. rewrite dirname_snoc. reflexivity. }
    unfold bind at 1. unfold bind at 1. unfold exists_, gets at 1.
    rewrite Hh, (stat_of_find fs _ _ Hd eq_refl). cbn [is_some].
    unfold ret at 1. reflexivity.
Qed.

Section DirBranch.
Variables src dst : path.
Hypothesis Hsd : is_prefix src dst = false.

Lemma live_src_nonempty : src <> [].
Proof. intros E. rewrite E in Hsd. discriminate Hsd. Qed.

Lemma under_nonempty q : is_prefix src q = true -> q <> [].
Proof.
  intros H Hq. apply is_prefix_spec in H as [r Hr]. rewrite Hq in Hr.
  symmetry in Hr. apply app_eq_nil in Hr as [Hs _]. exact (live_src_nonempty Hs).
Qed.

Lemma under_not_above q :
  is_prefix src q = true -> is_prefix q (dirname src) = false.
Proof.
  intros H. destruct (is_prefix q (dirname src)) eqn:E; [|reflexivity].
  pose proof (is_prefix_trans _ _ _ H E) as H1.
  rewrite (dirname_basename src live_src_nonempty) in H1 at 1.
  rewrite not_prefix_snoc_self in H1. discriminate.
Qed.

Lemma under_not_src q :
  is_prefix src q = true -> q <> src -> is_prefix q src = false.
Proof.
  intros H Hne. destruct (is_prefix q src) eqn:E; [|reflexivity].
  exfalso. apply Hne. apply path_eqb_eq. unfold path_eqb. rewrite E, H. reflexivity.
Qed.

Lemma under_not_dst q : is_prefix src q = true -> is_prefix q dst = false.
Proof.
  intros H. destruct (is_prefix q dst) eqn:E; [|reflexivity].
  pose proof (is_prefix_trans _ _ _ H E) as H1. rewrite Hsd in H1. discriminate.
Qed.

Lemma put_sparing fs q v :
  live_shape src dst fs -> is_prefix src q = true ->
  is_dir (find fs (dirname q)) = true ->
  (q = src -> is_dir (Some v) = true) ->
  live_shape src dst (put q v fs) /\ spares src fs (put q v fs).
Proof.
  intros (H1 & H2 & H3) Hq Hd Hv.
  pose proof (under_nonempty q Hq) as Hne.
  split; [split; [|split]|].
  - eapply same_kind_is_dir; [|exact H1].
    apply find_put_kind; [exact Hne|]. apply under_not_above; exact Hq.
  - destruct (path_eqb q src) eqn:E.
    + apply path_eqb_eq in E. right. subst q.
      apply is_dir_inv in Hd as (a & es & Hd).
      rewrite (find_put_same src v fs a es Hne Hd). apply Hv. reflexivity.
    + eapply same_kind_none_or_dir; [|exact H2].
      apply find_put_kind; [exact Hne|].
      apply under_not_src; [exact Hq|]. intros ->.
      rewrite path_eqb_refl in E. discriminate.
  - eapply same_kind_is_dir; [|exact H3].
    apply find_put_kind; [exact Hne|]. apply under_not_dst; exact Hq.
  - intros p m c Hp Ho. rewrite find_put_other; [exact Hp | exact Hne | | ].
    + destruct (is_prefix q p) eqn:E; [|reflexivity].
      rewrite (is_prefix_trans _ _ _ Hq E) in Ho. discriminate.
    + eapply file_outside; eauto.
Qed.

Lemma drop_sparing fs q :
  live_shape src dst fs -> is_prefix src q = true ->
  is_dir (find fs (dirname q)) = true ->
  live_shape src dst (drop q fs) /\ spares src fs (drop q fs).
Proof.
  intros (H1 & H2 & H3) Hq Hd.
  pose proof (under_nonempty q Hq) as Hne.
  split; [split; [|split]|].
  - eapply same_kind_is_dir; [|exact H1].
    apply find_drop_kind; [exact Hne|]. apply under_not_above; exact Hq.
  - destruct (path_eqb q src) eqn:E.
    + apply path_eqb_eq in E. left. subst q. apply find_drop_same. exact Hne.
    + eapply same_kind_none_or_dir; [|exact H2].
      apply find_drop_kind; [exact Hne|].
      apply under_not_src; [exact Hq|]. intros ->.
      rewrite path_eqb_refl in E. discriminate.
  - eapply same_kind_is_dir; [|exact H3].
    apply find_drop_kind; [exact Hne|]. apply under_not_dst; exact Hq.
  - intros p m c Hp Ho. rewrite find_drop_other; [exact Hp | exact Hne | | ].
    + destruct (is_prefix q p) eqn:E; [|reflexivity].
      rewrite (is_prefix_trans _ _ _ Hq E) in Ho. discriminate.
    + eapply file_outside; eauto.
Qed.

(** a name at the live path resolves to itself *)
Lemma resolve_live fs s q :
  live_shape src dst fs -> at_live src s ->
  namei fs false s = Ok q ->
  q = s /\ is_prefix src s = true /\ is_dir (find fs (dirname s)) = true.
Proof.
  intros (H1 & H2 & H3) [-> | [x ->]] Hn.
  - apply is_dir_inv in H1 as (a & es & Hd).
    rewrite (namei_phys fs src a es Hd) in Hn. injection Hn as <-.
    split; [reflexivity|]. split; [apply is_prefix_refl|]. rewrite Hd. reflexivity.
  - rewrite dirname_snoc. destruct H2 as [H2 | H2].
    + exfalso. unfold namei in Hn.
      apply namei_fuel_parent in Hn as (q0 & a & es & Hq0 & Hf).
      apply is_dir_inv in H1 as (a0 & es0 & Hd).
      fold (namei fs true src) in Hq0.
      rewrite (namei_phys_follow fs src a0 es0 Hd) in Hq0; [|rewrite H2; reflexivity].
      injection Hq0 as <-. rewrite H2 in Hf. discriminate.
    + pose proof H2 as H2'. apply is_dir_inv in H2 as (a & es & Es).
      rewrite (namei_phys fs (src ++ [x]) a es) in Hn
        by (rewrite dirname_snoc; exact Es).
      injection Hn as <-. split; [reflexivity|].
      split; [apply is_prefix_app | exact H2'].
Qed.

Lemma sparing_same {A} (m : M A) :
  (forall fs, fst (m fs) = fs) -> sparing src dst m.
Proof. intros H fs Hi. rewrite H. split; [exact Hi | apply spares_refl]. Qed.

Lemma sparing_bind {A B} (m : M A) (k : A -> M B) :
  sparing src dst m -> (forall a, sparing src dst (k a)) ->
  sparing src dst (bind m k).
Proof.
  intros Hm Hk fs H. unfold bind. specialize (Hm fs H).
  destruct (m fs) as [fs1 [a|e]]; simpl in Hm.
  - destruct Hm as [Hi Hs]. destruct (Hk a fs1 Hi) as [Hi2 Hs2].
    split; [exact Hi2 | eapply spares_trans; eauto].
  - exact Hm.
Qed.

Lemma sparing_try_except {A} (m : M A) (h : oserror -> M A) :
  sparing src dst m -> (forall e, sparing src dst (h e)) ->
  sparing src dst (try_except m h).
Proof.
  intros Hm Hk fs H. unfold try_except. specialize (Hm fs H).
  destruct (m fs) as [fs1 [a|e]]; simpl in Hm.
  - exact Hm.
  - destruct Hm as [Hi Hs]. destruct (Hk e fs1 Hi) as [Hi2 Hs2].
    split; [exact Hi2 | eapply spares_trans; eauto].
Qed.

Lemma sparing_for_each {A} (body : A -> M unit) (l : list A) :
  (forall x, sparing src dst (body x)) -> sparing src dst (for_each l body).
Proof.
  intros Hb. induction l as [|x l IH]; cbn [for_each].
  - apply sparing_same. reflexivity.
  - apply sparing_bind; [apply Hb | intros _; exact IH].
Qed.

Lemma sparing_gets {A} (f : node -> A) : sparing src dst (gets f).
Proof. apply sparing_same. reflexivity. Qed.

Lemma sparing_ret {A} (a : A) : sparing src dst (ret a).
Proof. apply sparing_same. reflexivity. Qed.

Lemma sparing_raise {A} e : sparing src dst (@raise A e).
Proof. apply sparing_same. reflexivity. Qed.

Lemma sparing_unlink s : at_live src s -> sparing src dst (unlink s).
Proof.
  intros Hs fs H. unfold unlink.
  destruct (namei fs false s) as [q|e] eqn:Hn; [|split; [exact H | apply spares_refl]].
  destruct (resolve_live fs s q H Hs Hn) as (-> & Hu & Hd).
  destruct (find fs s) as [n|]; [|split; [exact H|apply spares_refl]].
  destruct (negb (parent_writable fs s)); [split; [exact H|apply spares_refl]|].
  destruct n; simpl; try (split; [exact H|apply spares_refl]);
    apply drop_sparing; assumption.
Qed.

Lemma sparing_create s v :
  at_live src s -> (s = src -> is_dir (Some v) = true) ->
  sparing src dst (create s v).
Proof.
  intros Hs Hv fs H. unfold create.
  destruct (namei fs false s) as [q|e] eqn:Hn; [|split; [exact H | apply spares_refl]].
  destruct (resolve_live fs s q H Hs Hn) as (-> & Hu & Hd).
  destruct (find fs s) as [n|]; [split; [exact H|apply spares_refl]|].
  destruct (parent_writable fs s); [|split; [exact H|apply spares_refl]].
  simpl. apply put_sparing; assumption.
Qed.

Lemma rm_node_dir_left ig pw a es v e :
  rm_node ig pw (Dir a es) = (Some v, e) -> is_dir (Some v) = true.
Proof.
  rewrite rm_node_dir. destruct (rm_entries ig (writable a) es) as [es' [c|]].
  - intros [= <- _]. reflexivity.
  - destruct (negb pw); [intros [= <- _]; reflexivity|].
    destruct (busy a); [intros [= <- _]; reflexivity|].
    destruct es'; [discriminate | intros [= <- _]; reflexivity].
Qed.

Lemma sparing_rmtree ig s : at_live src s -> sparing src dst (rmtree ig s).
Proof.
  intros Hs fs H. unfold rmtree.
  destruct (is_link (lstat fs s)).
  { destruct ig; split; solve [exact H | apply spares_refl]. }
  destruct (namei fs false s) as [q|e] eqn:Hn.
  2: { destruct ig; split; solve [exact H | apply spares_refl]. }
  destruct (resolve_live fs s q H Hs Hn) as (-> & Hu & Hd).
  pose proof (under_nonempty s Hu) as Hne.
  destruct (find fs s) as [[m c|a es|t]|] eqn:Ef;
    try (destruct ig; split; solve [exact H | apply spares_refl]).
  destruct s as [|x0 s0]; [contradiction|].
  remember (x0 :: s0) as s eqn:Es.
  destruct (rm_node ig (parent_writable fs s) (Dir a es)) as [[v|] e] eqn:Er.
  - apply rm_node_dir_left in Er.
    assert (Hp : live_shape src dst (put s v fs) /\ spares src fs (put s v fs)).
    { apply put_sparing; try assumption. intros _. exact Er. }
    destruct e as [c|]; simpl; [destruct ig|]; exact Hp.
  - simpl. apply drop_sparing; assumption.
Qed.

Lemma put_link_spares fs v :
  live_shape src dst fs -> spares src fs (put src v fs).
Proof.
  intros (H1 & H2 & H3) p m c Hp Ho.
  rewrite find_put_other; [exact Hp | exact live_src_nonempty | exact Ho | ].
  eapply file_outside; eauto.
Qed.

Lemma sparing_listdir p : sparing src dst (listdir p).
Proof. apply sparing_same. intros fs. apply listdir_state. Qed.

Lemma sparing_readlink p : sparing src dst (readlink p).
Proof.
  apply sparing_same. intros fs. unfold readlink.
  destruct (namei fs false p) as [q|e]; [|reflexivity].
  destruct (find fs q) as [[]|]; reflexivity.
Qed.

Lemma sparing_makedirs_src : sparing src dst (makedirs src).
Proof.
  intros fs H. pose proof H as (H1 & H2 & H3).
  apply is_dir_inv in H1 as (a & es & Hd).
  rewrite (makedirs_under_dir fs src a es Hd live_src_nonempty).
  apply sparing_try_except; [| | exact H].
  - apply sparing_create; [left; reflexivity | intros _; reflexivity].
  - intros e. apply sparing_bind; [apply sparing_gets|].
    intros [|]; [apply sparing_ret | apply sparing_raise].
Qed.

Lemma sparing_makedirs_dir p :
  (forall fs, live_shape src dst fs -> is_dir (find fs p) = true) ->
  sparing src dst (makedirs p).
Proof.
  intros Hp fs H. specialize (Hp fs H). apply is_dir_inv in Hp as (a & es & Hf).
  rewrite makedirs_existing.
  - split; [exact H | apply spares_refl].
  - rewrite (stat_of_find fs p _ Hf eq_refl). reflexivity.
Qed.

Lemma sparing_makedirs_dst : sparing src dst (makedirs dst).
Proof. apply sparing_makedirs_dir. intros fs (_ & _ & H). exact H. Qed.

Lemma sparing_makedirs_parent : sparing src dst (makedirs (dirname src)).
Proof. apply sparing_makedirs_dir. intros fs (H & _). exact H. Qed.

Lemma sparing_clear_child x : sparing src dst (clear_child src x).
Proof.
  unfold clear_child.
  apply sparing_bind; [apply sparing_gets | intros l].
  apply sparing_bind; [apply sparing_gets | intros f].
  destruct (l || f).
  - apply sparing_try_except; [apply sparing_unlink; right; eauto | intros _].
    apply sparing_try_except;
      [apply sparing_unlink; right; eauto | intros _; apply sparing_ret].
  - apply sparing_bind; [apply sparing_gets | intros d].
    destruct d; [apply sparing_rmtree; right; eauto | apply sparing_ret].
Qed.

Lemma sparing_link_child x : sparing src dst (link_child src dst x).
Proof.
  unfold link_child.
  apply sparing_bind; [apply sparing_gets | intros le].
  apply sparing_bind.
  - destruct le; [|apply sparing_ret].
    apply sparing_bind; [apply sparing_gets | intros l].
    destruct l.
    + apply sparing_try_except;
        [apply sparing_unlink; right; eauto | intros _; apply sparing_ret].
    + apply sparing_bind; [apply sparing_gets | intros d].
      destruct d; [apply sparing_rmtree; right; eauto|].
      apply sparing_try_except;
        [apply sparing_unlink; right; eauto | intros _; apply sparing_ret].
  - intros _. apply sparing_try_except; [|intros _; apply sparing_ret].
    apply sparing_create; [right; eauto|].
    intros E. exfalso. apply (f_equal (@List.length _)) in E.
    rewrite length_app in E. simpl in E. lia.
Qed.

(** the fallback [_link_dir_contents_in_place] *)
Lemma sparing_link_dir_contents :
  sparing src dst (_link_dir_contents_in_place src dst).
Proof.
  unfold _link_dir_contents_in_place.
  apply sparing_bind; [apply sparing_makedirs_dst | intros _].
  apply sparing_bind; [apply sparing_gets | intros d].
  apply sparing_bind.
  - destruct d; [|apply sparing_makedirs_src].
    apply sparing_bind; [apply sparing_listdir | intros names].
    apply sparing_for_each. apply sparing_clear_child.
  - intros _. apply sparing_bind.
    + apply sparing_try_except; [apply sparing_listdir | intros e].
      destruct (errno_in e [ENOENT]); [apply sparing_ret | apply sparing_raise].
    + intros entries. apply sparing_for_each. apply sparing_link_child.
Qed.

Lemma ending_of_sparing {A} (m : M A) : sparing src dst m -> ending src dst m.
Proof. intros H fs Hi. destruct (H fs Hi) as [H1 H2]. split; [exact H2 | intros _ _; exact H1]. Qed.

Lemma ending_bind {A B} (m : M A) (k : A -> M B) :
  sparing src dst m -> (forall a, ending src dst (k a)) ->
  ending src dst (bind m k).
Proof.
  intros Hm Hk fs H. unfold bind. destruct (Hm fs H) as [Hi Hs].
  destruct (m fs) as [fs1 [a|e]]; simpl in Hi, Hs.
  - destruct (Hk a fs1 Hi) as [Hs2 Hr].
    split; [eapply spares_trans; eauto | exact Hr].
  - split; [exact Hs | intros _ _; exact Hi].
Qed.

(** [ensure_symlink] at the live path *)
Lemma ending_ensure_symlink : ending src dst (ensure_symlink src dst).
Proof.
  unfold ensure_symlink. cbv zeta.
  apply ending_bind; [apply sparing_makedirs_parent | intros _].
  apply ending_bind; [apply sparing_gets | intros l].
  apply ending_bind.
  - destruct l.
    + apply sparing_bind; [apply sparing_readlink | intros cur].
      destruct (path_eqb cur dst); [apply sparing_ret|].
      apply sparing_bind; [apply sparing_unlink; left; reflexivity|].
      intros _. apply sparing_ret.
    + apply sparing_bind; [apply sparing_gets | intros e].
      destruct e; [|apply sparing_ret].
      apply sparing_bind; [|intros _; apply sparing_ret].
      apply sparing_bind; [apply sparing_gets | intros d].
      destruct d; [apply sparing_rmtree | apply sparing_unlink]; left; reflexivity.
  - intros [|]; [apply ending_of_sparing, sparing_ret|].
    intros fs H. unfold try_except, symlink, create.
    destruct (namei fs false src) as [q|e] eqn:Hn.
    2: { split; [apply spares_refl | intros _ _; exact H]. }
    destruct (resolve_live fs src q H (or_introl eq_refl) Hn) as (-> & Hu & Hd).
    destruct (find fs src) as [n|].
    { split; [apply spares_refl | intros _ _; exact H]. }
    destruct (parent_writable fs src).
    + split; [apply put_link_spares; exact H | intros e; discriminate].
    + split; [apply spares_refl | intros _ _; exact H].
Qed.

(** the end of the directory branch *)
Lemma replace_dir_spares fs :
  live_shape src dst fs ->
  spares src fs (fst (replace_dir_by_link src dst fs)).
Proof.
  intros H. unfold replace_dir_by_link. unfold bind at 1.
  destruct (sparing_rmtree true src (or_introl eq_refl) fs H) as [Hi1 Hs1].
  destruct (rmtree true src fs) as [fs1 [u|e]]; simpl in Hi1, Hs1; [|exact Hs1].
  unfold try_except.
  destruct (ending_ensure_symlink fs1 Hi1) as [Hs2 Hr].
  destruct (ensure_symlink src dst fs1) as [fs2 [u2|e2]]; simpl in Hs2, Hr.
  - eapply spares_trans; eauto.
  - specialize (Hr e2 eq_refl).
    eapply spares_trans; [exact Hs1|]. eapply spares_trans; [exact Hs2|].
    assert (Hh : sparing src dst
                   (parent_writable <- access_w (dirname src) ;;
                    if errno_in e2 [EPERM; EACCES] || negb parent_writable
                    then _link_dir_contents_in_place src dst
                    else raise e2)).
    { apply sparing_bind; [apply sparing_gets | intros w].
      destruct (errno_in e2 [EPERM; EACCES] || negb w);
        [apply sparing_link_dir_contents | apply sparing_raise]. }
    apply (Hh fs2 Hr).
Qed.

End DirBranch.

(** X24. The directory branch of [migrate_and_link] and the files that are
    not in the live directory.  The live path and the history path name
    directories, each of them reached through directories only, with no
    link on the way, and neither of them inside the other.  Whatever
    the round does, and whether it returns, falls back to links inside
    the live directory, or raises: without [rsync], every regular file
    that is not at or below the live path is afterwards where it was,
    with its content and its time; this holds for the files of the
    history too.  With [rsync] it holds for the files that are outside
    both paths.  A live path that is reached through a link is another
    matter: see [dir_target_behind_link_is_lost]. *)
Theorem directory_branch_spares_files (now : Z) (rsync dirlike : bool)
        (fs : node) (src dst : path) (a b : dattr) (es des : list (name * node))
        (p : path) (m : Z) (c : string) :
  find fs src = Some (Dir a es) ->
  find fs dst = Some (Dir b des) ->
  is_prefix src dst = false ->
  is_prefix dst src = false ->
  find fs p = Some (File m c) ->
  is_prefix src p = false ->
  (rsync = true -> is_prefix dst p = false) ->
  find (fst (migrate_path now rsync dirlike src dst fs)) p = Some (File m c).
Proof.
  intros Hsrc Hdst Hsd Hds Hp Ho Hr.
  pose proof (live_src_nonempty src dst Hsd) as Hne.
  assert (Hdne : dst <> []).
  { intros E. rewrite E in Hds. discriminate. }
  destruct (find_dirname fs src _ Hsrc Hne) as (pa & pes & Hsp).
  destruct (find_dirname fs dst _ Hdst Hdne) as (qa & qes & Hdp).
  assert (Hlive : live_shape src dst fs).
  { split; [rewrite Hsp; reflexivity|].
    split; [right; rewrite Hsrc; reflexivity | rewrite Hdst; reflexivity]. }
  unfold migrate_path. unfold bind at 1.
  rewrite makedirs_existing by (rewrite (stat_of_find fs _ _ Hdp eq_refl); reflexivity).
  unfold bind at 1. unfold islink, gets at 1.
  rewrite (lstat_of_find fs src _ Hsrc). cbn [is_link].
  unfold bind at 1. unfold isdir, gets at 1.
  rewrite (stat_of_find fs src _ Hsrc eq_refl). cbn [is_dir].
  unfold migrate_dir. unfold bind at 1.
  rewrite makedirs_existing by (rewrite (stat_of_find fs _ _ Hdst eq_refl); reflexivity).
  unfold bind at 1.
  assert (Hmid : live_shape src dst
                   (fst ((if rsync then rsync_a src dst else merge_copy src dst) fs))
                 /\ find (fst ((if rsync then rsync_a src dst else merge_copy src dst) fs)) p
                    = Some (File m c)).
  { destruct rsync.
    - unfold rsync_a. rewrite (stat_of_find fs src _ Hsrc eq_refl).
      rewrite (namei_of_find fs dst _ true Hdst (or_intror eq_refl)), Hdst.
      destruct dst as [|d0 dr] eqn:Ed; [contradiction|]. rewrite <- Ed in *.
      cbn [fst].
      set (v := rsync_node (Dir a es) (Some (Dir b des))).
      assert (Hv : is_dir (Some v) = true) by reflexivity.
      clearbody v. split.
      + split; [|split].
        * apply (same_kind_is_dir (find fs (dirname src)));
            [|rewrite Hsp; reflexivity].
          apply find_put_kind; [exact Hdne|]. apply not_prefix_dirname. exact Hds.
        * right. apply (same_kind_is_dir (find fs src));
            [|rewrite Hsrc; reflexivity].
          apply find_put_kind; [exact Hdne | exact Hds].
        * rewrite (find_put_same dst v fs qa qes Hdne Hdp). exact Hv.
      + rewrite find_put_other; [exact Hp | exact Hdne | apply Hr; reflexivity |].
        eapply file_outside; [exact Hp | rewrite Hdp; reflexivity].
    - pose proof (merge_copy_extends src dst fs) as He. split.
      + split; [|split].
        * destruct (extends_find _ _ _ _ He Hsp) as (n' & -> & Hn').
          destruct n'; simpl in Hn'; try contradiction. reflexivity.
        * right. destruct (extends_find _ _ _ _ He Hsrc) as (n' & -> & Hn').
          destruct n'; simpl in Hn'; try contradiction. reflexivity.
        * destruct (extends_find _ _ _ _ He Hdst) as (n' & -> & Hn').
          destruct n'; simpl in Hn'; try contradiction. reflexivity.
      + apply (extends_find_file _ _ _ _ _ He Hp). }
  destruct Hmid as [Hl1 Hp1].
  destruct ((if rsync then rsync_a src dst else merge_copy src dst) fs)
    as [fs1 [u|e]]; cbn [fst] in Hl1, Hp1.
  - apply (replace_dir_spares src dst Hsd fs1 Hl1 p m c Hp1 Ho).
  - exact Hp1.
Qed.

Lemma directory_branch_spares_files_witness :
  find (fst (migrate_path 0 false true ["data"] ["h"; "data"] Scenarios.fs_dir_conflict))
       ["h"; "data"; "x"]
  = Some (File 1 "old contents").
Proof.
  apply (directory_branch_spares_files 0 false true Scenarios.fs_dir_conflict
           ["data"] ["h"; "data"] plain plain
           [("x", File 2 "new"); ("a", File 2 "A")]
           [("x", File 1 "old contents"); ("b", File 1 "B")]);
    try reflexivity.
  discriminate.
Defined.

(** ** A target below a directory target *)

(** The directory branch has no test for the live path and the history
    path being one directory either.  The targets [a/] and [a/sub/],
    in this order: after the first, [/a] is a link to [/h/a], the live
    path [/a/sub] of the second is the history directory [/h/a/sub],
    which is emptied and replaced by a link to itself.  The run
    returns, and the file [f] is nowhere. *)
Lemma dir_target_behind_link_is_lost (now : Z) (rsync : bool) (m : Z) (c : string) :
  let fs := Scenarios.fs_fresh_live_subdir m c in
  let fs2 := fst (migrate_and_link now rsync "/" "/h" ["a/"; "a/sub/"] fs) in
  find (fst (migrate_and_link now rsync "/" "/h" ["a/"] fs)) ["h"; "a"; "sub"; "f"]
  = Some (File m c)
  /\ snd (migrate_and_link now rsync "/" "/h" ["a/"; "a/sub/"] fs) = Ok tt
  /\ find fs2 ["h"; "a"; "sub"] = Some (Link ["h"; "a"; "sub"])
  /\ stat fs2 ["h"; "a"; "sub"; "f"] = None
  /\ stat fs2 ["a"; "sub"; "f"] = None.
Proof.
  cbv zeta. destruct rsync.
  - assert (E : migrate_and_link now true "/" "/h" ["a/"; "a/sub/"]
                  (Scenarios.fs_fresh_live_subdir m c)
                = (Scenarios.dir
                     [("h", Scenarios.dir
                              [("a", Scenarios.dir [("sub", Link ["h"; "a"; "sub"])])]);
                      ("a", Link ["h"; "a"])], Ok tt)).
    { cbv -[Z.eqb Nat.eqb String.length]. rewrite Z.eqb_refl, Nat.eqb_refl.
      reflexivity. }
    rewrite E. repeat split; reflexivity.
  - repeat split; reflexivity.
Qed.

(** C4. The targets [data/] and [data/c.json], in this order, on a tree
    with the live file [/data/c.json] and an empty history [/h].  The
    first target moves the directory into the history and leaves
    [/data] a link to [/h/data].  For the second target the live path
    [/data/c.json] is then a regular file and not a link, and the
    history path [/h/data/c.json] exists: they are one file.  The file
    branch removes the live file, which removes the history file, and
    makes the link at the live path, which puts a link to
    [/h/data/c.json] at [/h/data/c.json].  The run returns; the content
    of the file is nowhere in the tree, and neither path leads to a
    file.  This holds with and without [rsync], for every content and
    time stamp. *)
Theorem file_target_behind_link_is_lost (now : Z) (rsync : bool) (m : Z) (c : string) :
  let fs := Scenarios.fs_fresh_live_file m c in
  let fs1 := Scenarios.fs_fresh_live_file_linked m c in
  let fs2 := Scenarios.fs_fresh_live_file_lost in
  migrate_and_link now rsync "/" "/h" ["data/"] fs = (fs1, Ok tt)
  /\ is_file (stat fs1 ["data"; "c.json"]) = true
  /\ is_link (lstat fs1 ["data"; "c.json"]) = false
  /\ find fs1 ["h"; "data"; "c.json"] = Some (File m c)
  /\ migrate_and_link now rsync "/" "/h" ["data/c.json"] fs1 = (fs2, Ok tt)
  /\ migrate_and_link now rsync "/" "/h" ["data/"; "data/c.json"] fs = (fs2, Ok tt)
  /\ find fs2 ["h"; "data"; "c.json"] = Some (Link ["h"; "data"; "c.json"])
  /\ stat fs2 ["h"; "data"; "c.json"] = None
  /\ stat fs2 ["data"; "c.json"] = None.
Proof.
  cbv zeta. destruct rsync; repeat split; reflexivity.
Qed.

(** ** The text of a link and the components of the history path *)

Section LinkText.
Import PyStr PosixPath ConfigProps.










End LinkText.






End LinkerProps.

(* ===================================================================== *)
(** * Properties of the phases *)
(* ===================================================================== *)

Module PhasesProps.
Import Phases.
Local Open Scope list_scope.

Lemma bind_inv {A B} (m : P A) (k : A -> P B) fs fs' tr r :
  bind m k fs = (fs', tr, r) ->
  (exists f, m fs = (fs', tr, Failed f) /\ r = Failed f)
  \/ (exists fs1 tr1 a tr2,
         m fs = (fs1, tr1, Fine a) /\ k a fs1 = (fs', tr2, r)
         /\ tr = tr1 ++ tr2).
Proof.
  unfold bind. destruct (m fs) as [[fs1 tr1] [a|f]].
  - destruct (k a fs1) as [[fs2 tr2] r2] eqn:E. intros H. inversion H; subst.
    right. exists fs1, tr1, a, tr2. auto.
  - intros H. inversion H; subst. left. exists f. auto.
Qed.

Lemma engine_inv {A} (m : FS.M A) (log : A -> list step) fs fs' tr r :
  engine m log fs = (fs', tr, r) ->
  (exists a, m fs = (fs', FS.Ok a) /\ tr = log a /\ r = Fine a)
  \/ (exists e, m fs = (fs', FS.Raise e) /\ tr = [] /\ r = Failed (OsFailure e)).
Proof.
  unfold engine. destruct (m fs) as [fs1 [a|e]]; intros H; inversion H; subst.
  - left. exists a. auto.
  - right. exists e. auto.
Qed.

Lemma git_call_inv {A} (g : FS.node -> FS.node * Daemon.res A) (log : A -> list step)
      fs fs' tr r :
  git_call g log fs = (fs', tr, r) ->
  (exists a, g fs = (fs', Daemon.Ok a) /\ tr = log a /\ r = Fine a)
  \/ (exists e, g fs = (fs', Daemon.Raise e) /\ tr = []
                /\ r = Failed (GitFailure e)).
Proof.
  unfold git_call. destruct (g fs) as [fs1 [a|e]]; intros H; inversion H; subst.
  - left. exists a. auto.
  - right. exists e. auto.
Qed.

(** the push and what is done with its exception *)
Lemma guarded_push_inv (g : FS.node -> FS.node * Daemon.res unit) fs fs' tr r :
  try_except (git_call g (fun _ => [Pushed]))
             (fun e => emit (LoggedPushError e)) fs = (fs', tr, r) ->
  r = Fine tt /\ (tr = [Pushed] \/ exists e, tr = [LoggedPushError e]).
Proof.
  unfold try_except, git_call, emit.
  destruct (g fs) as [fs1 [[]|e]]; intros H; inversion H; subst.
  - split; [reflexivity | left; reflexivity].
  - split; [reflexivity | right; eauto].
Qed.

Section WithGit.
Variable now : Z.
Variable rsync_available : bool.
Variable is_excluded : string -> list string -> bool.
Variable git_pull_rebase : string -> string -> FS.node -> FS.node * Daemon.res unit.
Variable add_all_and_commit_if_needed :
  string -> string -> FS.node -> FS.node * Daemon.res bool.
Variable git_push : string -> string -> FS.node -> FS.node * Daemon.res unit.
Variable git_run_push : string -> string -> FS.node -> FS.node * Daemon.res unit.

Lemma link_and_track_shape (st : Config.Settings) (fs fs' : FS.node)
      (tr : list step) (r : outcome unit) :
  link_and_track now rsync_available is_excluded
                 add_all_and_commit_if_needed git_push st fs = (fs', tr, r) ->
  (is_fine r = false /\ existsb is_commit tr = false)
  \/ (r = Fine tt
      /\ exists n c rest,
           tr = Precreated :: Migrated :: Tracked n
                :: Committed "chore(sync): initial link & empty dirs" c :: rest
           /\ (c = false -> rest = [])
           /\ (c = true -> rest = [Pushed] \/ exists e, rest = [LoggedPushError e])).
Proof.
  unfold link_and_track. intros H.
  apply bind_inv in H as [[f [H1 ->]] | [fs1 [tr1 [[] [tr2 [H1 [H ->]]]]]]].
  { apply engine_inv in H1 as [[a [_ [_ E]]] | [e [_ [-> _]]]]; [discriminate|].
    left. split; reflexivity. }
  apply engine_inv in H1 as [[a [_ [-> _]]] | [e [_ [_ E]]]]; [|discriminate].
  apply bind_inv in H as [[f [H2 ->]] | [fs2 [tr3 [[] [tr4 [H2 [H ->]]]]]]].
  { apply engine_inv in H2 as [[a2 [_ [_ E]]] | [e [_ [-> _]]]]; [discriminate|].
    left. split; reflexivity. }
  apply engine_inv in H2 as [[a2 [_ [-> _]]] | [e [_ [_ E]]]]; [|discriminate].
  apply bind_inv in H as [[f [H3 ->]] | [fs3 [tr5 [n [tr6 [H3 [H ->]]]]]]].
  { apply engine_inv in H3 as [[a3 [_ [_ E]]] | [e [_ [-> _]]]]; [discriminate|].
    left. split; reflexivity. }
  apply engine_inv in H3 as [[n' [_ [-> E]]] | [e [_ [_ E]]]]; [|discriminate].
  inversion E; subst n'. clear E.
  apply bind_inv in H as [[f [H4 ->]] | [fs4 [tr7 [c [tr8 [H4 [H ->]]]]]]].
  { apply git_call_inv in H4 as [[a4 [_ [_ E]]] | [e [_ [-> _]]]]; [discriminate|].
    left. split; reflexivity. }
  apply git_call_inv in H4 as [[c' [_ [-> E]]] | [e [_ [_ E]]]]; [|discriminate].
  inversion E; subst c'. clear E.
  right. destruct c.
  - apply guarded_push_inv in H as [-> Hrest]. split; [reflexivity|].
    exists n, true, tr8. split; [reflexivity|]. split; [discriminate|].
    intros _. exact Hrest.
  - unfold ret in H. inversion H; subst. split; [reflexivity|].
    exists n, false, []. split; [reflexivity|]. split; [reflexivity | discriminate].
Qed.

Lemma pull_commit_push_shape (st : Config.Settings) (fs fs' : FS.node)
      (tr : list step) (r : outcome unit) :
  pull_commit_push now is_excluded git_pull_rebase
                   add_all_and_commit_if_needed git_run_push st fs = (fs', tr, r) ->
  (is_fine r = false /\ existsb is_commit tr = false /\ existsb is_push tr = false)
  \/ (r = Fine tt
      /\ exists n c rest,
           tr = Pulled :: Tracked n
                :: Committed "chore(sync): periodic commit" c :: rest
           /\ (rest = [Pushed] \/ exists e, rest = [LoggedPushError e])).
Proof.
  unfold pull_commit_push. intros H.
  apply bind_inv in H as [[f [H1 ->]] | [fs1 [tr1 [[] [tr2 [H1 [H ->]]]]]]].
  { apply git_call_inv in H1 as [[a [_ [_ E]]] | [e [_ [-> _]]]]; [discriminate|].
    left. repeat split; reflexivity. }
  apply git_call_inv in H1 as [[a [_ [-> _]]] | [e [_ [_ E]]]]; [|discriminate].
  apply bind_inv in H as [[f [H3 ->]] | [fs3 [tr5 [n [tr6 [H3 [H ->]]]]]]].
  { apply engine_inv in H3 as [[a3 [_ [_ E]]] | [e [_ [-> _]]]]; [discriminate|].
    left. repeat split; reflexivity. }
  apply engine_inv in H3 as [[n' [_ [-> E]]] | [e [_ [_ E]]]]; [|discriminate].
  inversion E; subst n'. clear E.
  apply bind_inv in H as [[f [H4 ->]] | [fs4 [tr7 [c [tr8 [H4 [H ->]]]]]]].
  { apply git_call_inv in H4 as [[a4 [_ [_ E]]] | [e [_ [-> _]]]]; [discriminate|].
    left. repeat split; reflexivity. }
  apply git_call_inv in H4 as [[c' [_ [-> E]]] | [e [_ [_ E]]]]; [|discriminate].
  inversion E; subst c'. clear E.
  right. apply guarded_push_inv in H as [-> Hrest]. split; [reflexivity|].
  exists n, c, tr8. split; [reflexivity | exact Hrest].
Qed.

End WithGit.

(** X22. [link_and_track] returns exactly when the commit has been made:
    the three steps of the engine and the commit come first, in that
    order, and an exception of any of them leaves the function before
    anything is committed; the push is tried only when the commit
    changed something, and its exception is logged, not raised. *)
Theorem link_and_track_returns_iff_committed
        (now : Z) (rsync_available : bool)
        (is_excluded : string -> list string -> bool)
        (add_all_and_commit_if_needed :
           string -> string -> FS.node -> FS.node * Daemon.res bool)
        (git_push : string -> string -> FS.node -> FS.node * Daemon.res unit)
        (st : Config.Settings) (fs fs' : FS.node)
        (tr : list step) (r : outcome unit) :
  link_and_track now rsync_available is_excluded
                 add_all_and_commit_if_needed git_push st fs = (fs', tr, r) ->
  (is_fine r = existsb is_commit tr)
  /\ (is_fine r = true ->
      exists n c rest,
        tr = Precreated :: Migrated :: Tracked n
             :: Committed "chore(sync): initial link & empty dirs" c :: rest
        /\ (c = false -> rest = [])
        /\ (c = true -> rest = [Pushed] \/ exists e, rest = [LoggedPushError e])).
Proof.
  intros H.
  destruct (link_and_track_shape _ _ _ _ _ _ _ _ _ _ H)
    as [[Hr Hc] | [-> [n [c [rest [-> Hrest]]]]]].
  - rewrite Hr, Hc. split; [reflexivity | discriminate].
  - split; [reflexivity|]. intros _. exists n, c, rest. split; [reflexivity | exact Hrest].
Qed.

Lemma link_and_track_returns_iff_committed_witness :
  link_and_track 0 false (fun _ _ => false)
                 (Scenarios.git_quiet (Daemon.Ok true))
                 (Scenarios.git_quiet (Daemon.Raise Scenarios.offline))
                 Scenarios.settings Scenarios.fs_linked
  = (Scenarios.fs_linked,
     [Precreated; Migrated; Tracked 0;
      Committed "chore(sync): initial link & empty dirs" true;
      LoggedPushError (GitFailure Scenarios.offline)],
     Fine tt)
  /\ is_fine (@Fine unit tt)
     = existsb is_commit
         [Precreated; Migrated; Tracked 0;
          Committed "chore(sync): initial link & empty dirs" true;
          LoggedPushError (GitFailure Scenarios.offline)].
Proof.
  assert (E : link_and_track 0 false (fun _ _ => false)
                 (Scenarios.git_quiet (Daemon.Ok true))
                 (Scenarios.git_quiet (Daemon.Raise Scenarios.offline))
                 Scenarios.settings Scenarios.fs_linked
  = (Scenarios.fs_linked,
     [Precreated; Migrated; Tracked 0;
      Committed "chore(sync): initial link & empty dirs" true;
      LoggedPushError (GitFailure Scenarios.offline)],
     Fine tt)) by reflexivity.
  split; [exact E|].
  exact (proj1 (link_and_track_returns_iff_committed _ _ _ _ _ _ _ _ _ _ E)).
Defined.

(** X23. A periodic cycle returns exactly when its commit has been made:
    the pull, the tracking of empty directories and the commit come
    first, in that order, and an exception of any of them, an
    [OSError] of [track_empty_dirs] included, leaves
    [pull_commit_push] before anything is committed or pushed; the push
    is tried whether or not the commit changed something, and its
    exception is logged, not raised. *)
Theorem pull_commit_push_returns_iff_committed
        (now : Z) (is_excluded : string -> list string -> bool)
        (git_pull_rebase : string -> string -> FS.node -> FS.node * Daemon.res unit)
        (add_all_and_commit_if_needed :
           string -> string -> FS.node -> FS.node * Daemon.res bool)
        (git_run_push : string -> string -> FS.node -> FS.node * Daemon.res unit)
        (st : Config.Settings) (fs fs' : FS.node)
        (tr : list step) (r : outcome unit) :
  pull_commit_push now is_excluded git_pull_rebase
                   add_all_and_commit_if_needed git_run_push st fs = (fs', tr, r) ->
  (is_fine r = existsb is_commit tr)
  /\ (is_fine r = false -> existsb is_push tr = false)
  /\ (is_fine r = true ->
      exists n c rest,
        tr = Pulled :: Tracked n
             :: Committed "chore(sync): periodic commit" c :: rest
        /\ (rest = [Pushed] \/ exists e, rest = [LoggedPushError e])).
Proof.
  intros H.
  destruct (pull_commit_push_shape _ _ _ _ _ _ _ _ _ _ H)
    as [[Hr [Hc Hp]] | [-> [n [c [rest [-> Hrest]]]]]].
  - rewrite Hr, Hc. split; [reflexivity|]. split; [intros _; exact Hp | discriminate].
  - split; [reflexivity|]. split; [discriminate|].
    intros _. exists n, c, rest. split; [reflexivity | exact Hrest].
Qed.

Lemma pull_commit_push_returns_iff_committed_witness :
  pull_commit_push 0 (fun _ _ => false)
                   (Scenarios.git_quiet (Daemon.Ok tt))
                   (Scenarios.git_quiet (Daemon.Ok false))
                   (Scenarios.git_quiet (Daemon.Raise Scenarios.offline))
                   Scenarios.settings Scenarios.fs_locked_empty
  = (Scenarios.fs_locked_empty, [Pulled], Failed (OsFailure (FS.OSError (Some FS.EACCES))))
  /\ existsb is_push [Pulled] = false.
Proof.
  assert (E : pull_commit_push 0 (fun _ _ => false)
                   (Scenarios.git_quiet (Daemon.Ok tt))
                   (Scenarios.git_quiet (Daemon.Ok false))
                   (Scenarios.git_quiet (Daemon.Raise Scenarios.offline))
                   Scenarios.settings Scenarios.fs_locked_empty
  = (Scenarios.fs_locked_empty, [Pulled], Failed (OsFailure (FS.OSError (Some FS.EACCES)))))
    by reflexivity.
  split; [exact E|].
  exact (proj1 (proj2 (pull_commit_push_returns_iff_committed _ _ _ _ _ _ _ _ _ _ E))
           eq_refl).
Defined.

End PhasesProps.
